(** * obsidian-text2audio: [src/utils.ts] verified against its specification

    A shallow embedding of the helper functions of [src/utils.ts]
    ([getDefaultFiletime], [generateVoice], [getVoiceName],
    [handleTextFormat], [getAudioFormatType], [getSelectedText],
    [setLocalData], [getLocalData], [getVoices], [generateSettings])
    together with the parts of the JavaScript runtime they rely on
    (strings, the backtracking semantics of regular expressions,
    promises), the theorems that settle the claims of the specification
    (C1 to C10), and further properties of the code (X1 to X24). *)

From Stdlib Require Import Ascii String ZArith Lia Bool Arith List.
Import ListNotations.
Local Open Scope list_scope.

(* ================================================================== *)
(** * JavaScript strings *)
(* ================================================================== *)

Module JsString.

(** A JavaScript string is a sequence of UTF-16 code units.  The model
    covers the code units below 256 (Latin-1), one [ascii] per unit. *)
Definition str := list ascii.

(** A string literal of the source. *)
Definition lit (s : string) : str := list_ascii_of_string s.

Definition code (c : ascii) : nat := nat_of_ascii c.

(** The double quote, written by its code. *)
Definition dquote : ascii := ascii_of_nat 34.
Definition TAB : ascii := ascii_of_nat 9.
Definition LF : ascii := ascii_of_nat 10.
Definition CR : ascii := ascii_of_nat 13.

(** ECMAScript LineTerminator: LF, CR (U+2028 and U+2029 lie outside the
    modelled range). *)
Definition isLineTerminator (c : ascii) : bool :=
  (code c =? 10) || (code c =? 13).

(** ECMAScript WhiteSpace: TAB, VT, FF, SP, NBSP. *)
Definition isWhiteSpace (c : ascii) : bool :=
  (code c =? 9) || (code c =? 11) || (code c =? 12) || (code c =? 32)
  || (code c =? 160).

(** What [String.prototype.trim] strips: WhiteSpace and LineTerminator. *)
Definition isTrimmable (c : ascii) : bool :=
  isWhiteSpace c || isLineTerminator c.

Fixpoint trimStart (s : str) : str :=
  match s with
  | [] => []
  | c :: t => if isTrimmable c then trimStart t else s
  end.

Definition trimEnd (s : str) : str := rev (trimStart (rev s)).

(** [s.trim()] *)
Definition trim (s : str) : str := trimEnd (trimStart s).

(** Upper-case letters of Latin-1: A-Z and U+00C0-U+00DE without U+00D7. *)
Definition isUpper (c : ascii) : bool :=
  ((65 <=? code c) && (code c <=? 90))
  || ((192 <=? code c) && (code c <=? 222) && negb (code c =? 215)).

(** Lower-case letters with an upper-case partner inside Latin-1: a-z and
    U+00E0-U+00FE without U+00F7. *)
Definition isLower (c : ascii) : bool :=
  ((97 <=? code c) && (code c <=? 122))
  || ((224 <=? code c) && (code c <=? 254) && negb (code c =? 247)).

Definition lowerChar (c : ascii) : ascii :=
  if isUpper c then ascii_of_nat (code c + 32) else c.

Definition upperChar (c : ascii) : ascii :=
  if isLower c then ascii_of_nat (code c - 32) else c.

(** [s.toLowerCase()] *)
Definition toLowerCase (s : str) : str := map lowerChar s.

(** Strict equality of two strings. *)
Definition str_eqb (a b : str) : bool :=
  if list_eq_dec ascii_dec a b then true else false.

(** ToBoolean of a string: the empty string is the only falsy one. *)
Definition truthy (s : str) : bool :=
  match s with [] => false | _ :: _ => true end.

(** ToString of an integral Number. *)
Fixpoint digits_fuel (fuel : nat) (n : Z) : str :=
  match fuel with
  | O => []
  | S f =>
    let d := ascii_of_nat (48 + Z.to_nat (n mod 10)) in
    if (n <? 10)%Z then [d] else digits_fuel f (n / 10) ++ [d]
  end.

Definition Number_toString (n : Z) : str :=
  if (n <? 0)%Z
  then ascii_of_nat 45 :: digits_fuel (S (Z.to_nat (Z.log2 (- n)))) (- n)
  else digits_fuel (S (Z.to_nat (Z.log2 n))) n.

Definition isDigit (c : ascii) : bool :=
  (48 <=? code c) && (code c <=? 57).

End JsString.
Import JsString.

(* ================================================================== *)
(** * Regular expressions: the backtracking semantics of ECMAScript *)
(* ================================================================== *)

Module RegExp.

(** One member of a character class: a range of code units, or the
    complement of a union of ranges (the escapes [\D], [\W], [\S]). *)
Inductive ClassItem :=
| CRange (lo hi : ascii)
| CNot (rs : list (ascii * ascii)).

(** The pattern language covered by the model: alternation, sequence,
    greedy [*] and [?] ([r+] is [r r*]), capturing groups, character
    classes, [.], [^] and [$]. *)
Inductive regex :=
| Empty
| Chr (c : ascii)
| Dot
| Cls (invert : bool) (items : list ClassItem)
| Seq (r1 r2 : regex)
| Alt (r1 r2 : regex)
| Star (r : regex)
| Opt (r : regex)
| Group (n : nat) (r : regex)
| Bol
| Eol.

Record Flags := {
  global : bool;
  ignoreCase : bool;
  multiline : bool;
  dotAll : bool
}.

(** A RegExp object: the pattern, the number of its capturing groups and
    its flags. *)
Record RegExpObj := {
  re_pattern : regex;
  re_groups : nat;
  re_flags : Flags
}.

(** The state of a match: the input already consumed (nearest code unit
    first), the input ahead, and the captures (latest binding first). *)
Record MState := {
  consumed : str;
  remaining : str;
  captures : list (nat * str)
}.

(** A continuation of the matcher. *)
Definition K := MState -> option MState.

(** Canonicalize of the specification (non-unicode mode), on Latin-1. *)
Definition canonicalize (fl : Flags) (c : ascii) : ascii :=
  if ignoreCase fl then upperChar c else c.

Definition char_match (fl : Flags) (c x : ascii) : bool :=
  Ascii.eqb (canonicalize fl c) (canonicalize fl x).

Definition in_range (x : ascii) (r : ascii * ascii) : bool :=
  (code (fst r) <=? code x) && (code x <=? code (snd r)).

Definition in_ranges (rs : list (ascii * ascii)) (x : ascii) : bool :=
  existsb (in_range x) rs.

(** The code units with the same canonical form as [x]. *)
Definition case_variants (fl : Flags) (x : ascii) : list ascii :=
  if ignoreCase fl then [x; upperChar x; lowerChar x] else [x].

Definition item_match (fl : Flags) (x : ascii) (it : ClassItem) : bool :=
  match it with
  | CRange lo hi => existsb (fun y => in_range y (lo, hi)) (case_variants fl x)
  | CNot rs => existsb (fun y => negb (in_ranges rs y)) (case_variants fl x)
  end.

Definition class_match (fl : Flags) (invert : bool) (items : list ClassItem)
    (x : ascii) : bool :=
  xorb invert (existsb (item_match fl x) items).

(** Consume one code unit. *)
Definition advance (x : ascii) (xs : str) (st : MState) : MState :=
  {| consumed := x :: consumed st; remaining := xs; captures := captures st |}.

(** The capturing groups inside a pattern. *)
Fixpoint groups (r : regex) : list nat :=
  match r with
  | Seq a b | Alt a b => groups a ++ groups b
  | Star a | Opt a => groups a
  | Group n a => n :: groups a
  | _ => []
  end.

(** RepeatMatcher step 4: the captures of the groups inside a quantified
    atom are reset at the start of each iteration. *)
Definition clear_captures (gs : list nat) (st : MState) : MState :=
  match gs with
  | [] => st
  | _ =>
    {| consumed := consumed st; remaining := remaining st;
       captures :=
         filter (fun p => negb (existsb (Nat.eqb (fst p)) gs)) (captures st) |}
  end.

(** The text matched between two states of one match. *)
Definition matched_between (st st' : MState) : str :=
  rev (firstn (length (consumed st') - length (consumed st)) (consumed st')).

Definition set_capture (n : nat) (st st' : MState) : MState :=
  {| consumed := consumed st'; remaining := remaining st';
     captures := (n, matched_between st st') :: captures st' |}.

(** An iteration of a quantifier must consume input (RepeatMatcher, step
    2.b: an iteration that matches the empty string fails). *)
Definition progress (st st' : MState) : bool :=
  length (remaining st') <? length (remaining st).

(** Greedy [r*]: one more iteration first, the continuation otherwise.
    Every iteration consumes input, so [S (length (remaining st))] units of
    fuel are never used up. *)
Fixpoint star_loop (body : K -> K) (k : K) (fuel : nat) (st : MState)
    : option MState :=
  match fuel with
  | O => None
  | S fuel' =>
    match body (fun st' =>
                  if progress st st' then star_loop body k fuel' st' else None)
               st with
    | Some res => Some res
    | None => k st
    end
  end.

Definition at_line_start (fl : Flags) (st : MState) : bool :=
  match consumed st with
  | [] => true
  | c :: _ => multiline fl && isLineTerminator c
  end.

Definition at_line_end (fl : Flags) (st : MState) : bool :=
  match remaining st with
  | [] => true
  | c :: _ => multiline fl && isLineTerminator c
  end.

(** The matcher of a pattern, in continuation-passing style: alternatives
    are tried in order and the first success of the continuation wins. *)
Fixpoint rmatch (fl : Flags) (r : regex) (k : K) (st : MState) {struct r}
    : option MState :=
  match r with
  | Empty => k st
  | Chr c =>
    match remaining st with
    | x :: xs => if char_match fl c x then k (advance x xs st) else None
    | [] => None
    end
  | Dot =>
    match remaining st with
    | x :: xs =>
      if isLineTerminator x && negb (dotAll fl) then None
      else k (advance x xs st)
    | [] => None
    end
  | Cls invert items =>
    match remaining st with
    | x :: xs =>
      if class_match fl invert items x then k (advance x xs st) else None
    | [] => None
    end
  | Seq a b => rmatch fl a (fun st' => rmatch fl b k st') st
  | Alt a b =>
    match rmatch fl a k st with
    | Some res => Some res
    | None => rmatch fl b k st
    end
  | Star a =>
    star_loop (fun k' st' => rmatch fl a k' (clear_captures (groups a) st'))
              k (S (length (remaining st))) st
  | Opt a =>
    match rmatch fl a (fun st' => if progress st st' then k st' else None)
                 (clear_captures (groups a) st) with
    | Some res => Some res
    | None => k st
    end
  | Group n a => rmatch fl a (fun st' => k (set_capture n st st')) st
  | Bol => if at_line_start fl st then k st else None
  | Eol => if at_line_end fl st then k st else None
  end.

(** The result of RegExpBuiltinExec: the input skipped before the match,
    the matched text and the state at the end of the match. *)
Record MatchResult := {
  skipped : str;
  matched : str;
  mend : MState
}.

Definition start_state (pre rest : str) : MState :=
  {| consumed := pre; remaining := rest; captures := [] |}.

(** The leftmost match at or after the current position. *)
Fixpoint exec_from (fl : Flags) (r : regex) (pre rest : str)
    : option MatchResult :=
  match rmatch fl r Some (start_state pre rest) with
  | Some e =>
    Some {| skipped := []; matched := matched_between (start_state pre rest) e;
            mend := e |}
  | None =>
    match rest with
    | [] => None
    | c :: rest' =>
      match exec_from fl r (c :: pre) rest' with
      | Some m =>
        Some {| skipped := c :: skipped m; matched := matched m;
                mend := mend m |}
      | None => None
      end
    end
  end.

Definition capture_text (caps : list (nat * str)) (n : nat) : str :=
  match find (fun p => Nat.eqb (fst p) n) caps with
  | Some p => snd p
  | None => []
  end.

(** The text before a match. *)
Definition preceding (m : MatchResult) : str :=
  rev (skipn (length (matched m)) (consumed (mend m))).

Definition digit_value (d : ascii) : nat := code d - 48.

Definition is_group (ngroups n : nat) : bool :=
  (1 <=? n) && (n <=? ngroups).

(** GetSubstitution: [$$], [$&], the text before and after the match, and
    the captures by one or two digits; a [$] that starts none of these
    stays as written (the pattern language has no named groups). *)
Fixpoint GetSubstitution (ngroups : nat) (m : MatchResult) (repl : str) : str :=
  match repl with
  | [] => []
  | c :: t =>
    if Ascii.eqb c "$" then
      match t with
      | d :: t' =>
        if Ascii.eqb d "$" then "$"%char :: GetSubstitution ngroups m t'
        else if Ascii.eqb d "&" then matched m ++ GetSubstitution ngroups m t'
        else if Ascii.eqb d "`" then preceding m ++ GetSubstitution ngroups m t'
        else if Ascii.eqb d "'"
        then remaining (mend m) ++ GetSubstitution ngroups m t'
        else if isDigit d then
          match t' with
          | d2 :: t'' =>
            if isDigit d2
               && is_group ngroups (10 * digit_value d + digit_value d2)
            then capture_text (captures (mend m))
                   (10 * digit_value d + digit_value d2)
                   ++ GetSubstitution ngroups m t''
            else if is_group ngroups (digit_value d)
            then capture_text (captures (mend m)) (digit_value d)
                   ++ GetSubstitution ngroups m t'
            else c :: d :: GetSubstitution ngroups m t'
          | [] =>
            if is_group ngroups (digit_value d)
            then capture_text (captures (mend m)) (digit_value d)
            else [c; d]
          end
        else c :: GetSubstitution ngroups m t
      | [] => [c]
      end
    else c :: GetSubstitution ngroups m t
  end.

(** The loop of [String.prototype.replace] for a global pattern: every
    match from left to right; after an empty match the position moves on
    by one code unit. *)
Fixpoint replace_loop (fuel : nat) (re : RegExpObj) (repl : str)
    (pre rest : str) : str :=
  match fuel with
  | O => rest
  | S f =>
    match exec_from (re_flags re) (re_pattern re) pre rest with
    | None => rest
    | Some m =>
      skipped m ++ GetSubstitution (re_groups re) m repl ++
      match matched m with
      | [] =>
        match remaining (mend m) with
        | [] => []
        | c :: t => c :: replace_loop f re repl (c :: consumed (mend m)) t
        end
      | _ :: _ =>
        replace_loop f re repl (consumed (mend m)) (remaining (mend m))
      end
    end
  end.

(** [text.replace(re, repl)] for a replacement string. *)
Definition String_replace (text : str) (re : RegExpObj) (repl : str) : str :=
  if global (re_flags re)
  then replace_loop (S (length text)) re repl [] text
  else
    match exec_from (re_flags re) (re_pattern re) [] text with
    | None => text
    | Some m =>
      skipped m ++ GetSubstitution (re_groups re) m repl ++ remaining (mend m)
    end.

(** ** The RegExp constructor *)

(** The completion of [new RegExp(pattern, flags)]: the object, a
    SyntaxError, or a pattern that is valid ECMAScript but uses syntax
    outside the modelled language (lazy and counted quantifiers,
    look-around, back-references, word boundaries, hexadecimal and unicode
    escapes, the flags d, u, v and y). *)
Inductive Completion (A : Type) :=
| Normal (a : A)
| ThrowSyntaxError
| Unmodelled.
Arguments Normal {A} a.
Arguments ThrowSyntaxError {A}.
Arguments Unmodelled {A}.

Inductive Parse :=
| POk (r : regex) (rest : str) (ngroups : nat)
| PSyntaxError
| PUnsupported.

Inductive Atom :=
| AChar (c : ascii)
| ASet (items : list ClassItem)
| ABad
| ABeyond.

Inductive ClassParse :=
| CPOk (items : list ClassItem) (rest : str)
| CPSyntaxError
| CPUnsupported.

Definition digit_ranges : list (ascii * ascii) := [("0", "9")]%char.
Definition word_ranges : list (ascii * ascii) :=
  [("a", "z"); ("A", "Z"); ("0", "9"); ("_", "_")]%char.
Definition space_ranges : list (ascii * ascii) :=
  [(TAB, CR); (" "%char, " "%char); (ascii_of_nat 160, ascii_of_nat 160)].

Definition ranges_items (rs : list (ascii * ascii)) : list ClassItem :=
  map (fun r => CRange (fst r) (snd r)) rs.

Definition isSyntaxCharacter (c : ascii) : bool :=
  existsb (Ascii.eqb c) (lit "^$\.*+?()[]{}|/").

Definition isAsciiLetter (c : ascii) : bool :=
  ((65 <=? code c) && (code c <=? 90)) || ((97 <=? code c) && (code c <=? 122)).

(** The atom denoted by [\c]. *)
Definition escape_atom (in_class : bool) (c : ascii) : Atom :=
  if Ascii.eqb c "d" then ASet (ranges_items digit_ranges)
  else if Ascii.eqb c "D" then ASet [CNot digit_ranges]
  else if Ascii.eqb c "w" then ASet (ranges_items word_ranges)
  else if Ascii.eqb c "W" then ASet [CNot word_ranges]
  else if Ascii.eqb c "s" then ASet (ranges_items space_ranges)
  else if Ascii.eqb c "S" then ASet [CNot space_ranges]
  else if Ascii.eqb c "t" then AChar TAB
  else if Ascii.eqb c "n" then AChar LF
  else if Ascii.eqb c "v" then AChar (ascii_of_nat 11)
  else if Ascii.eqb c "f" then AChar (ascii_of_nat 12)
  else if Ascii.eqb c "r" then AChar CR
  else if Ascii.eqb c "b" then (if in_class then AChar (ascii_of_nat 8) else ABeyond)
  else if Ascii.eqb c "-" then (if in_class then AChar c else ABeyond)
  else if isSyntaxCharacter c then AChar c
  else if isAsciiLetter c || isDigit c then ABeyond
  else AChar c.

Definition class_atom (s : str) : Atom * str :=
  match s with
  | [] => (ABad, [])
  | c :: t =>
    if Ascii.eqb c "\" then
      match t with
      | d :: t' => (escape_atom true d, t')
      | [] => (ABad, [])
      end
    else (AChar c, t)
  end.

Definition class_cons (items : list ClassItem) (p : ClassParse) : ClassParse :=
  match p with
  | CPOk more rest => CPOk (items ++ more) rest
  | other => other
  end.

Definition starts_with (c : ascii) (s : str) : bool :=
  match s with
  | x :: _ => Ascii.eqb x c
  | [] => false
  end.

(** The members of a character class, up to its closing bracket. *)
Fixpoint parse_class_items (fuel : nat) (s : str) : ClassParse :=
  match fuel with
  | O => CPUnsupported
  | S f =>
    match s with
    | [] => CPSyntaxError
    | c :: t =>
      if Ascii.eqb c "]" then CPOk [] t
      else
        match class_atom s with
        | (ABad, _) => CPSyntaxError
        | (ABeyond, _) => CPUnsupported
        | (ASet items, t1) =>
          if starts_with "-" t1 && negb (starts_with "]" (tl t1))
          then CPUnsupported
          else class_cons items (parse_class_items f t1)
        | (AChar lo, t1) =>
          if starts_with "-" t1 && negb (starts_with "]" (tl t1)) then
            match class_atom (tl t1) with
            | (AChar hi, t2) =>
              if code lo <=? code hi
              then class_cons [CRange lo hi] (parse_class_items f t2)
              else CPSyntaxError
            | (ABad, _) => CPSyntaxError
            | (_, _) => CPUnsupported
            end
          else class_cons [CRange lo lo] (parse_class_items f t1)
        end
    end
  end.

Definition mkSeq (a b : regex) : regex :=
  match b with
  | Empty => a
  | _ => Seq a b
  end.

Definition greedy_only (q : regex) (t : str) (n : nat) : Parse :=
  if starts_with "?" t then PUnsupported else POk q t n.

(** The quantifier, if any, after an atom. *)
Definition quantified (r : regex) (t : str) (n : nat) : Parse :=
  match t with
  | [] => POk r t n
  | c :: t' =>
    if Ascii.eqb c "*" then greedy_only (Star r) t' n
    else if Ascii.eqb c "+" then greedy_only (Seq r (Star r)) t' n
    else if Ascii.eqb c "?" then greedy_only (Opt r) t' n
    else if Ascii.eqb c "{" then PUnsupported
    else POk r t n
  end.

Definition isQuantifierStart (c : ascii) : bool :=
  Ascii.eqb c "*" || Ascii.eqb c "+" || Ascii.eqb c "?".

(** An assertion takes no quantifier. *)
Definition assertion (r : regex) (t : str) (n : nat) : Parse :=
  match t with
  | c :: _ =>
    if isQuantifierStart c then PSyntaxError
    else if Ascii.eqb c "{" then PUnsupported
    else POk r t n
  | [] => POk r t n
  end.

Definition close_group (wrap : regex -> regex) (p : Parse) : Parse :=
  match p with
  | POk r (c :: t) n =>
    if Ascii.eqb c ")" then quantified (wrap r) t n else PSyntaxError
  | POk _ [] _ => PSyntaxError
  | other => other
  end.

(** Recursive descent over Disjunction, Alternative and Term; groups are
    numbered by their opening parenthesis, from the left. *)
Fixpoint parse_disjunction (fuel : nat) (s : str) (n : nat) : Parse :=
  match fuel with
  | O => PUnsupported
  | S f =>
    match parse_alternative f s n with
    | POk r1 (c :: s') n' =>
      if Ascii.eqb c "|" then
        match parse_disjunction f s' n' with
        | POk r2 s'' n'' => POk (Alt r1 r2) s'' n''
        | other => other
        end
      else POk r1 (c :: s') n'
    | other => other
    end
  end
with parse_alternative (fuel : nat) (s : str) (n : nat) : Parse :=
  match fuel with
  | O => PUnsupported
  | S f =>
    match s with
    | [] => POk Empty [] n
    | c :: _ =>
      if Ascii.eqb c "|" || Ascii.eqb c ")" then POk Empty s n
      else
        match parse_term f s n with
        | POk r s' n' =>
          match parse_alternative f s' n' with
          | POk r2 s'' n'' => POk (mkSeq r r2) s'' n''
          | other => other
          end
        | other => other
        end
    end
  end
with parse_term (fuel : nat) (s : str) (n : nat) : Parse :=
  match fuel with
  | O => PUnsupported
  | S f =>
    match s with
    | [] => PSyntaxError
    | c :: t =>
      if Ascii.eqb c "(" then
        if starts_with "?" t then
          if starts_with ":" (tl t)
          then close_group (fun r => r) (parse_disjunction f (tl (tl t)) n)
          else PUnsupported
        else close_group (Group (S n)) (parse_disjunction f t (S n))
      else if Ascii.eqb c "[" then
        match parse_class_items (S (length t))
                (if starts_with "^" t then tl t else t) with
        | CPOk items t' => quantified (Cls (starts_with "^" t) items) t' n
        | CPSyntaxError => PSyntaxError
        | CPUnsupported => PUnsupported
        end
      else if Ascii.eqb c "\" then
        match t with
        | [] => PSyntaxError
        | d :: t' =>
          match escape_atom false d with
          | AChar x => quantified (Chr x) t' n
          | ASet items => quantified (Cls false items) t' n
          | ABad => PSyntaxError
          | ABeyond => PUnsupported
          end
        end
      else if isQuantifierStart c then PSyntaxError
      else if Ascii.eqb c "{" then PUnsupported
      else if Ascii.eqb c "." then quantified Dot t n
      else if Ascii.eqb c "^" then assertion Bol t n
      else if Ascii.eqb c "$" then assertion Eol t n
      else quantified (Chr c) t n
    end
  end.

Definition no_flags : Flags :=
  {| global := false; ignoreCase := false; multiline := false; dotAll := false |}.

Fixpoint parse_flags (s : str) (fl : Flags) : Completion Flags :=
  match s with
  | [] => Normal fl
  | c :: t =>
    if Ascii.eqb c "g" then
      if global fl then ThrowSyntaxError
      else parse_flags t {| global := true; ignoreCase := ignoreCase fl;
                            multiline := multiline fl; dotAll := dotAll fl |}
    else if Ascii.eqb c "i" then
      if ignoreCase fl then ThrowSyntaxError
      else parse_flags t {| global := global fl; ignoreCase := true;
                            multiline := multiline fl; dotAll := dotAll fl |}
    else if Ascii.eqb c "m" then
      if multiline fl then ThrowSyntaxError
      else parse_flags t {| global := global fl; ignoreCase := ignoreCase fl;
                            multiline := true; dotAll := dotAll fl |}
    else if Ascii.eqb c "s" then
      if dotAll fl then ThrowSyntaxError
      else parse_flags t {| global := global fl; ignoreCase := ignoreCase fl;
                            multiline := multiline fl; dotAll := true |}
    else if existsb (Ascii.eqb c) (lit "duvy") then Unmodelled
    else ThrowSyntaxError
  end.

(** [new RegExp(pattern, flags)] *)
Definition new_RegExp (pattern flags : str) : Completion RegExpObj :=
  match parse_flags flags no_flags with
  | Normal fl =>
    match parse_disjunction (3 * S (length pattern)) pattern 0 with
    | POk r [] n =>
      Normal {| re_pattern := r; re_groups := n; re_flags := fl |}
    | POk _ (_ :: _) _ => ThrowSyntaxError
    | PSyntaxError => ThrowSyntaxError
    | PUnsupported => Unmodelled
    end
  | ThrowSyntaxError => ThrowSyntaxError
  | Unmodelled => Unmodelled
  end.

End RegExp.
Import RegExp.

(* ================================================================== *)
(** * The string helpers of [src/utils.ts] *)
(* ================================================================== *)

Module Utils.

Definition flags_g : Flags :=
  {| global := true; ignoreCase := false; multiline := false; dotAll := false |}.

(** The literal of [getVoiceName]: an opening parenthesis, [.*], a closing
    parenthesis; flag g. *)
Definition re_parenthesized : RegExpObj :=
  {| re_pattern := Seq (Chr "(") (Seq (Star Dot) (Chr ")"));
     re_groups := 0; re_flags := flags_g |}.

(** The literal of [handleTextFormat]: [^], a slash, the group of [.*], a
    slash, [.*]; flag g. *)
Definition re_rule : RegExpObj :=
  {| re_pattern :=
       Seq Bol (Seq (Chr "/")
                 (Seq (Group 1 (Star Dot)) (Seq (Chr "/") (Star Dot))));
     re_groups := 1; re_flags := flags_g |}.

(** The literal of [getAudioFormatType]: the group of [.*] and a hyphen;
    flag g. *)
Definition re_to_dash : RegExpObj :=
  {| re_pattern := Group 1 (Seq (Star Dot) (Chr "-"));
     re_groups := 1; re_flags := flags_g |}.

(** [voice.replace(re_parenthesized, '')] *)
Definition getVoiceName (voice : str) : str :=
  String_replace voice re_parenthesized [].

(** [text && rule
      ? text.replace(new RegExp(rule.replace(re_rule, '$1'), 'gi'), ' ')
      : text] *)
Definition handleTextFormat (text rule : str) : Completion str :=
  if truthy text && truthy rule then
    match new_RegExp (String_replace rule re_rule (lit "$1")) (lit "gi") with
    | Normal re => Normal (String_replace text re (lit " "))
    | ThrowSyntaxError => ThrowSyntaxError
    | Unmodelled => Unmodelled
    end
  else Normal text.

(** [audioFormat.replace(re_to_dash, '').toLowerCase() === 'mp3'
      ? 'mp3' : 'wav'] *)
Definition getAudioFormatType (audioFormat : str) : str :=
  if str_eqb (toLowerCase (String_replace audioFormat re_to_dash []))
             (lit "mp3")
  then lit "mp3" else lit "wav".

(** ** [getDefaultFiletime] *)

(** What the function reads of [new Date()]: the local-time fields of the
    wall clock at the call. *)
Record Date := {
  getFullYear : Z;
  getMonth : Z;
  getDate : Z;
  getHours : Z;
  getMinutes : Z;
  getSeconds : Z
}.

(** The ranges of the getters of a valid Date. *)
Definition valid_date (d : Date) : Prop :=
  (0 <= getMonth d <= 11 /\ 1 <= getDate d <= 31 /\ 0 <= getHours d <= 23
   /\ 0 <= getMinutes d <= 59 /\ 0 <= getSeconds d <= 59)%Z.

(** [formatTimeNumber] returns a number or a string. *)
Inductive NumberOrString :=
| Num (n : Z)
| Str (s : str).

(** A value inside a template literal. *)
Definition interpolate (v : NumberOrString) : str :=
  match v with
  | Num n => Number_toString n
  | Str s => s
  end.

(** [number > 9 ? number : `0${number}`] *)
Definition formatTimeNumber (number : Z) : NumberOrString :=
  if (number >? 9)%Z then Num number
  else Str (lit "0" ++ Number_toString number).

Definition getDefaultFiletime (date : Date) : str :=
  let year := getFullYear date in
  let month := formatTimeNumber (getMonth date + 1) in
  let day := formatTimeNumber (getDate date) in
  let hour := formatTimeNumber (getHours date) in
  let minutes := formatTimeNumber (getMinutes date) in
  let seconds := formatTimeNumber (getSeconds date) in
  Number_toString year ++ interpolate month ++ interpolate day
    ++ interpolate hour ++ interpolate minutes ++ interpolate seconds.

(** ** [getSelectedText] *)

Record EditorPosition := { line : nat; ch : nat }.

(** The fields [from] and [to] of an [EditorRange]. *)
Record EditorRange := { range_from : EditorPosition; range_to : EditorPosition }.

(** The queries of the host's [Editor] that the function uses. *)
Record Editor := {
  getSelection : str;
  getCursor : EditorPosition;
  lastLine : nat;
  getLine : nat -> str;
  wordAt : EditorPosition -> option EditorRange;
  getRange : EditorPosition -> EditorPosition -> str
}.

(** Modelled from the spec: the type [Text2AudioSettings["readBeforeOrAfter"]]
    of [./type], which is not among the sources: the read-scope, one of
    "before", "after" and "off". *)
Inductive ReadScope := before | after | off.

Definition getSelectedText (readBeforeOrAfter : ReadScope)
    (editor : option Editor) : str :=
  match editor with
  | Some editor =>
    let content := getSelection editor in
    let content :=
      match readBeforeOrAfter with
      | off => content
      | _ =>
        let range :=
          match readBeforeOrAfter with
          | after =>
            let lastLineNumber := lastLine editor in
            let defaultToValue :=
              {| line := lastLineNumber;
                 ch := length (getLine editor lastLineNumber) |} in
            let lastWordPosition := wordAt editor defaultToValue in
            (getCursor editor,
             match lastWordPosition with
             | Some word => range_to word
             | None => defaultToValue
             end)
          | _ => ({| line := 0; ch := 0 |}, getCursor editor)
          end in
        if truthy content then content
        else getRange editor (fst range) (snd range)
      end in
    trim content
  | None => []
  end.

End Utils.
Import Utils.

(* ================================================================== *)
(** * The synthesis lifecycle: [generateVoice] *)
(* ================================================================== *)

Module Lifecycle.

(** ** Values *)

(** [sdk.ResultReason]: the member the function compares with, and the
    other members of the SDK's enumeration by their number. *)
Inductive ResultReason :=
| SynthesizingAudioCompleted
| OtherReason (n : nat).

(** [result.reason === sdk.ResultReason.SynthesizingAudioCompleted] *)
Definition ResultReason_eqb (a b : ResultReason) : bool :=
  match a, b with
  | SynthesizingAudioCompleted, SynthesizingAudioCompleted => true
  | OtherReason n, OtherReason m => Nat.eqb n m
  | _, _ => false
  end.

(** [sdk.AudioConfig]: the speaker, or a file to write. *)
Inductive AudioConfig :=
| fromSpeakerOutput
| fromAudioFileOutput (fileName : str).

Record SpeechConfig := {
  subscriptionKey : str;
  serviceRegion : str;
  speechSynthesisVoiceName : str;
  speechSynthesisOutputFormat : option str
}.

(** A [sdk.SpeechSynthesizer] object: its identity and what it was built
    from. *)
Record SpeechSynthesizer := {
  synth_id : nat;
  synth_speechConfig : SpeechConfig;
  synth_audioConfig : AudioConfig
}.

(** The types of [type] and [lang] in the signature of [generateVoice]. *)
Inductive Mode := save | play.
Inductive Lang := zh | en.

(** Modelled from the spec: the type [MessageType] of [./type], which is
    not among the sources: the severity tag of a notice, "success" or
    "error". *)
Inductive MessageType := success | error.

(** The argument of [generateVoice].  [speed] is the Number by its
    ToString rendering; [callback] is the identity of the caller's
    function, if one is supplied. *)
Record Config := {
  filename : option str;
  text : option str;
  key : option str;
  region : option str;
  filePath : option str;
  voice : option str;
  audioFormat : option str;
  audioFormatType : option str;
  regionCode : option str;
  type : Mode;
  lang : Lang;
  speed : str;
  callback : option nat
}.

(** The messages of [LANGS[lang].tipMessage] that the function reads. *)
Record LangSettings := {
  tipMessage_success_synthesis : str;
  tipMessage_success_save : str;
  tipMessage_error_synthesis : str
}.

(** What the function takes from outside the repository's code: the
    table [LANGS] of [./constants], and for each call into the SDK whether
    it throws ([Some e], with [e] the rendering of the exception) or
    returns ([None]). *)
Class Host := {
  LANGS : Lang -> LangSettings;
  SpeechConfig_throws : str -> str -> option str;
  SpeakerOutput_throws : option str;
  AudioFileOutput_throws : str -> option str;
  SpeechSynthesizer_throws : SpeechConfig -> AudioConfig -> option str;
  speakSsmlAsync_throws : SpeechSynthesizer -> str -> option str
}.

(** The DocumentFragment built by [generateNoticeText]: one span. *)
Record NoticeFragment := {
  span_text : str;
  span_className : str
}.

(** Values a promise of the function settles with. *)
Inductive JsValue :=
| VBool (b : bool)
| VError (e : str).

Inductive PromiseState :=
| Pending
| Fulfilled (v : JsValue)
| Rejected (v : JsValue).

(** The two functions handed to [speakSsmlAsync], by the variables they
    close over. *)
Record Request := {
  req_synthesizer : nat;
  req_ssml : str;
  req_promise : nat;
  req_type : Mode;
  req_audioFile : str;
  req_langSettings : LangSettings;
  req_callback : option nat
}.

(** The observable effects, in the order they happen. *)
Inductive Event :=
| EPause
| EClearAudioConfig
| ESetAudioConfig (c : AudioConfig)
| ESetSpeechSynthesizer (id : nat)
| EClearSynthesizer
| ENewSynthesizer (id : nat)
| ECloseSynthesizer (id : nat)
| ESpeakSsml (id : nat) (ssml : str)
| EThrown (e : str)
| ENotice (n : NoticeFragment)
| EResolve (p : nat) (v : JsValue)
| EReject (p : nat) (v : JsValue)
| ECallback (cb : nat) (args : list AudioConfig).

(** The shared state of [./store]. *)
Record Store := {
  store_audioConfig : option AudioConfig;
  store_synthesizer : option SpeechSynthesizer;
  store_playing : bool
}.

Record World := {
  store : Store;
  next_id : nat;
  promises : list PromiseState;
  pending : list Request;
  trace : list Event
}.

(** ** A state and exception monad *)

Inductive Result (A : Type) :=
| Ok (a : A)
| Exn (e : str).
Arguments Ok {A} a.
Arguments Exn {A} e.

Definition M (A : Type) : Type := World -> Result A * World.

Definition ret {A} (a : A) : M A := fun w => (Ok a, w).

Definition bind {A B} (m : M A) (f : A -> M B) : M B :=
  fun w =>
    match m w with
    | (Ok a, w') => f a w'
    | (Exn e, w') => (Exn e, w')
    end.

Definition try_catch {A} (body : M A) (handler : str -> M A) : M A :=
  fun w =>
    match body w with
    | (Ok a, w') => (Ok a, w')
    | (Exn e, w') => handler e w'
    end.

Notation "x <- m ;; k" := (bind m (fun x => k))
  (at level 61, m at next level, right associativity).
Notation "m ;; k" := (bind m (fun _ => k))
  (at level 61, right associativity).

Definition emit (e : Event) : M unit :=
  fun w =>
    (Ok tt, {| store := store w; next_id := next_id w; promises := promises w;
               pending := pending w; trace := trace w ++ [e] |}).

Definition get_store : M Store := fun w => (Ok (store w), w).

Definition put_store (s : Store) : M unit :=
  fun w =>
    (Ok tt, {| store := s; next_id := next_id w; promises := promises w;
               pending := pending w; trace := trace w |}).

(** A call into the SDK throws when the host says so. *)
Definition sdk_call (throws : option str) : M unit :=
  match throws with
  | Some e => emit (EThrown e) ;; (fun w => (Exn e, w))
  | None => ret tt
  end.

(** ** The actions of [./store] *)

(** Modelled from the spec: [actions.pause] of [./store], which is not
    among the sources.  The specification has the start of a request
    cancel any existing playback and synthesis: the audio is stopped and
    the previous synthesizer handle is released.  Of the two actions that
    [generateVoice] calls at its start, this is the one that does so: the
    registered handle, if there is one, is closed, and the shared state
    holds none. *)
Definition actions_pause : M unit :=
  emit EPause ;;
  s <- get_store ;;
  match store_synthesizer s with
  | Some h => emit (ECloseSynthesizer (synth_id h))
  | None => ret tt
  end ;;
  put_store {| store_audioConfig := store_audioConfig s;
               store_synthesizer := None;
               store_playing := false |}.

(** Modelled from the spec: [actions.clearAudioConfig] of [./store]; it
    clears the shared audio-config state. *)
Definition actions_clearAudioConfig : M unit :=
  emit EClearAudioConfig ;;
  s <- get_store ;;
  put_store {| store_audioConfig := None;
               store_synthesizer := store_synthesizer s;
               store_playing := store_playing s |}.

(** Modelled from the spec: [actions.setAudioConfig] of [./store]; it
    keeps the audio configuration of a playback in the shared state. *)
Definition actions_setAudioConfig (c : AudioConfig) : M unit :=
  emit (ESetAudioConfig c) ;;
  s <- get_store ;;
  put_store {| store_audioConfig := Some c;
               store_synthesizer := store_synthesizer s;
               store_playing := store_playing s |}.

(** Modelled from the spec: [actions.setSpeechSynthesizer] of [./store];
    it registers the synthesizer handle in the shared state. *)
Definition actions_setSpeechSynthesizer (s' : SpeechSynthesizer) : M unit :=
  emit (ESetSpeechSynthesizer (synth_id s')) ;;
  s <- get_store ;;
  put_store {| store_audioConfig := store_audioConfig s;
               store_synthesizer := Some s';
               store_playing := store_playing s |}.

(** Modelled from the spec: [actions.clearsynthesizer] of [./store]; it
    releases the registered synthesizer handle: the handle is closed and
    the shared state holds none. *)
Definition actions_clearsynthesizer : M unit :=
  emit EClearSynthesizer ;;
  s <- get_store ;;
  match store_synthesizer s with
  | Some h => emit (ECloseSynthesizer (synth_id h))
  | None => ret tt
  end ;;
  put_store {| store_audioConfig := store_audioConfig s;
               store_synthesizer := None;
               store_playing := store_playing s |}.

(** ** The SDK *)

Definition SpeechConfig_fromSubscription `{Host} (k r : str) : M SpeechConfig :=
  sdk_call (SpeechConfig_throws k r) ;;
  ret {| subscriptionKey := k; serviceRegion := r;
         speechSynthesisVoiceName := []; speechSynthesisOutputFormat := None |}.

Definition AudioConfig_fromSpeakerOutput `{Host} : M AudioConfig :=
  sdk_call SpeakerOutput_throws ;;
  ret fromSpeakerOutput.

Definition AudioConfig_fromAudioFileOutput `{Host} (f : str) : M AudioConfig :=
  sdk_call (AudioFileOutput_throws f) ;;
  ret (fromAudioFileOutput f).

(** [new sdk.SpeechSynthesizer(speechConfig, audioConfig)] *)
Definition new_SpeechSynthesizer `{Host} (sc : SpeechConfig) (ac : AudioConfig)
    : M SpeechSynthesizer :=
  sdk_call (SpeechSynthesizer_throws sc ac) ;;
  fun w =>
    (Ok {| synth_id := next_id w; synth_speechConfig := sc;
           synth_audioConfig := ac |},
     {| store := store w; next_id := S (next_id w); promises := promises w;
        pending := pending w;
        trace := trace w ++ [ENewSynthesizer (next_id w)] |}).

(** [synthesizer.speakSsmlAsync(ssml, cb, err)]: the request is under way
    and one of the two functions is called later. *)
Definition speakSsmlAsync `{Host} (s : SpeechSynthesizer) (ssml : str)
    (req : Request) : M unit :=
  sdk_call (speakSsmlAsync_throws s ssml) ;;
  emit (ESpeakSsml (synth_id s) ssml) ;;
  fun w =>
    (Ok tt, {| store := store w; next_id := next_id w; promises := promises w;
               pending := pending w ++ [req]; trace := trace w |}).

(** ** Promises *)

Definition promise_state (w : World) (p : nat) : PromiseState :=
  nth p (promises w) Pending.

Fixpoint set_nth {A} (n : nat) (x : A) (l : list A) : list A :=
  match l, n with
  | [], _ => []
  | _ :: t, O => x :: t
  | y :: t, S n' => y :: set_nth n' x t
  end.

(** A promise settles once: later calls of its resolving functions change
    nothing. *)
Definition settle (p : nat) (s : PromiseState) : M unit :=
  fun w =>
    (Ok tt,
     match promise_state w p with
     | Pending =>
       {| store := store w; next_id := next_id w;
          promises := set_nth p s (promises w);
          pending := pending w; trace := trace w |}
     | _ => w
     end).

Definition resolve (p : nat) (v : JsValue) : M unit :=
  emit (EResolve p v) ;; settle p (Fulfilled v).

Definition reject (p : nat) (v : JsValue) : M unit :=
  emit (EReject p v) ;; settle p (Rejected v).

(** [new Promise(executor)]: the executor runs at once; an exception that
    leaves it rejects the promise. *)
Definition new_Promise (executor : nat -> M unit) : M nat :=
  fun w =>
    let p := length (promises w) in
    let w0 := {| store := store w; next_id := next_id w;
                 promises := promises w ++ [Pending];
                 pending := pending w; trace := trace w |} in
    match executor p w0 with
    | (Ok _, w') => (Ok p, w')
    | (Exn e, w') => (Ok p, snd (reject p (VError e) w'))
    end.

(** ** Notices *)

Definition MessageType_name (t : MessageType) : str :=
  match t with
  | success => lit "success"
  | error => lit "error"
  end.

(** [generateNoticeText(message, messageType)] *)
Definition generateNoticeText (message : str) (messageType : MessageType)
    : NoticeFragment :=
  {| span_text := message;
     span_className := lit "ob-t2v-" ++ MessageType_name messageType |}.

(** [generateNotice().setMessage(fragment)] *)
Definition generateNotice_setMessage (n : NoticeFragment) : M unit :=
  emit (ENotice n).

(** ** [generateVoice] *)

(** A value of type [string | undefined] inside a template literal. *)
Definition interpolate_opt (v : option str) : str :=
  match v with
  | Some s => s
  | None => lit "undefined"
  end.

(** [v || ''] *)
Definition or_empty (v : option str) : str :=
  match v with
  | Some s => s
  | None => []
  end.

Definition truthy_opt (v : option str) : bool :=
  match v with
  | Some s => truthy s
  | None => false
  end.

Definition tabs (n : nat) : str := repeat TAB n.

(** The SSML document, or the empty string without a text. *)
Definition ssmlContent (config : Config) : str :=
  if truthy_opt (text config) then
    lit "<speak version=" ++ [dquote] ++ lit "1.0" ++ [dquote]
    ++ lit " xmlns=" ++ [dquote]
    ++ lit "http://www.w3.org/2001/10/synthesis" ++ [dquote]
    ++ lit " xml:lang=" ++ [dquote] ++ interpolate_opt (regionCode config)
    ++ [dquote] ++ lit ">" ++ [LF]
    ++ tabs 4 ++ lit "<voice name=" ++ [dquote]
    ++ interpolate_opt (voice config) ++ [dquote] ++ lit ">" ++ [LF]
    ++ tabs 5 ++ lit "<prosody rate=" ++ [dquote] ++ speed config
    ++ [dquote] ++ lit ">" ++ [LF]
    ++ tabs 6 ++ or_empty (text config) ++ [LF]
    ++ tabs 5 ++ lit "</prosody>" ++ [LF]
    ++ tabs 4 ++ lit "</voice>" ++ [LF]
    ++ tabs 3 ++ lit "</speak>"
  else [].

(** [`${filePath}/${filename}.${audioFormatType}`] *)
Definition audioFile (config : Config) : str :=
  interpolate_opt (filePath config) ++ lit "/"
  ++ interpolate_opt (filename config) ++ lit "."
  ++ interpolate_opt (audioFormatType config).

Definition call_callback (cb : option nat) : M unit :=
  match cb with
  | Some f => emit (ECallback f [])
  | None => ret tt
  end.

(** [actions.clearsynthesizer(); callback && callback();] *)
Definition synthesizerClear (cb : option nat) : M unit :=
  actions_clearsynthesizer ;;
  call_callback cb.

(** The first function handed to [speakSsmlAsync]. *)
Definition on_result (req : Request) (reason : ResultReason) : M unit :=
  let langSettings := req_langSettings req in
  res <-
    (if ResultReason_eqb reason SynthesizingAudioCompleted then
       generateNotice_setMessage
         (generateNoticeText
            (tipMessage_success_synthesis langSettings ++ lit ". "
             ++ match req_type req with
                | save => (tipMessage_success_save langSettings ++ lit " ")
                          ++ req_audioFile req
                | play => []
                end)
            success) ;;
       ret true
     else
       generateNotice_setMessage
         (generateNoticeText (tipMessage_error_synthesis langSettings) error) ;;
       ret false) ;;
  (if res : bool then resolve (req_promise req) (VBool res)
   else reject (req_promise req) (VBool res)) ;;
  synthesizerClear (req_callback req).

(** The second function handed to [speakSsmlAsync]. *)
Definition on_error (req : Request) (err : str) : M unit :=
  generateNotice_setMessage (generateNoticeText err error) ;;
  synthesizerClear (req_callback req) ;;
  reject (req_promise req) (VBool false).

(** The executor of the promise that [generateVoice] returns. *)
Definition executor `{Host} (config : Config) (promise : nat) : M unit :=
  let langSettings := LANGS (lang config) in
  actions_pause ;;
  actions_clearAudioConfig ;;
  try_catch
    (let audioFile := audioFile config in
     speechConfig <-
       SpeechConfig_fromSubscription (or_empty (key config))
                                     (or_empty (region config)) ;;
     audioConfig <- AudioConfig_fromSpeakerOutput ;;
     audioConfig <-
       match type config with
       | save => AudioConfig_fromAudioFileOutput audioFile
       | play => actions_setAudioConfig audioConfig ;; ret audioConfig
       end ;;
     let speechConfig :=
       {| subscriptionKey := subscriptionKey speechConfig;
          serviceRegion := serviceRegion speechConfig;
          speechSynthesisVoiceName := or_empty (voice config);
          speechSynthesisOutputFormat := audioFormat config |} in
     synthesizer <- new_SpeechSynthesizer speechConfig audioConfig ;;
     actions_setSpeechSynthesizer synthesizer ;;
     let ssmlContent := ssmlContent config in
     if truthy ssmlContent then
       speakSsmlAsync synthesizer ssmlContent
         {| req_synthesizer := synth_id synthesizer;
            req_ssml := ssmlContent;
            req_promise := promise;
            req_type := type config;
            req_audioFile := audioFile;
            req_langSettings := langSettings;
            req_callback := callback config |}
     else ret tt)
    (fun e =>
       generateNotice_setMessage (generateNoticeText e error) ;;
       synthesizerClear (callback config) ;;
       reject promise (VBool false)).

(** [generateVoice(config)]: the promise it returns.  (The function is
    [async] and returns the promise it builds, so the caller's promise
    settles as this one does.) *)
Definition generateVoice `{Host} (config : Config) : M nat :=
  new_Promise (executor config).

(** ** The SDK answers *)

(** What the SDK reports for a request under way: the first function with
    a result, or the second with an error. *)
Inductive Outcome :=
| Completed (reason : ResultReason)
| Failed (err : str).

Definition answer (req : Request) (o : Outcome) : M unit :=
  match o with
  | Completed reason => on_result req reason
  | Failed err => on_error req err
  end.

(** The SDK answers the [n]-th request under way, if there is one. *)
Definition deliver (n : nat) (o : Outcome) : M unit :=
  fun w =>
    match nth_error (pending w) n with
    | Some req =>
      answer req o {| store := store w; next_id := next_id w;
                      promises := promises w;
                      pending := firstn n (pending w) ++ skipn (S n) (pending w);
                      trace := trace w |}
    | None => (Ok tt, w)
    end.

(** One invocation run to its end: the call, then the SDK's answer to the
    request the call has started, if it has started one (the request is
    then the latest one under way). *)
Definition invocation `{Host} (config : Config) (o : Outcome) : M nat :=
  fun w =>
    (p <- generateVoice config ;;
     deliver (length (pending w)) o ;;
     ret p) w.

(** ** Reading a trace *)

(** The synthesizer handles constructed and not closed. *)
Fixpoint live_handles_from (live : list nat) (t : list Event) : list nat :=
  match t with
  | [] => live
  | ENewSynthesizer id :: t' => live_handles_from (live ++ [id]) t'
  | ECloseSynthesizer id :: t' =>
    live_handles_from (filter (fun x => negb (Nat.eqb x id)) live) t'
  | _ :: t' => live_handles_from live t'
  end.

Definition live_handles (t : list Event) : list nat := live_handles_from [] t.

(** The exception thrown by a call into the SDK, if any. *)
Fixpoint thrown (t : list Event) : option str :=
  match t with
  | [] => None
  | EThrown e :: _ => Some e
  | _ :: t' => thrown t'
  end.

Fixpoint notices (t : list Event) : list NoticeFragment :=
  match t with
  | [] => []
  | ENotice n :: t' => n :: notices t'
  | _ :: t' => notices t'
  end.

Definition is_speak (e : Event) : bool :=
  match e with
  | ESpeakSsml _ _ => true
  | _ => false
  end.

Definition is_clear (e : Event) : bool :=
  match e with
  | EClearSynthesizer => true
  | _ => false
  end.

Definition is_callback (e : Event) : bool :=
  match e with
  | ECallback _ _ => true
  | _ => false
  end.

(** The events a world has seen since an earlier one. *)
Definition events_since (w w' : World) : list Event :=
  skipn (length (trace w)) (trace w').

End Lifecycle.
Import Lifecycle.

(* ================================================================== *)
(** * Notions used by the statements and their proofs *)
(* ================================================================== *)

Module Props.

(** A string without line terminators. *)
Definition single_line (s : str) : Prop :=
  forall x, In x s -> isLineTerminator x = false.

(** Where a line stops: at the end of the input or before a line
    terminator. *)
Definition line_stop (rest : str) : Prop :=
  match rest with
  | [] => True
  | x :: _ => isLineTerminator x = true
  end.

(** The positions at which a greedy [.*] can stop inside a line, the
    longest first: what the backtracking of the loop tries, in its
    order. *)
Fixpoint try_splits (k : K) (pre line rest : str) (caps : list (nat * str))
    : option MState :=
  match line with
  | [] => k {| consumed := pre; remaining := rest; captures := caps |}
  | x :: l =>
    match try_splits k (x :: pre) l rest caps with
    | Some res => Some res
    | None =>
      k {| consumed := pre; remaining := x :: l ++ rest; captures := caps |}
    end
  end.

(** A continuation that fails unless the next code unit is [c]. *)
Definition needs (c : ascii) (k : K) : Prop :=
  forall st, starts_with c (remaining st) = false -> k st = None.

(** The body of the loop of [.*]. *)
Definition dot_body (fl : Flags) : K -> K :=
  fun k' st' => rmatch fl Dot k' (clear_captures (groups Dot) st').

(** A match found after skipping [u]. *)
Definition shift (u : str) (m : option MatchResult) : option MatchResult :=
  match m with
  | Some m =>
    Some {| skipped := u ++ skipped m; matched := matched m; mend := mend m |}
  | None => None
  end.

(** What follows the group in the pattern of [handleTextFormat]. *)
Definition rule_tail (st1 : MState) : K :=
  fun st' =>
    rmatch flags_g (Seq (Chr "/") (Star Dot)) Some (set_capture 1 st1 st').

(** A rule written as a regular-expression literal: a slash, a pattern on
    one line, a slash, and flags, which are letters. *)
Definition rule_literal (rule p f : str) : Prop :=
  rule = lit "/" ++ p ++ lit "/" ++ f
  /\ single_line p
  /\ (forall c, In c f -> isAsciiLetter c = true).

(** A string that neither starts nor ends with a code unit that [trim]
    strips. *)
Definition trimmed (s : str) : Prop :=
  (forall c t, s = c :: t -> isTrimmable c = false)
  /\ (forall t c, s = t ++ [c] -> isTrimmable c = false).

(** The decimal digit of a number from 0 to 9. *)
Definition digit (z : Z) : ascii := ascii_of_nat (48 + Z.to_nat z).

Definition two_digits (n : Z) : str :=
  [digit (n / 10); digit (n mod 10)]%Z.

Definition four_digits (n : Z) : str :=
  [digit (n / 1000); digit (n / 100 mod 10); digit (n / 10 mod 10);
   digit (n mod 10)]%Z.

(** The part of a one-line string after its last hyphen (the whole string
    without a hyphen) reads "mp3", whatever the case of its letters. *)
Definition mp3_after_last_hyphen (s : str) : Prop :=
  single_line s
  /\ exists p t, s = p ++ t /\ toLowerCase t = lit "mp3"
                 /\ (p = [] \/ exists q, p = q ++ lit "-").

(** A string ends in "-mp3", whatever the case of its letters. *)
Definition ends_in_hyphen_mp3 (s : str) : Prop :=
  exists p t, s = p ++ t /\ toLowerCase t = lit "-mp3".

(** The live handles never exceed one while the events [t] happen. *)
Fixpoint at_most_one_along (live : list nat) (t : list Event) : bool :=
  (length live <=? 1)
  && match t with
     | [] => true
     | e :: t' => at_most_one_along (live_handles_from live [e]) t'
     end.

(** The events of the cleanup step for a given callback. *)
Definition callback_events (cb : option nat) : list Event :=
  match cb with
  | Some f => [ECallback f []]
  | None => []
  end.

(** The events before the release of the synthesizer handle, and those
    after it. *)
Fixpoint before_clear (t : list Event) : list Event :=
  match t with
  | [] => []
  | e :: t' => if is_clear e then [] else e :: before_clear t'
  end.

Fixpoint after_clear (t : list Event) : list Event :=
  match t with
  | [] => []
  | e :: t' => if is_clear e then t' else after_clear t'
  end.

Definition is_new (e : Event) : bool :=
  match e with
  | ENewSynthesizer _ => true
  | _ => false
  end.

(** The events before the construction of a synthesizer. *)
Fixpoint before_new (t : list Event) : list Event :=
  match t with
  | [] => []
  | e :: t' => if is_new e then [] else e :: before_new t'
  end.

(** A terminal path of an invocation: the setup has thrown, or there was a
    text to speak and the SDK has answered. *)
Definition terminal (config : Config) (ev : list Event) : Prop :=
  truthy_opt (text config) = true \/ thrown ev <> None.

(** The release of the registered synthesizer handle, if there is one. *)
Definition release_events (registered : option SpeechSynthesizer)
    : list Event :=
  match registered with
  | Some h => [ECloseSynthesizer (synth_id h)]
  | None => []
  end.

(** The handles that are live are those the store holds: the registered
    synthesizer, or none. *)
Definition consistent (w : World) : Prop :=
  live_handles (trace w)
  = match store_synthesizer (store w) with
    | Some h => [synth_id h]
    | None => []
    end.

(** The cleanup step has run among the events [ev] and has left the world
    [w']: the store holds no synthesizer and no handle is live; the handle
    was released once, and then the function [cb], if there is one, was
    called once with no argument, and not before. *)
Definition cleaned_up (cb : option nat) (w' : World) (ev : list Event)
    : Prop :=
  store_synthesizer (store w') = None
  /\ live_handles (trace w') = []
  /\ filter is_clear ev = [EClearSynthesizer]
  /\ filter is_callback (before_clear ev) = []
  /\ filter is_callback (after_clear ev) = callback_events cb.

(** What happens to the plugin, one thing after the other: a call of
    [generateVoice], or the answer of the SDK to the [n]-th request under
    way.  A schedule is a list of these, in any order. *)
Inductive Action :=
| Call (config : Config)
| Answer (n : nat) (o : Outcome).

Definition step `{Host} (a : Action) (w : World) : World :=
  match a with
  | Call config => snd (generateVoice config w)
  | Answer n o => snd (deliver n o w)
  end.

Definition run `{Host} (schedule : list Action) (w : World) : World :=
  fold_left (fun w a => step a w) schedule w.

(** ** Fixtures of the examples *)

Definition example_tips : LangSettings :=
  {| tipMessage_success_synthesis := lit "Synthesis succeeded";
     tipMessage_success_save := lit "Saved to";
     tipMessage_error_synthesis := lit "Synthesis failed" |}.

(** A host whose SDK never throws. *)
Definition example_host : Host :=
  {| LANGS := fun _ => example_tips;
     SpeechConfig_throws := fun _ _ => None;
     SpeakerOutput_throws := None;
     AudioFileOutput_throws := fun _ => None;
     SpeechSynthesizer_throws := fun _ _ => None;
     speakSsmlAsync_throws := fun _ _ => None |}.

(** A host whose SDK refuses an empty subscription key. *)
Definition strict_host : Host :=
  {| LANGS := fun _ => example_tips;
     SpeechConfig_throws :=
       fun k _ => if truthy k then None else Some (lit "Error: subscriptionKey");
     SpeakerOutput_throws := None;
     AudioFileOutput_throws := fun _ => None;
     SpeechSynthesizer_throws := fun _ _ => None;
     speakSsmlAsync_throws := fun _ _ => None |}.

(** The state of a plugin that has just been loaded. *)
Definition fresh_world : World :=
  {| store := {| store_audioConfig := None; store_synthesizer := None;
                 store_playing := false |};
     next_id := 0; promises := []; pending := []; trace := [] |}.

(** The scenario of the specification: mode "save", file "note1" in
    "/out", type "mp3". *)
Definition note1_config : Config :=
  {| filename := Some (lit "note1"); text := Some (lit "Hello");
     key := Some (lit "key"); region := Some (lit "eastus");
     filePath := Some (lit "/out"); voice := Some (lit "en-US-JennyNeural");
     audioFormat := Some (lit "audio-16khz-32kbitrate-mono-mp3");
     audioFormatType := Some (lit "mp3"); regionCode := Some (lit "en-US");
     type := save; lang := en; speed := lit "1"; callback := Some 7 |}.

(** A call with a key and a voice, to play a text that is absent. *)
Definition no_text_config : Config :=
  {| filename := None; text := None;
     key := Some (lit "key"); region := Some (lit "eastus");
     filePath := None; voice := Some (lit "en-US-JennyNeural");
     audioFormat := Some (lit "audio-16khz-32kbitrate-mono-mp3");
     audioFormatType := Some (lit "mp3"); regionCode := Some (lit "en-US");
     type := play; lang := en; speed := lit "1"; callback := None |}.

(** A call without a text and without a key. *)
Definition empty_config : Config :=
  {| filename := None; text := None; key := None; region := None;
     filePath := None; voice := None; audioFormat := None;
     audioFormatType := None; regionCode := None;
     type := play; lang := en; speed := lit "1"; callback := None |}.

(** A valid date: 3 November 2026, 07:05:09. *)
Definition example_date : Date :=
  {| getFullYear := 2026; getMonth := 10; getDate := 3; getHours := 7;
     getMinutes := 5; getSeconds := 9 |}.

(** An editor on a document of one line, with the cursor in it and no
    selection. *)
Definition example_editor : Editor :=
  {| getSelection := [];
     getCursor := {| line := 0; ch := 5 |};
     lastLine := 0;
     getLine := fun _ => lit "hello world";
     wordAt := fun _ => Some {| range_from := {| line := 0; ch := 6 |};
                                range_to := {| line := 0; ch := 11 |} |};
     getRange := fun a b =>
       firstn (ch b - ch a) (skipn (ch a) (lit "hello world")) |}.

End Props.
Import Props.

(* ================================================================== *)
(** * Local data and the table of voices *)
(* ================================================================== *)

Module LocalData.

(** [window.localStorage]: the string kept under each key, if any. *)
Definition LocalStorage := str -> option str.

(** [localStorage.setItem(key, value)] *)
Definition setItem (key value : str) (s : LocalStorage) : LocalStorage :=
  fun k => if str_eqb k key then Some value else s k.

(** [localStorage.getItem(key)]: the string, or [null]. *)
Definition getItem (key : str) (s : LocalStorage) : option str := s key.

(** [setLocalData(key, value)]: the storage after the call. *)
Definition setLocalData (key value : str) (s : LocalStorage) : LocalStorage :=
  setItem key value s.

(** [localStorage.getItem(key) || ''] *)
Definition getLocalData (key : str) (s : LocalStorage) : str :=
  match getItem key s with
  | Some v => if truthy v then v else []
  | None => []
  end.

End LocalData.

Module Voices.

Section Table.

(** The table [LANGUAGES] of [./constants] is not among the sources: it
    is an argument of the function, and its entries are read through the
    two fields that the function uses.  [V] is what an entry holds under
    [voices], with ToBoolean of it. *)
Variable V : Type.
Variable V_truthy : V -> bool.

(** The fields of an entry of [LANGUAGES] that [getVoices] reads. *)
Record Language := { region : str; voices : V }.

(** [LANGUAGES.find((lang) => lang.region === region)?.voices || null],
    for the table [LANGUAGES] of [./constants]. *)
Definition getVoices (LANGUAGES : list Language) (region' : str) : option V :=
  match find (fun lang => str_eqb (region lang) region') LANGUAGES with
  | Some lang => if V_truthy (voices lang) then Some (voices lang) else None
  | None => None
  end.

End Table.

Arguments region {V} _.
Arguments voices {V} _.
Arguments getVoices {V} V_truthy LANGUAGES region'.

End Voices.

(* ================================================================== *)
(** * The earlier version of [getSelectedText] *)
(* ================================================================== *)

Module Earlier.

(** The type of [readBeforeOrAfter] in the earlier version of the file. *)
Inductive BeforeOrAfter := before | after.

(** [getSelectedText] as the earlier version of the file has it. *)
Definition getSelectedText (readBeforeOrAfter : BeforeOrAfter)
    (editor : option Editor) : str :=
  match editor with
  | Some editor =>
    let range :=
      match readBeforeOrAfter with
      | after =>
        let lastLineNumber := lastLine editor in
        let defaultToValue :=
          {| line := lastLineNumber;
             ch := length (getLine editor lastLineNumber) |} in
        let lastWordPosition := wordAt editor defaultToValue in
        (getCursor editor,
         match lastWordPosition with
         | Some word => range_to word
         | None => defaultToValue
         end)
      | before => ({| line := 0; ch := 0 |}, getCursor editor)
      end in
    trim (if truthy (getSelection editor) then getSelection editor
          else getRange editor (fst range) (snd range))
  | None => []
  end.

(** The scope of the later version that a scope of the earlier one
    names. *)
Definition later_scope (s : BeforeOrAfter) : ReadScope :=
  match s with
  | before => Utils.before
  | after => Utils.after
  end.

End Earlier.

(* ================================================================== *)
(** * The rows of the settings tab: [generateSettings] *)
(* ================================================================== *)

Module Settings.

(** A value of a property of [plugin.settings]: a string, a boolean, a
    Number by its ToString rendering, or [undefined] for a property that
    is absent. *)
Inductive Value :=
| VUndefined
| VString (s : str)
| VBoolean (b : bool)
| VNumber (rendering : str).

(** ToBoolean: the empty string, [false], the Numbers zero and NaN and
    [undefined] are falsy. *)
Definition ToBoolean (v : Value) : bool :=
  match v with
  | VUndefined => false
  | VString s => truthy s
  | VBoolean b => b
  | VNumber r => negb (str_eqb r (lit "0") || str_eqb r (lit "NaN"))
  end.

(** The object [plugin.settings], by its properties. *)
Definition SettingsObject := str -> Value.

(** [settings[key] = value] *)
Definition assign (key : str) (value : Value) (s : SettingsObject)
    : SettingsObject :=
  fun k => if str_eqb k key then value else s k.

(** The calls that leave the function: the [callback] of the descriptor
    and [plugin.saveSettings]. *)
Inductive Call :=
| callback_call (value : Value)
| saveSettings_call.

(** The argument [plugin] as the function uses it: its settings, and
    the calls made so far. *)
Record Plugin := {
  settings : SettingsObject;
  calls : list Call
}.

(** Modelled from the spec: the kinds of a setting descriptor, "text",
    "textArea", "select", "toggle" and "slider", which are the cases of
    the [switch]; [other] stands for every value of [type] that has no
    case. *)
Inductive Kind := text | textArea | select | toggle | slider | other.

(** The field [inputConfig] of a descriptor. *)
Record InputConfig := {
  placeholder : option str;
  callback : bool
}.

(** Modelled from the spec: the setting descriptor, of the type
    [SettingConfig] of [./type], which is not among the sources, by the
    fields that the function takes from it; [callback] and [isPassword]
    by their truthiness. *)
Record SettingConfig := {
  inputConfig : option InputConfig;
  desc : str;
  name : str;
  key : str;
  type : Kind;
  options : option (list (str * str));
  isPassword : bool
}.

(** The control that a row holds. *)
Inductive Control :=
| TextControl (area : bool) (placeholder : str) (value : Value)
| Dropdown (options : list (str * str)) (value : Value)
| Toggle (value : Value)
| Slider (min max step : str) (value : Value) (dynamicTooltip : bool).

(** A row of the settings tab, as the function leaves it: the [Setting]
    with its control, its class, the attribute [type] that the function
    has set on the input element, and the icon of its button; [None]
    where the function has set none or added none. *)
Record Row := {
  row_name : str;
  row_desc : str;
  control : option Control;
  row_class : option str;
  input_type : option str;
  button_icon : option str
}.

Definition keyHide (plugin : Plugin) : bool :=
  ToBoolean (settings plugin (lit "keyHide")).

(** [btn.setIcon(plugin.settings.keyHide ? 'eye' : 'eye-off')] *)
Definition handleIconSwitch (plugin : Plugin) (row : Row) : Row :=
  {| row_name := row_name row; row_desc := row_desc row;
     control := control row; row_class := row_class row;
     input_type := input_type row;
     button_icon := Some (if keyHide plugin then lit "eye" else lit "eye-off") |}.

(** [textEl && textEl.inputEl.setAttribute('type',
    plugin.settings.keyHide ? 'password' : 'text')]; [textEl] tells
    whether the variable holds the text component. *)
Definition handleInputTypeSwitch (plugin : Plugin) (textEl : bool) (row : Row)
    : Row :=
  if textEl then
    {| row_name := row_name row; row_desc := row_desc row;
       control := control row; row_class := row_class row;
       input_type :=
         Some (if keyHide plugin then lit "password" else lit "text");
       button_icon := button_icon row |}
  else row.

(** [plugin.settings[key] = value; await plugin.saveSettings()] *)
Definition handleSettingSave (key : str) (value : Value) (plugin : Plugin)
    : Plugin :=
  {| settings := assign key value (settings plugin);
     calls := calls plugin ++ [saveSettings_call] |}.

Definition with_control (c : Control) (row : Row) : Row :=
  {| row_name := row_name row; row_desc := row_desc row;
     control := Some c; row_class := row_class row;
     input_type := input_type row; button_icon := button_icon row |}.

Definition setClass (c : str) (row : Row) : Row :=
  {| row_name := row_name row; row_desc := row_desc row;
     control := control row; row_class := Some c;
     input_type := input_type row; button_icon := button_icon row |}.

(** The row that [generateSettings(container, plugin, config)] builds. *)
Definition generateSettings (plugin : Plugin) (config : SettingConfig) : Row :=
  let placeholder :=
    match inputConfig config with
    | Some i => placeholder i
    | None => None
    end in
  let settingEl :=
    {| row_name := name config; row_desc := desc config; control := None;
       row_class := None; input_type := None; button_icon := None |} in
  let textRow (area : bool) :=
    let settingEl :=
      with_control
        (TextControl area (or_empty placeholder)
                     (settings plugin (key config)))
        settingEl in
    let settingEl :=
      if isPassword config then handleInputTypeSwitch plugin true settingEl
      else settingEl in
    let settingEl :=
      if area then setClass (lit "ob-t2v-setting-textarea") settingEl
      else settingEl in
    if isPassword config then handleIconSwitch plugin settingEl
    else settingEl in
  match type config with
  | text => textRow false
  | textArea => textRow true
  | select =>
    with_control
      (Dropdown match options config with Some o => o | None => [] end
                (settings plugin (key config)))
      settingEl
  | toggle => with_control (Toggle (settings plugin (key config))) settingEl
  | slider =>
    with_control
      (Slider (lit "0.5") (lit "2") (lit "0.1")
              (settings plugin (lit "speed")) true)
      settingEl
  | other => settingEl
  end.

(** The function that the control of the row calls when the user changes
    its value. *)
Definition onChange (config : SettingConfig) (value : Value) (plugin : Plugin)
    : Plugin :=
  match type config with
  | text | textArea =>
    let callback :=
      match inputConfig config with
      | Some i => callback i
      | None => false
      end in
    let plugin :=
      if callback
      then {| settings := settings plugin;
              calls := calls plugin ++ [callback_call value] |}
      else plugin in
    handleSettingSave (key config) value plugin
  | select | toggle | slider => handleSettingSave (key config) value plugin
  | other => plugin
  end.

(** The function that the button of the row calls on a click.  The
    variable [textEl] of the row holds the text component exactly when the
    descriptor is a password field; [saved] tells whether the promise of
    [plugin.saveSettings()] is fulfilled: when it is rejected, what
    follows the [await] is not run. *)
Definition onClick (config : SettingConfig) (saved : bool)
    (st : Plugin * Row) : Plugin * Row :=
  let (plugin, row) := st in
  let textEl := isPassword config in
  let plugin :=
    {| settings :=
         assign (lit "keyHide") (VBoolean (negb (keyHide plugin)))
                (settings plugin);
       calls := calls plugin ++ [saveSettings_call] |} in
  if saved
  then (plugin,
        handleInputTypeSwitch plugin textEl (handleIconSwitch plugin row))
  else (plugin, row).

(** ** Reading a row *)

(** The value that the control of a row shows. *)
Definition shown (row : Row) : option Value :=
  match control row with
  | Some (TextControl _ _ v) | Some (Dropdown _ v) | Some (Toggle v)
  | Some (Slider _ _ _ v _) => Some v
  | None => None
  end.

(** The input of a row has the type "password" and its button the icon
    "eye"; or the type "text" and the icon "eye-off". *)
Definition masked (row : Row) : Prop :=
  input_type row = Some (lit "password") /\ button_icon row = Some (lit "eye").

Definition plain (row : Row) : Prop :=
  input_type row = Some (lit "text") /\ button_icon row = Some (lit "eye-off").

(** A row shows what the flag [keyHide] says. *)
Definition in_sync (plugin : Plugin) (row : Row) : Prop :=
  if keyHide plugin then masked row else plain row.

(** A descriptor of a password field. *)
Definition password_field (config : SettingConfig) : Prop :=
  isPassword config = true /\ (type config = text \/ type config = textArea).

(** [n] clicks on the button of a row, each saved. *)
Fixpoint clicks (config : SettingConfig) (n : nat) (st : Plugin * Row)
    : Plugin * Row :=
  match n with
  | O => st
  | S n' => clicks config n' (onClick config true st)
  end.

(** ** Fixtures of the examples *)

Definition example_plugin : Plugin :=
  {| settings :=
       assign (lit "keyHide") (VBoolean true)
         (assign (lit "speed") (VNumber (lit "1")) (fun _ => VUndefined));
     calls := [] |}.

(** The descriptor of a password field for the key of the subscription. *)
Definition key_field : SettingConfig :=
  {| inputConfig := Some {| placeholder := None; callback := true |};
     desc := lit "The key of the speech service"; name := lit "Key";
     key := lit "key"; type := text; options := None; isPassword := true |}.

(** The descriptor of a second password field. *)
Definition region_field : SettingConfig :=
  {| inputConfig := None; desc := []; name := lit "Region";
     key := lit "region"; type := text; options := None;
     isPassword := true |}.

End Settings.

(* ================================================================== *)
(** * Further notions used in the statements *)
(* ================================================================== *)

Module MoreProps.

(** A space before every code unit and one at the end: what replacing the
    empty match at every position by a space makes of a text. *)
Fixpoint spaced (t : str) : str :=
  match t with
  | [] => lit " "
  | c :: t' => " "%char :: c :: spaced t'
  end.

(** Every code unit of a string is one that [trim] strips. *)
Definition blank (s : str) : Prop :=
  Forall (fun c => isTrimmable c = true) s.

(** The first entry of a table for a region. *)
Definition first_for {V} (r : str) (table : list (Voices.Language V))
    (lang : Voices.Language V) : Prop :=
  exists a b, table = a ++ lang :: b
              /\ Voices.region lang = r
              /\ forall l, In l a -> Voices.region l <> r.

(** The ten digits of the month, day, hour, minutes and seconds. *)
Definition time_digits (d : Date) : str :=
  two_digits (getMonth d + 1) ++ two_digits (getDate d)
  ++ two_digits (getHours d) ++ two_digits (getMinutes d)
  ++ two_digits (getSeconds d).

(** [a < b] for two strings: the order of their code units, the first
    difference deciding, and a proper prefix coming first. *)
Fixpoint str_ltb (a b : str) : bool :=
  match a, b with
  | _, [] => false
  | [], _ :: _ => true
  | x :: a', y :: b' =>
    if code x <? code y then true
    else if code y <? code x then false
    else str_ltb a' b'
  end.

(** A date comes before another: the order of the years, then of the
    months, the days, the hours, the minutes and the seconds. *)
Definition earlier (d1 d2 : Date) : Prop :=
  (getFullYear d1 < getFullYear d2
   \/ getFullYear d1 = getFullYear d2
      /\ (getMonth d1 < getMonth d2
          \/ getMonth d1 = getMonth d2
             /\ (getDate d1 < getDate d2
                 \/ getDate d1 = getDate d2
                    /\ (getHours d1 < getHours d2
                        \/ getHours d1 = getHours d2
                           /\ (getMinutes d1 < getMinutes d2
                               \/ getMinutes d1 = getMinutes d2
                                  /\ getSeconds d1 < getSeconds d2)))))%Z.

(** A call of one of the two functions that settle a promise. *)
Definition is_settle (e : Event) : bool :=
  match e with
  | EResolve _ _ | EReject _ _ => true
  | _ => false
  end.

(** A call of [actions.setAudioConfig]. *)
Definition is_setAudio (e : Event) : bool :=
  match e with
  | ESetAudioConfig _ => true
  | _ => false
  end.

(** The release of a synthesizer. *)
Definition is_close (e : Event) : bool :=
  match e with
  | ECloseSynthesizer _ => true
  | _ => false
  end.

(** The events from the construction of a synthesizer on. *)
Fixpoint from_new (t : list Event) : list Event :=
  match t with
  | [] => []
  | e :: t' => if is_new e then e :: t' else from_new t'
  end.

(** What a call puts in the shared store for the playback, by its mode. *)
Definition audio_events (m : Mode) : list Event :=
  match m with
  | play => [ESetAudioConfig fromSpeakerOutput]
  | save => []
  end.

(** The synthesizer a call constructs. *)
Definition own_synthesizer (config : Config) (w : World) : SpeechSynthesizer :=
  {| synth_id := next_id w;
     synth_speechConfig :=
       {| subscriptionKey := or_empty (key config);
          serviceRegion := or_empty (region config);
          speechSynthesisVoiceName := or_empty (voice config);
          speechSynthesisOutputFormat := audioFormat config |};
     synth_audioConfig :=
       match type config with
       | save => fromAudioFileOutput (audioFile config)
       | play => fromSpeakerOutput
       end |}.

(** The request a call leaves with the SDK. *)
Definition own_request `{Host} (config : Config) (w : World) : Request :=
  {| req_synthesizer := next_id w;
     req_ssml := ssmlContent config;
     req_promise := length (promises w);
     req_type := type config;
     req_audioFile := audioFile config;
     req_langSettings := LANGS (lang config);
     req_callback := callback config |}.

(** The world after a call that has started a synthesis. *)
Definition started `{Host} (config : Config) (w : World) : World :=
  {| store :=
       {| store_audioConfig :=
            match type config with
            | save => None
            | play => Some fromSpeakerOutput
            end;
          store_synthesizer := Some (own_synthesizer config w);
          store_playing := false |};
     next_id := S (next_id w);
     promises := promises w ++ [Pending];
     pending := pending w ++ [own_request config w];
     trace :=
       trace w
       ++ EPause :: release_events (store_synthesizer (store w))
       ++ EClearAudioConfig :: audio_events (type config)
       ++ [ENewSynthesizer (next_id w); ESetSpeechSynthesizer (next_id w);
           ESpeakSsml (next_id w) (ssmlContent config)] |}.

End MoreProps.
Import MoreProps.

(* ================================================================== *)
(** * Facts about the matcher *)
(* ================================================================== *)

Lemma single_line_cons x l :
  single_line (x :: l) -> isLineTerminator x = false /\ single_line l.
Proof.
  intros H. split.
  - apply H. now left.
  - intros y Hy. apply H. now right.
Qed.

Lemma single_line_app a b :
  single_line (a ++ b) <-> single_line a /\ single_line b.
Proof.
  unfold single_line. split.
  - intros H. split; intros x Hx; apply H; apply in_or_app; auto.
  - intros [Ha Hb] x Hx. apply in_app_or in Hx. destruct Hx; auto.
Qed.

(** The greedy loop of [.*] on a line. *)
Lemma star_dot_line fl k line :
  dotAll fl = false ->
  forall pre rest caps fuel,
    single_line line -> line_stop rest -> length line < fuel ->
    star_loop (dot_body fl) k fuel
      {| consumed := pre; remaining := line ++ rest; captures := caps |}
    = try_splits k pre line rest caps.
Proof.
  intros Hdot. induction line as [|x l IH]; intros pre rest caps fuel Hl Hr Hf.
  - destruct fuel as [|f]; [lia|]. simpl.
    unfold dot_body. simpl.
    destruct rest as [|y rest']; [reflexivity|].
    simpl in Hr. rewrite Hr, Hdot. reflexivity.
  - destruct fuel as [|f]; [simpl in Hf; lia|].
    apply single_line_cons in Hl. destruct Hl as [Hx Hl].
    simpl. unfold dot_body at 1. simpl.
    rewrite Hx. simpl.
    unfold progress. simpl.
    replace (length (l ++ rest) <? S (length (l ++ rest))) with true
      by (symmetry; apply Nat.ltb_lt; lia).
    unfold advance. simpl.
    rewrite IH; [reflexivity|assumption..|simpl in Hf; lia].
Qed.

Lemma try_splits_none c k line :
  needs c k ->
  forall pre rest caps,
    ~ In c line -> starts_with c rest = false ->
    try_splits k pre line rest caps = None.
Proof.
  intros Hk. induction line as [|x l IH]; intros pre rest caps Hin Hr.
  - simpl. apply Hk. exact Hr.
  - simpl. rewrite IH; [|intros H; apply Hin; now right|exact Hr].
    apply Hk. simpl. apply Ascii.eqb_neq. intros ->. apply Hin. now left.
Qed.

(** Backtracking stops at the last [c] of the line when the continuation
    succeeds there. *)
Lemma try_splits_last c k a :
  needs c k ->
  forall pre b rest caps res,
    ~ In c b -> starts_with c rest = false ->
    k {| consumed := rev a ++ pre; remaining := c :: b ++ rest;
         captures := caps |} = Some res ->
    try_splits k pre (a ++ c :: b) rest caps = Some res.
Proof.
  intros Hk. induction a as [|x a IH]; intros pre b rest caps res Hb Hr Hres.
  - simpl in *. rewrite (try_splits_none c k b Hk); auto.
  - simpl. rewrite (IH (x :: pre) b rest caps res); auto.
    simpl in Hres. rewrite <- app_assoc in Hres. exact Hres.
Qed.

(** With a continuation that always succeeds, [.*] takes the whole line. *)
Lemma try_splits_all line :
  forall pre rest caps,
    try_splits Some pre line rest caps
    = Some {| consumed := rev line ++ pre; remaining := rest;
              captures := caps |}.
Proof.
  induction line as [|x l IH]; intros pre rest caps.
  - reflexivity.
  - simpl. rewrite IH. rewrite <- app_assoc. reflexivity.
Qed.

(** The leftmost match lies after a prefix at whose positions the pattern
    fails. *)

Lemma exec_from_skip fl r u :
  forall pre rest,
    (forall u1 x u2, u = u1 ++ x :: u2 ->
       rmatch fl r Some (start_state (rev u1 ++ pre) (x :: u2 ++ rest)) = None) ->
    exec_from fl r pre (u ++ rest) = shift u (exec_from fl r (rev u ++ pre) rest).
Proof.
  induction u as [|x u IH]; intros pre rest H.
  - simpl. destruct (exec_from fl r pre rest) as [[? ? ?]|]; reflexivity.
  - pose proof (H [] x u eq_refl) as H0. simpl in H0.
    simpl. rewrite H0. rewrite IH.
    + rewrite <- app_assoc. simpl.
      destruct (exec_from fl r (rev u ++ x :: pre) rest) as [[? ? ?]|]; reflexivity.
    + intros u1 y u2 E. specialize (H (x :: u1) y u2).
      simpl in H. rewrite <- app_assoc in H. apply H. now rewrite E.
Qed.

Lemma exec_from_none fl r s :
  forall pre,
    (forall u1 u2, s = u1 ++ u2 ->
       rmatch fl r Some (start_state (rev u1 ++ pre) u2) = None) ->
    exec_from fl r pre s = None.
Proof.
  induction s as [|x s IH]; intros pre H.
  - pose proof (H [] [] eq_refl) as H0. simpl in H0.
    simpl. now rewrite H0.
  - pose proof (H [] (x :: s) eq_refl) as H0. simpl in H0.
    simpl. rewrite H0. rewrite IH; [reflexivity|].
    intros u1 u2 E. specialize (H (x :: u1) u2). simpl in H.
    rewrite <- app_assoc in H. apply H. now rewrite E.
Qed.

(** Either [c] does not occur, or it has a last occurrence. *)
Lemma last_occurrence (c : ascii) (s : str) :
  ~ In c s \/ exists a b, s = a ++ c :: b /\ ~ In c b.
Proof.
  induction s as [|x s IH].
  - left. intros [].
  - destruct IH as [Hn | (a & b & -> & Hb)].
    + destruct (ascii_dec x c) as [->|Hx].
      * right. exists [], s. auto.
      * left. intros [H|H]; auto.
    + right. exists (x :: a), b. auto.
Qed.

(** Either a string is one line, or it has a first line terminator. *)
Lemma first_line (s : str) :
  single_line s \/
  exists l x rest, s = l ++ x :: rest /\ single_line l /\ isLineTerminator x = true.
Proof.
  induction s as [|x s IH].
  - left. intros x [].
  - destruct (isLineTerminator x) eqn:Hx.
    + right. exists [], x, s. repeat split; auto. intros y [].
    + destruct IH as [Hs | (l & y & rest & -> & Hl & Hy)].
      * left. intros y [<-|Hy]; auto.
      * right. exists (x :: l), y, rest. repeat split; auto.
        intros z [<-|Hz]; auto.
Qed.

(** The equations of the matcher, one per construct. *)
Lemma rmatch_Seq fl a b k st :
  rmatch fl (Seq a b) k st = rmatch fl a (fun st' => rmatch fl b k st') st.
Proof. reflexivity. Qed.

Lemma rmatch_Group fl n a k st :
  rmatch fl (Group n a) k st = rmatch fl a (fun st' => k (set_capture n st st')) st.
Proof. reflexivity. Qed.

Lemma rmatch_Chr_cons c k pre x xs caps :
  rmatch flags_g (Chr c) k
    {| consumed := pre; remaining := x :: xs; captures := caps |}
  = if Ascii.eqb c x
    then k {| consumed := x :: pre; remaining := xs; captures := caps |}
    else None.
Proof. reflexivity. Qed.

Lemma rmatch_star_dot fl k line pre rest caps :
  dotAll fl = false -> single_line line -> line_stop rest ->
  rmatch fl (Star Dot) k
    {| consumed := pre; remaining := line ++ rest; captures := caps |}
  = try_splits k pre line rest caps.
Proof.
  intros Hd Hl Hr.
  apply (star_dot_line fl k line Hd pre rest caps); auto.
  simpl. rewrite length_app. lia.
Qed.

Lemma needs_Chr c (k : K) : needs c (fun st => rmatch flags_g (Chr c) k st).
Proof.
  intros [pre [|x xs] caps] H; [reflexivity|].
  cbv beta. rewrite rmatch_Chr_cons. simpl in H.
  rewrite Ascii.eqb_sym, H. reflexivity.
Qed.

Lemma firstn_length_app {A} (m p : list A) :
  firstn (length (m ++ p) - length p) (m ++ p) = m.
Proof.
  rewrite length_app, Nat.add_sub.
  rewrite firstn_app, Nat.sub_diag, firstn_all. simpl. apply app_nil_r.
Qed.

Lemma matched_between_app p r c m r' c' :
  matched_between {| consumed := p; remaining := r; captures := c |}
                  {| consumed := m ++ p; remaining := r'; captures := c' |}
  = rev m.
Proof. unfold matched_between. simpl. now rewrite firstn_length_app. Qed.

(** ** The pattern of [getVoiceName] *)

Lemma parenthesized_miss pre x xs :
  x <> "("%char ->
  rmatch flags_g (re_pattern re_parenthesized) Some (start_state pre (x :: xs))
  = None.
Proof.
  intros Hx. unfold re_parenthesized, start_state. simpl re_pattern.
  rewrite rmatch_Seq, rmatch_Chr_cons.
  destruct (Ascii.eqb_spec "(" x) as [E|_]; [congruence|reflexivity].
Qed.

Lemma parenthesized_miss_nil pre :
  rmatch flags_g (re_pattern re_parenthesized) Some (start_state pre []) = None.
Proof. reflexivity. Qed.

Lemma parenthesized_hit pre mid :
  single_line mid ->
  rmatch flags_g (re_pattern re_parenthesized) Some
    (start_state pre ("("%char :: mid ++ [")"%char]))
  = Some {| consumed := (")"%char :: rev mid ++ ["("%char]) ++ pre;
            remaining := []; captures := [] |}.
Proof.
  intros Hm. unfold re_parenthesized, start_state. simpl re_pattern.
  rewrite rmatch_Seq, rmatch_Chr_cons. simpl Ascii.eqb. cbv iota.
  rewrite rmatch_Seq.
  rewrite <- (app_nil_r (mid ++ [")"%char])).
  rewrite rmatch_star_dot; [|reflexivity| |exact I].
  - apply (try_splits_last ")"); [apply needs_Chr|intros []|reflexivity|].
    simpl app. rewrite rmatch_Chr_cons. simpl Ascii.eqb. cbv iota.
    simpl. rewrite <- app_assoc. reflexivity.
  - apply single_line_app. split; [exact Hm|].
    intros x [<-|[]]. reflexivity.
Qed.

Lemma replace_loop_nil fuel re repl pre :
  exec_from (re_flags re) (re_pattern re) pre [] = None ->
  replace_loop fuel re repl pre [] = [].
Proof. intros H. destruct fuel; cbn [replace_loop]; [reflexivity|]. now rewrite H. Qed.

Lemma getVoiceName_suffix pre mid :
  ~ In "("%char pre -> single_line mid ->
  getVoiceName (pre ++ lit "(" ++ mid ++ lit ")") = pre.
Proof.
  intros Hpre Hmid. unfold getVoiceName, String_replace.
  change (global (re_flags re_parenthesized)) with true. cbv iota.
  cbn [replace_loop].
  change (re_flags re_parenthesized) with flags_g.
  rewrite exec_from_skip.
  - change (lit "(" ++ mid ++ lit ")") with ("("%char :: mid ++ [")"%char]).
    unfold exec_from at 1; fold exec_from.
    rewrite parenthesized_hit by assumption.
    unfold start_state at 1. rewrite matched_between_app.
    cbn [shift skipped matched mend consumed remaining].
    replace (rev (")"%char :: rev mid ++ ["("%char]))
      with ("("%char :: mid ++ [")"%char])
      by (simpl; rewrite rev_app_distr, rev_involutive; reflexivity).
    cbn [GetSubstitution]. rewrite replace_loop_nil by reflexivity.
    now rewrite !app_nil_r.
  - intros u1 x u2 E. apply parenthesized_miss.
    intros ->. apply Hpre. rewrite E. apply in_or_app. right. now left.
Qed.

Lemma getVoiceName_unchanged voice :
  ~ In "("%char voice -> getVoiceName voice = voice.
Proof.
  intros H. unfold getVoiceName, String_replace.
  change (global (re_flags re_parenthesized)) with true. cbv iota.
  cbn [replace_loop].
  change (re_flags re_parenthesized) with flags_g.
  rewrite exec_from_none; [reflexivity|].
  intros u1 [|x u2] E.
  - apply parenthesized_miss_nil.
  - apply parenthesized_miss. intros ->. apply H. rewrite E.
    apply in_or_app. right. now left.
Qed.

(** ** The pattern of [getAudioFormatType] *)

Lemma line_stop_not_dash rest : line_stop rest -> starts_with "-" rest = false.
Proof.
  destruct rest as [|x rest]; [reflexivity|]. simpl. intros H.
  apply Ascii.eqb_neq. intros ->. discriminate H.
Qed.

Lemma to_dash_miss pre line rest :
  single_line line -> ~ In "-"%char line -> line_stop rest ->
  rmatch flags_g (re_pattern re_to_dash) Some (start_state pre (line ++ rest))
  = None.
Proof.
  intros Hl Hd Hr. unfold re_to_dash, start_state. simpl re_pattern.
  rewrite rmatch_Group, rmatch_Seq.
  rewrite rmatch_star_dot; [|reflexivity|assumption..].
  apply (try_splits_none "-"); auto using line_stop_not_dash.
  apply needs_Chr.
Qed.

Lemma to_dash_hit pre a b rest :
  single_line (a ++ "-"%char :: b) -> ~ In "-"%char b -> line_stop rest ->
  rmatch flags_g (re_pattern re_to_dash) Some
    (start_state pre ((a ++ "-"%char :: b) ++ rest))
  = Some {| consumed := ("-"%char :: rev a) ++ pre; remaining := b ++ rest;
            captures := [(1, a ++ ["-"%char])] |}.
Proof.
  intros Hl Hd Hr. unfold re_to_dash, start_state. simpl re_pattern.
  rewrite rmatch_Group, rmatch_Seq.
  rewrite rmatch_star_dot; [|reflexivity|assumption..].
  apply (try_splits_last "-"); auto using line_stop_not_dash.
  - apply needs_Chr.
  - rewrite rmatch_Chr_cons. simpl Ascii.eqb. cbv iota.
    unfold set_capture. cbn [consumed remaining captures].
    replace ("-"%char :: rev a ++ pre) with (("-"%char :: rev a) ++ pre)
      by reflexivity.
    rewrite matched_between_app. simpl. rewrite rev_involutive. reflexivity.
Qed.

(** Inside a line without a hyphen the pattern matches nowhere: the search
    moves past the line. *)
Lemma to_dash_skip_line pre line rest :
  single_line line -> ~ In "-"%char line -> line_stop rest ->
  exec_from flags_g (re_pattern re_to_dash) pre (line ++ rest)
  = shift line (exec_from flags_g (re_pattern re_to_dash) (rev line ++ pre) rest).
Proof.
  intros Hl Hd Hr. apply exec_from_skip.
  intros u1 x u2 E.
  change (x :: u2 ++ rest) with ((x :: u2) ++ rest).
  apply to_dash_miss; auto.
  - intros y Hy. apply Hl. rewrite E. apply in_or_app. now right.
  - intros Hy. apply Hd. rewrite E. apply in_or_app. now right.
Qed.

Lemma to_dash_exec_nil pre :
  exec_from flags_g (re_pattern re_to_dash) pre [] = None.
Proof. reflexivity. Qed.

Lemma replace_to_dash_no_dash fuel pre line :
  single_line line -> ~ In "-"%char line ->
  replace_loop fuel re_to_dash [] pre line = line.
Proof.
  intros Hl Hd. destruct fuel; [reflexivity|]. cbn [replace_loop].
  change (re_flags re_to_dash) with flags_g.
  rewrite <- (app_nil_r line) at 1.
  rewrite to_dash_skip_line by (auto; exact I).
  rewrite to_dash_exec_nil. reflexivity.
Qed.

Lemma to_dash_exec_hit pre a b rest :
  single_line (a ++ "-"%char :: b) -> ~ In "-"%char b -> line_stop rest ->
  exec_from flags_g (re_pattern re_to_dash) pre ((a ++ "-"%char :: b) ++ rest)
  = Some {| skipped := []; matched := a ++ ["-"%char];
            mend := {| consumed := ("-"%char :: rev a) ++ pre;
                       remaining := b ++ rest;
                       captures := [(1, a ++ ["-"%char])] |} |}.
Proof.
  intros Hl Hd Hr.
  assert (E : forall s, exec_from flags_g (re_pattern re_to_dash) pre s
    = match rmatch flags_g (re_pattern re_to_dash) Some (start_state pre s) with
      | Some e => Some {| skipped := [];
                          matched := matched_between (start_state pre s) e;
                          mend := e |}
      | None =>
        match s with
        | [] => None
        | c :: rest' =>
          match exec_from flags_g (re_pattern re_to_dash) (c :: pre) rest' with
          | Some m => Some {| skipped := c :: skipped m; matched := matched m;
                              mend := mend m |}
          | None => None
          end
        end
      end) by (intros []; reflexivity).
  rewrite E. rewrite to_dash_hit by auto.
  unfold start_state. rewrite matched_between_app.
  simpl rev. rewrite rev_involutive. reflexivity.
Qed.

Lemma replace_to_dash_last fuel pre a b :
  single_line (a ++ "-"%char :: b) -> ~ In "-"%char b ->
  replace_loop (S fuel) re_to_dash [] pre (a ++ "-"%char :: b) = b.
Proof.
  intros Hl Hd. cbn [replace_loop].
  change (re_flags re_to_dash) with flags_g.
  rewrite <- (app_nil_r (a ++ "-"%char :: b)).
  rewrite to_dash_exec_hit by (auto; exact I).
  cbn [skipped matched mend consumed remaining GetSubstitution].
  destruct (a ++ ["-"%char]) eqn:E.
  - destruct a; discriminate E.
  - rewrite app_nil_r. simpl. apply replace_to_dash_no_dash; auto.
    apply single_line_app in Hl. destruct Hl as [_ Hl].
    apply single_line_cons in Hl. tauto.
Qed.

(** A line terminator is never part of a match, so it stays. *)
Lemma replace_to_dash_keeps_terminator_no_dash fuel pre l x rest :
  single_line l -> ~ In "-"%char l -> isLineTerminator x = true ->
  In x (replace_loop (S fuel) re_to_dash [] pre (l ++ x :: rest)).
Proof.
  intros Hl Hd Hx. cbn [replace_loop].
  change (re_flags re_to_dash) with flags_g.
  rewrite to_dash_skip_line by auto.
  unfold exec_from at 1; fold exec_from.
  change (x :: rest) with ([] ++ x :: rest) at 1.
  rewrite to_dash_miss; [|intros y []|intros []|exact Hx].
  destruct (exec_from flags_g (re_pattern re_to_dash) (x :: rev l ++ pre) rest)
    as [m|]; cbn [shift].
  - cbn [skipped]. apply in_or_app. left. apply in_or_app. right. now left.
  - apply in_or_app. right. now left.
Qed.

Lemma replace_to_dash_keeps_terminator l x rest :
  single_line l -> isLineTerminator x = true ->
  In x (String_replace (l ++ x :: rest) re_to_dash []).
Proof.
  intros Hl Hx. unfold String_replace.
  change (global (re_flags re_to_dash)) with true. cbv iota.
  destruct (last_occurrence "-" l) as [Hd | (a & b & -> & Hb)].
  - now apply replace_to_dash_keeps_terminator_no_dash.
  - cbn [replace_loop].
    change (re_flags re_to_dash) with flags_g.
    rewrite to_dash_exec_hit by auto.
    cbn [skipped matched mend consumed remaining GetSubstitution].
    destruct (a ++ ["-"%char]) eqn:E.
    + destruct a; discriminate E.
    + simpl app at 1. simpl app at 1.
      rewrite !length_app. simpl length. rewrite Nat.add_succ_r.
      apply replace_to_dash_keeps_terminator_no_dash; auto.
      apply single_line_app in Hl. destruct Hl as [_ Hl].
      apply single_line_cons in Hl. tauto.
Qed.

(** ** The pattern of [handleTextFormat] *)

Lemma needs_rule_tail st1 : needs "/" (rule_tail st1).
Proof.
  intros [pre [|x xs] caps] H; [reflexivity|].
  unfold rule_tail, set_capture. cbn [consumed remaining captures].
  rewrite rmatch_Seq, rmatch_Chr_cons. simpl in H.
  rewrite Ascii.eqb_sym, H. reflexivity.
Qed.

Lemma rule_unfold rest :
  rmatch flags_g (re_pattern re_rule) Some (start_state [] ("/"%char :: rest))
  = rmatch flags_g (Star Dot)
      (rule_tail {| consumed := ["/"%char]; remaining := rest; captures := [] |})
      {| consumed := ["/"%char]; remaining := rest; captures := [] |}.
Proof. reflexivity. Qed.

Lemma rule_first x rest :
  rmatch flags_g (re_pattern re_rule) Some (start_state [] (x :: rest))
  = if Ascii.eqb "/" x
    then rmatch flags_g (Star Dot)
           (rule_tail {| consumed := [x]; remaining := rest; captures := [] |})
           {| consumed := [x]; remaining := rest; captures := [] |}
    else None.
Proof. reflexivity. Qed.

Lemma rule_hit p f :
  single_line p -> single_line f -> ~ In "/"%char f ->
  rmatch flags_g (re_pattern re_rule) Some
    (start_state [] ("/"%char :: p ++ "/"%char :: f))
  = Some {| consumed := (rev f ++ "/"%char :: rev p) ++ ["/"%char];
            remaining := []; captures := [(1, p)] |}.
Proof.
  intros Hp Hf Hs. rewrite rule_unfold.
  rewrite <- (app_nil_r (p ++ "/"%char :: f)).
  rewrite rmatch_star_dot; [|reflexivity| |exact I].
  - apply (try_splits_last "/"); auto using needs_rule_tail.
    unfold rule_tail, set_capture. cbn [consumed remaining captures].
    rewrite (matched_between_app ["/"%char] _ _ (rev p)).
    rewrite rev_involutive.
    rewrite rmatch_Seq, rmatch_Chr_cons. simpl Ascii.eqb. cbv iota.
    rewrite rmatch_star_dot; [|reflexivity|assumption|exact I].
    rewrite try_splits_all. rewrite <- !app_assoc. reflexivity.
  - apply single_line_app. split; [assumption|].
    intros x [<-|Hx]; [reflexivity|auto].
Qed.

Lemma rule_miss_later pre x rest :
  rmatch flags_g (re_pattern re_rule) Some (start_state (x :: pre) rest) = None.
Proof. reflexivity. Qed.

Lemma rule_miss_start rule :
  (forall r, rule = "/"%char :: r -> ~ In "/"%char r) ->
  rmatch flags_g (re_pattern re_rule) Some (start_state [] rule) = None.
Proof.
  intros H. destruct rule as [|x r]; [reflexivity|].
  destruct (ascii_dec x "/") as [->|Hx].
  - specialize (H r eq_refl). rewrite rule_unfold.
    destruct (first_line r) as [Hr | (l & y & rest & -> & Hl & Hy)].
    + rewrite <- (app_nil_r r).
      rewrite rmatch_star_dot; [|reflexivity|assumption|exact I].
      apply (try_splits_none "/"); auto using needs_rule_tail.
    + rewrite rmatch_star_dot; [|reflexivity|assumption|exact Hy].
      apply (try_splits_none "/"); auto using needs_rule_tail.
      * intros Hin. apply H. apply in_or_app. now left.
      * simpl. apply Ascii.eqb_neq. intros ->. discriminate Hy.
  - rewrite rule_first. 
    destruct (Ascii.eqb_spec "/" x); [congruence|reflexivity].
Qed.

Lemma rule_exec_later x pre rest :
  exec_from flags_g (re_pattern re_rule) (x :: pre) rest = None.
Proof.
  revert x pre. induction rest as [|y rest IH]; intros x pre.
  - reflexivity.
  - unfold exec_from; fold exec_from. rewrite rule_miss_later.
    now rewrite IH.
Qed.

Lemma GetSubstitution_group1 m :
  GetSubstitution 1 m (lit "$1") = capture_text (captures (mend m)) 1.
Proof. reflexivity. Qed.

(** The pattern portion of a rule written as a regular-expression
    literal. *)
Lemma rule_extract p f :
  single_line p -> single_line f -> ~ In "/"%char f ->
  String_replace (lit "/" ++ p ++ lit "/" ++ f) re_rule (lit "$1") = p.
Proof.
  intros Hp Hf Hs. unfold String_replace.
  change (global (re_flags re_rule)) with true. cbv iota.
  cbn [replace_loop].
  change (re_flags re_rule) with flags_g.
  change (lit "/" ++ p ++ lit "/" ++ f) with ("/"%char :: p ++ "/"%char :: f).
  unfold exec_from at 1; fold exec_from.
  rewrite rule_hit by assumption.
  cbn [skipped matched mend consumed remaining captures].
  change (re_groups re_rule) with 1. rewrite GetSubstitution_group1.
  cbn [mend captures capture_text find fst snd Nat.eqb app].
  destruct ((rev f ++ "/"%char :: rev p) ++ ["/"%char]) eqn:E2.
  - destruct (rev f); discriminate E2.
  - rewrite replace_loop_nil by apply rule_exec_later.
    destruct (matched_between _ _); apply app_nil_r.
Qed.

(** A rule that is no such literal is left as it is. *)
Lemma rule_verbatim rule :
  ~ (exists p f, rule = lit "/" ++ p ++ lit "/" ++ f) ->
  String_replace rule re_rule (lit "$1") = rule.
Proof.
  intros H. unfold String_replace.
  change (global (re_flags re_rule)) with true. cbv iota.
  cbn [replace_loop].
  change (re_flags re_rule) with flags_g.
  rewrite exec_from_none; [reflexivity|].
  intros [|x u1] u2 E.
  - simpl in E. subst u2. simpl. apply rule_miss_start. intros r -> Hin.
    apply H. apply in_split in Hin. destruct Hin as (p & f & ->).
    now exists p, f.
  - simpl. rewrite app_nil_r.
    destruct (rev u1 ++ [x]) as [|y pre] eqn:E2;
      [destruct (rev u1); discriminate E2|].
    exact (rule_miss_later pre y u2).
Qed.

Lemma new_RegExp_gi_flags pattern re :
  new_RegExp pattern (lit "gi") = Normal re ->
  global (re_flags re) = true /\ ignoreCase (re_flags re) = true.
Proof.
  unfold new_RegExp.
  change (parse_flags (lit "gi") no_flags)
    with (Normal {| global := true; ignoreCase := true;
                    multiline := false; dotAll := false |}).
  cbv iota.
  destruct (parse_disjunction _ pattern 0) as [r [|c rest] n| |];
    intros E; inversion E; subst; simpl; auto.
Qed.

(* ================================================================== *)
(** * Facts about strings *)
(* ================================================================== *)

Lemma str_eqb_eq a b : str_eqb a b = true <-> a = b.
Proof.
  unfold str_eqb. destruct (list_eq_dec ascii_dec a b); split; congruence.
Qed.

Lemma lowerChar_terminator x :
  isLineTerminator x = true -> lowerChar x = x.
Proof.
  destruct x as [[] [] [] [] [] [] [] []]; intros H; try discriminate H;
    reflexivity.
Qed.

Lemma toLowerCase_mp3_single_line t :
  toLowerCase t = lit "mp3" -> single_line t /\ ~ In "-"%char t.
Proof.
  intros H. split.
  - intros x Hx. destruct (isLineTerminator x) eqn:E; [|reflexivity].
    apply (in_map lowerChar) in Hx. fold (toLowerCase t) in Hx.
    rewrite H, (lowerChar_terminator x E) in Hx.
    simpl in Hx. destruct Hx as [<-|[<-|[<-|[]]]]; discriminate E.
  - intros Hx. apply (in_map lowerChar) in Hx. fold (toLowerCase t) in Hx.
    rewrite H in Hx. simpl in Hx.
    destruct Hx as [E|[E|[E|[]]]]; discriminate E.
Qed.

(** ** [trim] *)

Lemma trimStart_split s :
  exists a, s = a ++ trimStart s /\ Forall (fun c => isTrimmable c = true) a.
Proof.
  induction s as [|c s (a & E & Ha)].
  - exists []. split; [reflexivity|constructor].
  - simpl. destruct (isTrimmable c) eqn:Hc.
    + exists (c :: a). split; [simpl; congruence|now constructor].
    + exists []. split; [reflexivity|constructor].
Qed.

Lemma trimStart_head s c t : trimStart s = c :: t -> isTrimmable c = false.
Proof.
  induction s as [|x s IH]; simpl; [discriminate|].
  destruct (isTrimmable x) eqn:Hx; [exact IH|].
  intros E. inversion E. now subst.
Qed.

Lemma trimEnd_split s :
  exists b, s = trimEnd s ++ b /\ Forall (fun c => isTrimmable c = true) b.
Proof.
  unfold trimEnd. destruct (trimStart_split (rev s)) as (a & E & Ha).
  exists (rev a). split.
  - rewrite <- rev_app_distr, <- E. symmetry. apply rev_involutive.
  - apply Forall_rev. exact Ha.
Qed.

Lemma trimEnd_last s t c : trimEnd s = t ++ [c] -> isTrimmable c = false.
Proof.
  unfold trimEnd. intros E.
  apply (f_equal (@rev ascii)) in E.
  rewrite rev_involutive, rev_app_distr in E. simpl in E.
  exact (trimStart_head _ _ _ E).
Qed.

(** [trim] removes the code units it strips from both ends and nothing
    else. *)
Lemma trim_spec s :
  trimmed (trim s)
  /\ exists a b, s = a ++ trim s ++ b
                 /\ Forall (fun c => isTrimmable c = true) a
                 /\ Forall (fun c => isTrimmable c = true) b.
Proof.
  unfold trim.
  destruct (trimStart_split s) as (a & Ea & Ha).
  destruct (trimEnd_split (trimStart s)) as (b & Eb & Hb).
  split.
  - split.
    + intros c t E. rewrite E in Eb. simpl in Eb.
      exact (trimStart_head _ _ _ Eb).
    + intros t c E. exact (trimEnd_last _ _ _ E).
  - exists a, b. split; [|split]; auto. rewrite <- Eb. exact Ea.
Qed.

(** ** Decimal renderings *)

Lemma Number_toString_digit n :
  (0 <= n <= 9)%Z -> Number_toString n = [digit n].
Proof.
  intros H. unfold Number_toString.
  replace (n <? 0)%Z with false by (symmetry; apply Z.ltb_ge; lia).
  simpl. replace (n <? 10)%Z with true by (symmetry; apply Z.ltb_lt; lia).
  unfold digit. rewrite Z.mod_small by lia. reflexivity.
Qed.

Lemma digits_fuel_two f n :
  (10 <= n <= 99)%Z -> digits_fuel (2 + f) n = two_digits n.
Proof.
  intros H. simpl.
  replace (n <? 10)%Z with false by (symmetry; apply Z.ltb_ge; lia).
  assert (H1 : (1 <= n / 10 <= 9)%Z) by (Z.div_mod_to_equations; lia).
  replace (n / 10 <? 10)%Z with true by (symmetry; apply Z.ltb_lt; lia).
  unfold two_digits, digit. simpl.
  rewrite (Z.mod_small (n / 10)) by lia. reflexivity.
Qed.

Lemma log2_fuel n k :
  (2 ^ Z.of_nat k <= n)%Z ->
  exists f, S (Z.to_nat (Z.log2 n)) = S k + f.
Proof.
  intros H. exists (Z.to_nat (Z.log2 n) - k).
  assert (Z.of_nat k <= Z.log2 n)%Z.
  { rewrite <- (Z.log2_pow2 (Z.of_nat k)) by lia. apply Z.log2_le_mono. exact H. }
  lia.
Qed.

Lemma Number_toString_two n :
  (10 <= n <= 99)%Z -> Number_toString n = two_digits n.
Proof.
  intros H. unfold Number_toString.
  replace (n <? 0)%Z with false by (symmetry; apply Z.ltb_ge; lia).
  destruct (log2_fuel n 1) as (f & ->); [simpl; lia|].
  now apply digits_fuel_two.
Qed.

Lemma digits_fuel_four f n :
  (1000 <= n <= 9999)%Z -> digits_fuel (4 + f) n = four_digits n.
Proof.
  intros H. simpl.
  assert (H1 : (100 <= n / 10 <= 999)%Z) by (Z.div_mod_to_equations; lia).
  assert (H2 : (10 <= n / 10 / 10 <= 99)%Z) by (Z.div_mod_to_equations; lia).
  assert (H3 : (1 <= n / 10 / 10 / 10 <= 9)%Z)
    by (Z.div_mod_to_equations; lia).
  replace (n <? 10)%Z with false by (symmetry; apply Z.ltb_ge; lia).
  replace (n / 10 <? 10)%Z with false by (symmetry; apply Z.ltb_ge; lia).
  replace (n / 10 / 10 <? 10)%Z with false by (symmetry; apply Z.ltb_ge; lia).
  replace (n / 10 / 10 / 10 <? 10)%Z with true by (symmetry; apply Z.ltb_lt; lia).
  unfold four_digits, digit. simpl.
  rewrite (Z.mod_small (n / 10 / 10 / 10)) by lia.
  rewrite !Z.div_div by lia. reflexivity.
Qed.

Lemma Number_toString_four n :
  (1000 <= n <= 9999)%Z -> Number_toString n = four_digits n.
Proof.
  intros H. unfold Number_toString.
  replace (n <? 0)%Z with false by (symmetry; apply Z.ltb_ge; lia).
  destruct (log2_fuel n 3) as (f & ->); [simpl; lia|].
  now apply digits_fuel_four.
Qed.

(** A component below 100 is rendered by two digits. *)
Lemma formatTimeNumber_two n :
  (0 <= n <= 99)%Z -> interpolate (formatTimeNumber n) = two_digits n.
Proof.
  intros H. unfold formatTimeNumber.
  destruct (n >? 9)%Z eqn:E.
  - apply Z.gtb_lt in E. simpl. apply Number_toString_two. lia.
  - assert (n <= 9)%Z by (rewrite Z.gtb_ltb in E; apply Z.ltb_ge in E; lia).
    simpl. rewrite Number_toString_digit by lia.
    unfold two_digits. rewrite Z.div_small, Z.mod_small by lia. reflexivity.
Qed.

Lemma isDigit_digit z : (0 <= z <= 9)%Z -> isDigit (digit z) = true.
Proof.
  intros H.
  assert (E : (z = 0 \/ z = 1 \/ z = 2 \/ z = 3 \/ z = 4 \/ z = 5 \/ z = 6
               \/ z = 7 \/ z = 8 \/ z = 9)%Z) by lia.
  repeat (destruct E as [->|E]; [reflexivity|]). subst. reflexivity.
Qed.

Lemma two_digits_digits n :
  (0 <= n <= 99)%Z -> forallb isDigit (two_digits n) = true.
Proof.
  intros H. unfold two_digits. cbn [forallb].
  rewrite !isDigit_digit; [reflexivity|..]; Z.div_mod_to_equations; lia.
Qed.

Lemma four_digits_digits n :
  (1000 <= n <= 9999)%Z -> forallb isDigit (four_digits n) = true.
Proof.
  intros H. unfold four_digits. cbn [forallb].
  rewrite !isDigit_digit; [reflexivity|..]; Z.div_mod_to_equations; lia.
Qed.

(* ================================================================== *)
(** * The claims about the string helpers *)
(* ================================================================== *)

Lemma getSelectedText_is_trim scope e :
  exists s, getSelectedText scope e = trim s.
Proof.
  destruct e as [ed|]; [|now exists []].
  unfold getSelectedText. eexists. reflexivity.
Qed.

(** C5.  [getSelectedText] returns the text to speak trimmed of surrounding
    whitespace: without an editor the empty string; a non-empty selection
    whatever the scope; without a selection nothing for "off", the range
    from the start of the document to the cursor for "before", and for
    "after" the range from the cursor to the end of the word at the end of
    the last line, or to the end of the document when there is no such
    word. *)
Theorem C5_getSelectedText_spec (scope : ReadScope) (editor : Editor) :
  let start := {| line := 0; ch := 0 |} in
  let endOfDocument :=
    {| line := lastLine editor;
       ch := length (getLine editor (lastLine editor)) |} in
  let endOfLastWord :=
    match wordAt editor endOfDocument with
    | Some word => range_to word
    | None => endOfDocument
    end in
  getSelectedText scope None = []
  /\ (getSelection editor <> [] ->
      getSelectedText scope (Some editor) = trim (getSelection editor))
  /\ (getSelection editor = [] -> getSelectedText off (Some editor) = [])
  /\ (getSelection editor = [] ->
      getSelectedText before (Some editor)
      = trim (getRange editor start (getCursor editor)))
  /\ (getSelection editor = [] ->
      getSelectedText after (Some editor)
      = trim (getRange editor (getCursor editor) endOfLastWord))
  /\ (forall e, trimmed (getSelectedText scope e))
  /\ (forall s, exists a b,
        s = a ++ trim s ++ b
        /\ Forall (fun c => isTrimmable c = true) a
        /\ Forall (fun c => isTrimmable c = true) b).
Proof.
  cbv zeta. repeat split.
  - intros Hsel. unfold getSelectedText.
    destruct (getSelection editor) as [|c s] eqn:E; [congruence|].
    destruct scope; reflexivity.
  - intros Hsel. unfold getSelectedText. now rewrite Hsel.
  - intros Hsel. unfold getSelectedText. now rewrite Hsel.
  - intros Hsel. unfold getSelectedText. rewrite Hsel. simpl.
    destruct (wordAt editor _); reflexivity.
  - destruct (getSelectedText_is_trim scope e) as (s & ->).
    apply trim_spec.
  - destruct (getSelectedText_is_trim scope e) as (s & ->).
    apply trim_spec.
  - apply trim_spec.
Qed.

(** C6, as the code has it.  [getAudioFormatType] returns "mp3" exactly
    when the format is one line whose part after the last hyphen, or the
    whole of it without a hyphen, reads "mp3" in any case of its letters,
    and "wav" for every other string. *)
Theorem C6_getAudioFormatType_spec (audioFormat : str) :
  (getAudioFormatType audioFormat = lit "mp3"
   <-> mp3_after_last_hyphen audioFormat)
  /\ (getAudioFormatType audioFormat = lit "mp3"
      \/ getAudioFormatType audioFormat = lit "wav").
Proof.
  split.
  - unfold getAudioFormatType, mp3_after_last_hyphen. split.
    + intros H.
      destruct (str_eqb _ _) eqn:E; [clear H|discriminate H].
      apply str_eqb_eq in E.
      destruct (first_line audioFormat)
        as [Hs | (l & x & rest & -> & Hl & Hx)].
      * split; [exact Hs|].
        unfold String_replace in E.
        change (global (re_flags re_to_dash)) with true in E. cbv iota in E.
        destruct (last_occurrence "-" audioFormat)
          as [Hd | (a & b & -> & Hb)].
        -- rewrite replace_to_dash_no_dash in E by assumption.
           exists [], audioFormat. auto.
        -- rewrite replace_to_dash_last in E by assumption.
           exists (a ++ lit "-"), b. rewrite <- app_assoc.
           split; [reflexivity|]. split; [exact E|]. right. now exists a.
      * exfalso.
        pose proof (replace_to_dash_keeps_terminator l x rest Hl Hx) as Hin.
        apply (in_map lowerChar) in Hin.
        fold (toLowerCase (String_replace (l ++ x :: rest) re_to_dash [])) in Hin.
        rewrite E, (lowerChar_terminator x Hx) in Hin. simpl in Hin.
        destruct Hin as [<-|[<-|[<-|[]]]]; discriminate Hx.
    + intros (Hs & p & t & -> & Ht & Hp).
      destruct (toLowerCase_mp3_single_line t Ht) as [_ Hd].
      assert (E : String_replace (p ++ t) re_to_dash [] = t).
      { unfold String_replace.
        change (global (re_flags re_to_dash)) with true. cbv iota.
        destruct Hp as [->|(q & ->)].
        - apply replace_to_dash_no_dash; auto.
        - rewrite <- app_assoc. rewrite <- app_assoc in Hs.
          apply replace_to_dash_last; auto. }
      rewrite E, Ht. reflexivity.
  - unfold getAudioFormatType. destruct (str_eqb _ _); auto.
Qed.

(** C6, against the claim as written: "mp3" does not end in "-mp3" and is
    not classified "wav"; a format that ends in "-mp3" after a line
    terminator is classified "wav". *)
Lemma C6_counterexample :
  (~ ends_in_hyphen_mp3 (lit "mp3")
   /\ getAudioFormatType (lit "mp3") = lit "mp3")
  /\ (ends_in_hyphen_mp3 (lit "riff" ++ [LF] ++ lit "-mp3")
      /\ getAudioFormatType (lit "riff" ++ [LF] ++ lit "-mp3") = lit "wav").
Proof.
  repeat split.
  - intros (p & t & E & Ht).
    assert (L : length (toLowerCase t) = 4) by now rewrite Ht.
    unfold toLowerCase in L. rewrite length_map in L.
    apply (f_equal (@length ascii)) in E. rewrite length_app in E.
    simpl in E. lia.
  - exists (lit "riff" ++ [LF]), (lit "-mp3"). split; reflexivity.
Qed.

(** C8.  For a valid date of a year with four digits, the file time is the
    fourteen digits YYYYMMDDHHMMSS of the date: the year, then the month
    (from 1), the day, the hour, the minutes and the seconds, each padded
    with a zero to two digits. *)
Theorem C8_getDefaultFiletime_spec (date : Date) :
  valid_date date ->
  (1000 <= getFullYear date <= 9999)%Z ->
  getDefaultFiletime date
  = four_digits (getFullYear date) ++ two_digits (getMonth date + 1)
    ++ two_digits (getDate date) ++ two_digits (getHours date)
    ++ two_digits (getMinutes date) ++ two_digits (getSeconds date)
  /\ length (getDefaultFiletime date) = 14
  /\ forallb isDigit (getDefaultFiletime date) = true.
Proof.
  intros (Hm & Hd & Hh & Hmi & Hs) Hy.
  assert (E : getDefaultFiletime date
    = four_digits (getFullYear date) ++ two_digits (getMonth date + 1)
      ++ two_digits (getDate date) ++ two_digits (getHours date)
      ++ two_digits (getMinutes date) ++ two_digits (getSeconds date)).
  { unfold getDefaultFiletime. cbv zeta.
    rewrite Number_toString_four by assumption.
    rewrite !formatTimeNumber_two by lia. reflexivity. }
  split; [exact E|]. rewrite E. split; [reflexivity|].
  rewrite !forallb_app.
  rewrite four_digits_digits by assumption.
  rewrite !two_digits_digits by lia. reflexivity.
Qed.

(** C9.  [getVoiceName] strips a parenthesized suffix of a voice
    identifier, from its first opening parenthesis on; an identifier
    without a parenthesis is left as it is; "en-US-JennyNeural (Female)"
    becomes "en-US-JennyNeural " and keeps the space. *)
Theorem C9_getVoiceName_strips_suffix (name inside : str) :
  ~ In "("%char name ->
  single_line inside ->
  getVoiceName (name ++ lit "(" ++ inside ++ lit ")") = name
  /\ getVoiceName name = name
  /\ getVoiceName (lit "en-US-JennyNeural (Female)") = lit "en-US-JennyNeural ".
Proof.
  intros Hn Hi. split; [|split].
  - now apply getVoiceName_suffix.
  - now apply getVoiceName_unchanged.
  - reflexivity.
Qed.

Lemma rule_literal_parts rule p f :
  rule_literal rule p f ->
  rule = lit "/" ++ p ++ lit "/" ++ f /\ single_line p /\ single_line f
  /\ ~ In "/"%char f.
Proof.
  intros (E & Hp & Hf). repeat split; auto.
  - intros x Hx. specialize (Hf x Hx).
    destruct (isLineTerminator x) eqn:Hl; [|reflexivity].
    rewrite <- Hf. clear Hf.
    destruct x as [[] [] [] [] [] [] [] []]; try discriminate Hl; reflexivity.
  - intros Hx. specialize (Hf _ Hx). discriminate Hf.
Qed.

(** C7.  For a non-empty text and a rule written as the literal
    /pattern/flags, [handleTextFormat] compiles the pattern portion with
    the flags "gi", whatever the flags of the rule, and replaces every
    match in the text by one space; without a rule or without a text the
    text comes back unchanged; the rule of the scenario turns runs of
    blanks and tabs into single spaces. *)
Theorem C7_handleTextFormat_literal_rule (text rule pattern flags : str) :
  text <> [] ->
  rule_literal rule pattern flags ->
  handleTextFormat text rule
  = match new_RegExp pattern (lit "gi") with
    | Normal re => Normal (String_replace text re (lit " "))
    | ThrowSyntaxError => ThrowSyntaxError
    | Unmodelled => Unmodelled
    end
  /\ (forall re, new_RegExp pattern (lit "gi") = Normal re ->
        global (re_flags re) = true /\ ignoreCase (re_flags re) = true)
  /\ handleTextFormat text [] = Normal text
  /\ handleTextFormat [] rule = Normal []
  /\ handleTextFormat (lit "a   b" ++ [TAB] ++ lit "c") (lit "/[ \t]+/")
     = Normal (lit "a b c").
Proof.
  intros Ht Hr. apply rule_literal_parts in Hr.
  destruct Hr as (-> & Hp & Hf & Hs).
  split; [|split; [|split; [|split]]].
  - unfold handleTextFormat.
    destruct text as [|c t]; [congruence|].
    rewrite rule_extract by assumption. reflexivity.
  - intros re. apply new_RegExp_gi_flags.
  - unfold handleTextFormat. destruct text; reflexivity.
  - reflexivity.
  - vm_compute. reflexivity.
Qed.

(** C10.  For a non-empty text and a non-empty rule that is not of the
    shape /pattern/flags (it does not start with a slash that a second
    slash follows), [handleTextFormat] compiles the whole rule, as it is
    written, with the flags "gi" and replaces every match in the text by
    one space. *)
Theorem C10_handleTextFormat_verbatim_rule (text rule : str) :
  text <> [] ->
  rule <> [] ->
  ~ (exists p f, rule = lit "/" ++ p ++ lit "/" ++ f) ->
  handleTextFormat text rule
  = match new_RegExp rule (lit "gi") with
    | Normal re => Normal (String_replace text re (lit " "))
    | ThrowSyntaxError => ThrowSyntaxError
    | Unmodelled => Unmodelled
    end
  /\ (forall re, new_RegExp rule (lit "gi") = Normal re ->
        global (re_flags re) = true /\ ignoreCase (re_flags re) = true).
Proof.
  intros Ht Hr Hshape. split.
  - unfold handleTextFormat.
    destruct text as [|c t]; [congruence|].
    destruct rule as [|d r] eqn:E; [congruence|]. rewrite <- E in *.
    replace (truthy (c :: t) && truthy rule) with true by (now rewrite E).
    rewrite rule_verbatim by assumption. reflexivity.
  - intros re. apply new_RegExp_gi_flags.
Qed.

(* ================================================================== *)
(** * Facts about the lifecycle *)
(* ================================================================== *)

Lemma truthy_ssmlContent config :
  truthy (ssmlContent config) = truthy_opt (text config).
Proof.
  unfold ssmlContent. destruct (truthy_opt (text config)); reflexivity.
Qed.

Lemma skipn_length_app {A} (l x : list A) : skipn (length l) (l ++ x) = x.
Proof. induction l; simpl; auto. Qed.

Lemma set_nth_length_app {A} (l : list A) (x y : A) :
  set_nth (length l) y (l ++ [x]) = l ++ [y].
Proof. induction l; simpl; congruence. Qed.

Lemma nth_error_length_app {A} (l : list A) (x : A) :
  nth_error (l ++ [x]) (length l) = Some x.
Proof. induction l; simpl; auto. Qed.

Lemma nth_error_length {A} (l : list A) : nth_error l (length l) = None.
Proof. induction l; simpl; auto. Qed.

Lemma live_handles_from_app live a b :
  live_handles_from live (a ++ b)
  = live_handles_from (live_handles_from live a) b.
Proof.
  revert live. induction a as [|e a IH]; intros live; [reflexivity|].
  destruct e; simpl; apply IH.
Qed.

Ltac lifecycle_unfold :=
  cbv [invocation generateVoice new_Promise executor bind try_catch ret
       actions_pause actions_clearAudioConfig actions_setAudioConfig
       actions_setSpeechSynthesizer actions_clearsynthesizer
       SpeechConfig_fromSubscription AudioConfig_fromSpeakerOutput
       AudioConfig_fromAudioFileOutput new_SpeechSynthesizer speakSsmlAsync
       sdk_call emit get_store put_store deliver answer on_result on_error
       synthesizerClear call_callback resolve reject settle promise_state
       generateNotice_setMessage events_since].

Ltac lifecycle_simpl :=
  cbn [fst snd store next_id promises pending trace
       store_audioConfig store_synthesizer store_playing
       req_synthesizer req_ssml req_promise req_type req_audioFile
       req_langSettings req_callback synth_id];
  rewrite ?set_nth_length_app, ?nth_middle, ?nth_error_length_app,
    ?nth_error_length.

(** One step of the symbolic run: reduce, then split on what the host, the
    store or the arguments decide. *)
Ltac lifecycle_step :=
  lifecycle_simpl;
  match goal with
  | |- context [match ?sy with Some _ => _ | None => _ end] =>
    is_var sy; destruct sy
  | |- context [match SpeechConfig_throws ?a ?b with _ => _ end] =>
    destruct (SpeechConfig_throws a b)
  | |- context [match SpeakerOutput_throws with _ => _ end] =>
    destruct SpeakerOutput_throws
  | |- context [match AudioFileOutput_throws ?a with _ => _ end] =>
    destruct (AudioFileOutput_throws a)
  | |- context [match SpeechSynthesizer_throws ?a ?b with _ => _ end] =>
    destruct (SpeechSynthesizer_throws a b)
  | |- context [match speakSsmlAsync_throws ?a ?b with _ => _ end] =>
    destruct (speakSsmlAsync_throws a b)
  | |- context [match type ?c with _ => _ end] => destruct (type c) eqn:?
  | |- context [match callback ?c with _ => _ end] => destruct (callback c)
  | |- context [match ?o with Completed _ => _ | Failed _ => _ end] =>
    destruct o
  | |- context [ResultReason_eqb ?r SynthesizingAudioCompleted] =>
    destruct r; cbn [ResultReason_eqb]
  end.

Ltac lifecycle_finish :=
  repeat (lifecycle_simpl; rewrite <- ?app_assoc; cbn [app];
          rewrite ?skipn_length_app);
  cbn [thrown notices filter is_speak is_clear is_callback callback_events].

(** The symbolic run of [t], a lifecycle computation applied to a world
    given by its fields: the goal is left with the result in closed form,
    once for each way the run can go. *)
Ltac lifecycle_run t :=
  let r := fresh "r" in
  let E := fresh "E" in
  remember t as r eqn:E; symmetry in E; revert E;
  lifecycle_unfold; rewrite ?truthy_ssmlContent;
  repeat match goal with
         | H : truthy_opt (text _) = _ |- _ => rewrite !H
         end;
  repeat lifecycle_step; lifecycle_simpl;
  intros <-; lifecycle_unfold; lifecycle_finish.

(** Reading the events of a run in closed form. *)
Ltac lifecycle_read :=
  cbn [filter is_settle is_setAudio is_close is_new is_speak is_clear
       is_callback from_new firstn length app thrown notices audio_events
       release_events live_handles_from existsb orb].

(** The two classes of a notice. *)
Lemma generateNoticeText_success message :
  generateNoticeText message success
  = {| span_text := message; span_className := lit "ob-t2v-success" |}.
Proof. reflexivity. Qed.

Lemma generateNoticeText_error message :
  generateNoticeText message error
  = {| span_text := message; span_className := lit "ob-t2v-error" |}.
Proof. reflexivity. Qed.

(** C1.  An invocation with a non-empty text settles its promise: it
    resolves with [true] exactly when no call of the setup throws and the
    SDK reports SynthesizingAudioCompleted, and then it shows one notice of
    the class "ob-t2v-success", whose text is the localized message of
    success, a full stop and a blank and, in mode "save", the localized
    word for the saving, a blank and the target path; in every other case
    it rejects with [false] and shows one notice of the class
    "ob-t2v-error", whose text is the exception of the setup, the error
    handed to the failure function, or the localized message of failure
    for another reason.  The target path is the file path, a slash, the
    file name, a dot and the audio format type. *)
Theorem C1_generateVoice_settles (H : Host) (config : Config) (o : Outcome)
    (w : World) :
  truthy_opt (text config) = true ->
  let p := length (promises w) in
  let w' := snd (invocation config o w) in
  let ev := events_since w w' in
  let tips := LANGS (lang config) in
  let saved :=
    match type config with
    | save => (tipMessage_success_save tips ++ lit " ") ++ audioFile config
    | play => []
    end in
  fst (invocation config o w) = Ok p
  /\ (promise_state w' p = Fulfilled (VBool true)
      <-> thrown ev = None /\ o = Completed SynthesizingAudioCompleted)
  /\ (promise_state w' p = Fulfilled (VBool true) ->
      notices ev
      = [{| span_text := tipMessage_success_synthesis tips ++ lit ". " ++ saved;
            span_className := lit "ob-t2v-success" |}])
  /\ (promise_state w' p = Fulfilled (VBool true)
      \/ promise_state w' p = Rejected (VBool false))
  /\ (forall e, thrown ev = Some e ->
        promise_state w' p = Rejected (VBool false)
        /\ notices ev
           = [{| span_text := e; span_className := lit "ob-t2v-error" |}])
  /\ (forall err, thrown ev = None -> o = Failed err ->
        promise_state w' p = Rejected (VBool false)
        /\ notices ev
           = [{| span_text := err; span_className := lit "ob-t2v-error" |}])
  /\ (forall reason, thrown ev = None -> o = Completed reason ->
        reason <> SynthesizingAudioCompleted ->
        promise_state w' p = Rejected (VBool false)
        /\ notices ev
           = [{| span_text := tipMessage_error_synthesis tips;
                 span_className := lit "ob-t2v-error" |}])
  /\ (forall dir name ext,
        filePath config = Some dir -> filename config = Some name ->
        audioFormatType config = Some ext ->
        audioFile config = dir ++ lit "/" ++ name ++ lit "." ++ ext).
Proof.
  intros Ht. cbv zeta.
  destruct w as [[ac sy pl] n ps pd tr].
  assert (Hfile : forall dir name ext,
            filePath config = Some dir -> filename config = Some name ->
            audioFormatType config = Some ext ->
            audioFile config = dir ++ lit "/" ++ name ++ lit "." ++ ext).
  { intros dir name ext E1 E2 E3. unfold audioFile. rewrite E1, E2, E3.
    reflexivity. }
  lifecycle_run (invocation config o
                  {| store := {| store_audioConfig := ac;
                                 store_synthesizer := sy;
                                 store_playing := pl |};
                     next_id := n; promises := ps; pending := pd;
                     trace := tr |}).
  all: rewrite ?generateNoticeText_success, ?generateNoticeText_error.
  all: repeat split; try exact Hfile; try (left; reflexivity);
    try (right; reflexivity); intuition congruence.
Qed.

Lemma live_handles_from_cons live e t :
  live_handles_from live (e :: t)
  = live_handles_from (live_handles_from live [e]) t.
Proof. destruct e; reflexivity. Qed.


Lemma at_most_one_along_app a :
  forall live b,
    at_most_one_along live a = true ->
    at_most_one_along (live_handles_from live a) b = true ->
    at_most_one_along live (a ++ b) = true.
Proof.
  induction a as [|e a IH]; intros live b Ha Hb.
  - exact Hb.
  - cbn [at_most_one_along app] in *. apply andb_prop in Ha.
    destruct Ha as [Hl Ha]. rewrite Hl. cbn [andb].
    apply IH; [exact Ha|]. now rewrite <- live_handles_from_cons.
Qed.

Lemma events_since_app (w : World) (a : list Event) (w' : World) :
  trace w' = trace w ++ a -> events_since w w' = a.
Proof. intros E. unfold events_since. rewrite E. apply skipn_length_app. Qed.

Lemma events_since_refl (w : World) : events_since w w = [].
Proof. apply events_since_app. now rewrite app_nil_r. Qed.

Lemma nth_error_length_cons {A} (l : list A) (x : A) (t : list A) :
  nth_error (l ++ x :: t) (length l) = Some x.
Proof. induction l; simpl; auto. Qed.

Lemma firstn_length_prefix {A} (l t : list A) : firstn (length l) (l ++ t) = l.
Proof. induction l; simpl; [now destruct t|congruence]. Qed.

Lemma skipn_S_length {A} (l : list A) (x : A) (t : list A) :
  skipn (S (length l)) (l ++ x :: t) = t.
Proof. induction l; simpl; auto. Qed.

Lemma nth_set_nth_same {A} (l : list A) (p : nat) (x d : A) :
  p < length l -> nth p (set_nth p x l) d = x.
Proof.
  revert p. induction l as [|y l IH]; intros [|p] Hp; simpl in *; try lia.
  - reflexivity.
  - apply IH. lia.
Qed.

Lemma nth_set_nth_other {A} (l : list A) (p q : nat) (x d : A) :
  q <> p -> nth q (set_nth p x l) d = nth q l d.
Proof.
  revert p q. induction l as [|y l IH]; intros [|p] [|q] Hq; simpl;
    try reflexivity; try congruence.
  apply IH. congruence.
Qed.

Lemma length_set_nth {A} (l : list A) (p : nat) (x : A) :
  length (set_nth p x l) = length l.
Proof.
  revert p. induction l as [|y l IH]; intros [|p]; simpl; auto.
Qed.

Lemma live_handles_from_closes live t :
  filter is_new t = [] ->
  live_handles_from live t = live_handles_from live (filter is_close t).
Proof.
  revert live. induction t as [|e t IH]; intros live Hn; [reflexivity|].
  destruct e; simpl in *; try discriminate; auto.
Qed.

Lemma live_handles_from_no_handle live t :
  filter is_new t = [] -> filter is_close t = [] ->
  live_handles_from live t = live.
Proof.
  revert live. induction t as [|e t IH]; intros live Hn Hc; [reflexivity|].
  destruct e; simpl in *; try discriminate; auto.
Qed.

(** Reading the live handles along the events of a run, from a state in
    which the live handles are those of the store. *)
Ltac lifecycle_live Hc :=
  unfold live_handles in *;
  rewrite ?live_handles_from_app, ?Hc;
  repeat (cbn [at_most_one_along live_handles_from length Nat.leb andb
               filter app negb existsb is_new before_new is_clear is_close
               is_callback before_clear after_clear callback_events
               release_events synth_id orb];
          rewrite ?Nat.eqb_refl).

(** What a call does to a state in which the live handles are those of the
    store: it starts by pausing the playback, which releases the registered
    handle, if there is one, and by clearing the audio configuration; no
    handle is live from there to the construction of its own; at no time
    are two handles live; the live handles stay those of the store; and
    when the setup throws, the cleanup step runs. *)
Lemma generateVoice_single_flight (H : Host) (config : Config) (w : World) :
  consistent w ->
  let w' := snd (generateVoice config w) in
  let ev := events_since w w' in
  trace w' = trace w ++ ev
  /\ (exists rest,
        ev = EPause :: release_events (store_synthesizer (store w))
             ++ EClearAudioConfig :: rest
        /\ filter is_close (before_new rest) = []
        /\ (filter is_new rest = []
            \/ filter is_new rest = [ENewSynthesizer (next_id w)]))
  /\ live_handles
       (trace w ++ EPause :: release_events (store_synthesizer (store w)))
     = []
  /\ at_most_one_along (live_handles (trace w)) ev = true
  /\ consistent w'
  /\ (thrown ev <> None -> cleaned_up (callback config) w' ev)
  /\ (thrown ev = None ->
      filter is_clear ev = []
      /\ store_synthesizer (store w') = Some (own_synthesizer config w)
      /\ live_handles (trace w') = [next_id w])
  /\ store_playing (store w') = false.
Proof.
  cbv zeta. destruct w as [[ac sy pl] n ps pd tr].
  unfold consistent, cleaned_up, own_synthesizer.
  cbn [store store_synthesizer trace next_id]. intros Hc.
  destruct (truthy_opt (text config)) eqn:Ht.
  all: lifecycle_run (generateVoice config
                    {| store := {| store_audioConfig := ac;
                                   store_synthesizer := sy;
                                   store_playing := pl |};
                       next_id := n; promises := ps; pending := pd;
                       trace := tr |}).
  all: lifecycle_read; lifecycle_live Hc.
  all: split; [reflexivity|].
  all: split; [eexists; split; [reflexivity|]; lifecycle_live Hc;
               split; [reflexivity|auto]|].
  all: split; [reflexivity|]. 
  all: split; [reflexivity|].
  all: split; [reflexivity|].
  all: split; [intros E; try (exfalso; apply E; reflexivity); repeat split|].
  all: split; [intros E; try discriminate E; repeat split|reflexivity].
Qed.

(** What the answer of the SDK to a request under way does. *)
Lemma deliver_facts (k : nat) (o : Outcome) (w : World) (req : Request) :
  nth_error (pending w) k = Some req ->
  let w' := snd (deliver k o w) in
  let ev := events_since w w' in
  trace w' = trace w ++ ev
  /\ filter is_close ev
     = match store_synthesizer (store w) with
       | Some s => [ECloseSynthesizer (synth_id s)]
       | None => []
       end
  /\ filter is_new ev = []
  /\ store_synthesizer (store w') = None
  /\ pending w' = firstn k (pending w) ++ skipn (S k) (pending w)
  /\ (promise_state w (req_promise req) = Pending ->
      req_promise req < length (promises w) ->
      promise_state w' (req_promise req) <> Pending)
  /\ (forall q, q <> req_promise req ->
        promise_state w' q = promise_state w q)
  /\ length (promises w') = length (promises w)
  /\ filter is_clear ev = [EClearSynthesizer]
  /\ filter is_callback (before_clear ev) = []
  /\ filter is_callback (after_clear ev) = callback_events (req_callback req).
Proof.
  cbv zeta. destruct w as [[ac sy pl] n ps pd tr].
  destruct req as [rs rssml rp rt rf rl rc].
  cbn [pending store store_synthesizer trace promises req_promise
       req_callback].
  intros Hnth.
  remember (snd (deliver k o
                   {| store := {| store_audioConfig := ac;
                                  store_synthesizer := sy;
                                  store_playing := pl |};
                      next_id := n; promises := ps; pending := pd;
                      trace := tr |})) as w' eqn:E.
  symmetry in E. revert E.
  unfold deliver. cbn [pending]. rewrite Hnth.
  unfold promise_state at 2 4. cbn [promises].
  destruct o as [[|r]|e]; lifecycle_unfold; lifecycle_simpl;
    cbn [ResultReason_eqb];
    destruct (nth rp ps Pending) eqn:Ep; lifecycle_simpl;
    destruct sy as [s|]; lifecycle_unfold; lifecycle_simpl;
    destruct rc as [f|]; lifecycle_unfold; lifecycle_simpl;
    rewrite ?Ep; lifecycle_simpl; intros <-.
  all: lifecycle_unfold; lifecycle_simpl.
  all: repeat (rewrite <- ?app_assoc; cbn [app]; rewrite ?skipn_length_app).
  all: lifecycle_read.
  all: cbn [before_clear after_clear is_clear filter is_callback
            callback_events].
  all: repeat split; try congruence; try apply length_set_nth.
  all: try (intros _ Hp; rewrite nth_set_nth_same by exact Hp; discriminate).
  all: intros q Hq; now rewrite nth_set_nth_other.
Qed.

(** An answer to a request that is not under way changes nothing. *)
Lemma deliver_nothing (k : nat) (o : Outcome) (w : World) :
  nth_error (pending w) k = None -> snd (deliver k o w) = w.
Proof. intros E. unfold deliver. now rewrite E. Qed.

(** What an answer of the SDK does to a state in which the live handles
    are those of the store: at no time are two handles live, the live
    handles stay those of the store, and when the answer is to a request
    under way, the cleanup step runs. *)
Lemma deliver_single_flight (k : nat) (o : Outcome) (w : World) :
  consistent w ->
  let w' := snd (deliver k o w) in
  let ev := events_since w w' in
  trace w' = trace w ++ ev
  /\ at_most_one_along (live_handles (trace w)) ev = true
  /\ consistent w'
  /\ (forall req, nth_error (pending w) k = Some req ->
        cleaned_up (req_callback req) w' ev).
Proof.
  cbv zeta. intros Hc.
  destruct (nth_error (pending w) k) as [req|] eqn:Hnth.
  - destruct (deliver_facts k o w req Hnth)
      as (T & C & N & S & _ & _ & _ & _ & CL & CB & CA).
    set (w' := snd (deliver k o w)) in *.
    set (ev := events_since w w') in *.
    assert (L : live_handles (trace w') = []).
    { rewrite T. unfold consistent in Hc. unfold live_handles in *.
      rewrite live_handles_from_app, Hc.
      rewrite (live_handles_from_closes _ ev N), C.
      destruct (store_synthesizer (store w));
        cbn [live_handles_from filter]; rewrite ?Nat.eqb_refl; reflexivity. }
    split; [exact T|]. split; [|split].
    + unfold consistent in Hc. rewrite Hc.
      clear - N C. revert N C.
      generalize (store_synthesizer (store w)) as sy.
      induction ev as [|e ev IH]; intros sy N C.
      * destruct sy; reflexivity.
      * destruct e; cbn [filter is_new is_close] in N, C;
          try discriminate N;
          cbn [at_most_one_along live_handles_from];
          try (rewrite (IH sy N C); destruct sy; reflexivity).
        destruct sy as [s|]; [|discriminate C].
        inversion C as [[E1 E2]]. cbn [filter length Nat.leb andb].
        rewrite Nat.eqb_refl. cbn [negb].
        rewrite E2 in IH. exact (IH None N eq_refl).
    + unfold consistent. now rewrite L, S.
    + intros req' E. inversion E; subst req'.
      unfold cleaned_up. repeat split; assumption.
  - fold (events_since w (snd (deliver k o w))).
    rewrite (deliver_nothing k o w Hnth), events_since_refl, app_nil_r.
    split; [reflexivity|]. split; [|split; [exact Hc|intros req E; discriminate E]].
    unfold consistent in Hc. rewrite Hc.
    destruct (store_synthesizer (store w)); reflexivity.
Qed.

(** The events of a step are added to the trace. *)
Lemma step_single_flight (H : Host) (a : Action) (w : World) :
  consistent w ->
  trace (step a w) = trace w ++ events_since w (step a w)
  /\ at_most_one_along (live_handles (trace w)) (events_since w (step a w))
     = true
  /\ consistent (step a w).
Proof.
  intros Hc. destruct a as [config|k o]; cbn [step].
  - destruct (generateVoice_single_flight H config w Hc)
      as (T & _ & _ & A & C & _).
    repeat split; assumption.
  - destruct (deliver_single_flight k o w Hc) as (T & A & C & _).
    repeat split; assumption.
Qed.

(** Whatever happens to the plugin, in whatever order, from a state in
    which the live handles are those of the store: at no time are two
    handles live, and the live handles stay those of the store. *)
Lemma run_single_flight (H : Host) (schedule : list Action) :
  forall w,
    consistent w ->
    trace (run schedule w) = trace w ++ events_since w (run schedule w)
    /\ at_most_one_along (live_handles (trace w))
         (events_since w (run schedule w)) = true
    /\ consistent (run schedule w).
Proof.
  induction schedule as [|a s IH]; intros w Hc.
  - cbn [run fold_left]. rewrite events_since_refl, app_nil_r.
    split; [reflexivity|]. split; [|exact Hc].
    unfold consistent in Hc. rewrite Hc.
    destruct (store_synthesizer (store w)); reflexivity.
  - change (run (a :: s) w) with (run s (step a w)).
    destruct (step_single_flight H a w Hc) as (T1 & A1 & C1).
    destruct (IH (step a w) C1) as (T2 & A2 & C2).
    assert (T : trace (run s (step a w))
                = trace w ++ events_since w (step a w)
                  ++ events_since (step a w) (run s (step a w))).
    { rewrite T2, T1 at 1. now rewrite <- app_assoc. }
    rewrite (events_since_app w _ _ T).
    split; [exact T|]. split; [|exact C2].
    apply at_most_one_along_app; [exact A1|].
    unfold live_handles in *. rewrite <- live_handles_from_app, <- T1.
    exact A2.
Qed.



(** A call returns the promise it has built. *)
Lemma generateVoice_returns (H : Host) (config : Config) (w : World) :
  fst (generateVoice config w) = Ok (length (promises w)).
Proof.
  unfold generateVoice, new_Promise.
  now destruct (executor config _ _) as [[u|e] w'].
Qed.

(** An invocation run to its end is the call and then the answer. *)
Lemma invocation_steps (H : Host) (config : Config) (o : Outcome) (w : World) :
  snd (invocation config o w)
  = run [Call config; Answer (length (pending w)) o] w.
Proof.
  cbn [run fold_left step]. unfold invocation, bind.
  pose proof (generateVoice_returns H config w) as E.
  destruct (generateVoice config w) as [r w1]. cbn [fst snd] in *. subst r.
  now destruct (deliver (length (pending w)) o w1) as [[u|e] w'].
Qed.

(** The requests under way after a call: its own is added when there is a
    text and the setup does not throw, and only then. *)
Lemma generateVoice_pending (H : Host) (config : Config) (w : World) :
  let w' := snd (generateVoice config w) in
  let ev := events_since w w' in
  (truthy_opt (text config) = true -> thrown ev = None ->
     pending w' = pending w ++ [own_request config w])
  /\ (truthy_opt (text config) = false -> pending w' = pending w)
  /\ (thrown ev <> None -> pending w' = pending w).
Proof.
  cbv zeta. destruct w as [[ac sy pl] n ps pd tr]. unfold own_request.
  cbn [pending next_id promises].
  destruct (truthy_opt (text config)) eqn:Ht.
  all: lifecycle_run (generateVoice config
                    {| store := {| store_audioConfig := ac;
                                   store_synthesizer := sy;
                                   store_playing := pl |};
                       next_id := n; promises := ps; pending := pd;
                       trace := tr |}).
  all: repeat split; try reflexivity; try congruence.
Qed.

(** The cleanup step of an invocation run to its end, on its terminal
    paths. *)
Lemma invocation_cleanup (H : Host) (config : Config) (o : Outcome)
    (w : World) :
  consistent w ->
  let w' := snd (invocation config o w) in
  let ev := events_since w w' in
  terminal config ev -> cleaned_up (callback config) w' ev.
Proof.
  cbv zeta. destruct w as [[ac sy pl] n ps pd tr].
  unfold consistent, cleaned_up, terminal.
  cbn [store store_synthesizer trace]. intros Hc.
  destruct (truthy_opt (text config)) eqn:Ht.
  - intros _.
    lifecycle_run (invocation config o
                    {| store := {| store_audioConfig := ac;
                                   store_synthesizer := sy;
                                   store_playing := pl |};
                       next_id := n; promises := ps; pending := pd;
                       trace := tr |}).
    all: lifecycle_live Hc; repeat split.
  - lifecycle_run (invocation config o
                    {| store := {| store_audioConfig := ac;
                                   store_synthesizer := sy;
                                   store_playing := pl |};
                       next_id := n; promises := ps; pending := pd;
                       trace := tr |}).
    all: intros [E|E]; try discriminate E; try congruence.
    all: lifecycle_live Hc; repeat split.
Qed.

(** C2.  On every terminal path the cleanup step runs.  From a state in
    which the live handles are those of the store - the state of a plugin
    that has just been loaded is one - let calls of [generateVoice] and
    answers of the SDK follow each other in any order; in the state [w]
    that is reached the live handles are still those of the store, and
    from there:
    - a call whose setup throws runs the cleanup step before it returns;
    - a call whose setup does not throw runs no cleanup step; with a text
      it leaves its request with the SDK, and the request carries the
      caller's function;
    - an answer of the SDK to a request under way, whatever the answer and
      whichever the request, runs the cleanup step with the function that
      the request carries;
    - so does an invocation that is run to its end on a terminal path.
    The cleanup step releases the synthesizer handle - the store holds none
    after it and no handle at all is live - and then calls the caller's
    function, if there is one, once, with no argument. *)
Theorem C2_generateVoice_cleanup (H : Host) (schedule : list Action)
    (w0 : World) :
  consistent w0 ->
  let w := run schedule w0 in
  consistent w
  /\ (forall config,
        let w' := snd (generateVoice config w) in
        let ev := events_since w w' in
        (thrown ev <> None -> cleaned_up (callback config) w' ev)
        /\ (thrown ev = None ->
            filter is_clear ev = []
            /\ (truthy_opt (text config) = true ->
                pending w' = pending w ++ [own_request config w]
                /\ req_callback (own_request config w) = callback config)
            /\ (truthy_opt (text config) = false -> pending w' = pending w)))
  /\ (forall k o req,
        nth_error (pending w) k = Some req ->
        let w' := snd (deliver k o w) in
        cleaned_up (req_callback req) w' (events_since w w'))
  /\ (forall config o,
        let w' := snd (invocation config o w) in
        let ev := events_since w w' in
        terminal config ev -> cleaned_up (callback config) w' ev).
Proof.
  intros Hc0. cbv zeta.
  destruct (run_single_flight H schedule w0 Hc0) as (_ & _ & Hc).
  split; [exact Hc|]. split; [|split].
  - intros config.
    destruct (generateVoice_single_flight H config _ Hc)
      as (_ & _ & _ & _ & _ & Ct & Cn & _).
    destruct (generateVoice_pending H config (run schedule w0))
      as (P1 & P2 & _).
    split; [exact Ct|]. intros E. destruct (Cn E) as (Cl & _).
    split; [exact Cl|]. split.
    + intros Ht. split; [exact (P1 Ht E)|reflexivity].
    + exact P2.
  - intros k o req Hnth.
    destruct (deliver_single_flight k o _ Hc) as (_ & _ & _ & Cu).
    exact (Cu req Hnth).
  - intros config o. exact (invocation_cleanup H config o _ Hc).
Qed.

(** C3, as the code has it.  An invocation without a text starts no
    synthesis and leaves no request for the SDK to answer; its promise
    stays pending for ever, unless a call of the setup throws: then it
    rejects with [false], after the error notice and the cleanup. *)
Theorem C3_generateVoice_empty_text (H : Host) (config : Config) (w : World) :
  truthy_opt (text config) = false ->
  let p := length (promises w) in
  let w' := snd (generateVoice config w) in
  let ev := events_since w w' in
  fst (generateVoice config w) = Ok p
  /\ filter is_speak ev = []
  /\ pending w' = pending w
  /\ (forall o, snd (invocation config o w) = w')
  /\ (thrown ev = None -> promise_state w' p = Pending)
  /\ (forall e, thrown ev = Some e ->
        promise_state w' p = Rejected (VBool false)
        /\ notices ev = [generateNoticeText e error]
        /\ filter is_clear ev = [EClearSynthesizer]).
Proof.
  intros Ht. cbv zeta. destruct w as [[ac sy pl] n ps pd tr].
  assert (Hinv : forall o,
    snd (invocation config o
           {| store := {| store_audioConfig := ac; store_synthesizer := sy;
                          store_playing := pl |};
              next_id := n; promises := ps; pending := pd; trace := tr |})
    = snd (generateVoice config
           {| store := {| store_audioConfig := ac; store_synthesizer := sy;
                          store_playing := pl |};
              next_id := n; promises := ps; pending := pd; trace := tr |})).
  { intros o. unfold invocation, bind at 1.
    lifecycle_run (generateVoice config
                    {| store := {| store_audioConfig := ac;
                                   store_synthesizer := sy;
                                   store_playing := pl |};
                       next_id := n; promises := ps; pending := pd;
                       trace := tr |}).
    all: reflexivity. }
  revert Hinv.
  lifecycle_run (generateVoice config
                    {| store := {| store_audioConfig := ac;
                                   store_synthesizer := sy;
                                   store_playing := pl |};
                       next_id := n; promises := ps; pending := pd;
                       trace := tr |}).
  all: intros Hinv; repeat split; try exact Hinv; intros; try split;
    try split; congruence.
Qed.


(** C3, against the claim as written: without a text and without a key,
    under an SDK that refuses an empty key, the promise is rejected. *)
Lemma C3_counterexample :
  truthy_opt (text empty_config) = false
  /\ promise_state (snd (@generateVoice strict_host empty_config fresh_world))
       (length (promises fresh_world))
     = Rejected (VBool false).
Proof. split; reflexivity. Qed.

(* ================================================================== *)
(** * The literals of the source, and the matcher on examples *)
(* ================================================================== *)

(** The three patterns above are what the constructor builds from the
    text of the literals in [src/utils.ts]. *)
Example re_parenthesized_source :
  new_RegExp (lit "\(.*\)") (lit "g") = Normal re_parenthesized.
Proof. reflexivity. Qed.

Example re_rule_source :
  new_RegExp (lit "^\/(.*)\/.*") (lit "g") = Normal re_rule.
Proof. reflexivity. Qed.

Example re_to_dash_source :
  new_RegExp (lit "(.*-)") (lit "g") = Normal re_to_dash.
Proof. reflexivity. Qed.

(** Backtracking, captures and the reset of captures in a loop, as
    ECMAScript has them. *)
Example replace_backtracking :
  match new_RegExp (lit "(a|ab)(c|bcd)(d*)") [] with
  | Normal re => String_replace (lit "xabcdx") re (lit "[$1,$2,$3,$&,$$,$4]")
  | _ => []
  end = lit "x[a,bcd,,abcd,$,$4]x".
Proof. reflexivity. Qed.

Example replace_capture_reset :
  match new_RegExp (lit "(z)((a+)?(b+)?(c))*") [] with
  | Normal re => String_replace (lit "zaacbbbcac") re (lit "[$1|$2|$3|$4|$5]")
  | _ => []
  end = lit "[z|ac|a||c]".
Proof. reflexivity. Qed.

Example replace_empty_matches :
  match new_RegExp (lit "a*") (lit "g") with
  | Normal re => String_replace (lit "baac") re (lit "-")
  | _ => []
  end = lit "-b--c-".
Proof. reflexivity. Qed.

Example handleTextFormat_invalid_rule :
  handleTextFormat (lit "text") (lit "/(/") = ThrowSyntaxError.
Proof. reflexivity. Qed.

(* ================================================================== *)
(** * The theorems at concrete inputs *)
(* ================================================================== *)

Lemma single_line_forallb s :
  forallb (fun x => negb (isLineTerminator x)) s = true -> single_line s.
Proof.
  intros H x Hx. rewrite forallb_forall in H. specialize (H x Hx).
  now destruct (isLineTerminator x).
Qed.

Lemma not_in_existsb (c : ascii) s :
  existsb (Ascii.eqb c) s = false -> ~ In c s.
Proof.
  intros H Hin. assert (E : existsb (Ascii.eqb c) s = true).
  { apply existsb_exists. exists c. split; [exact Hin|apply Ascii.eqb_refl]. }
  congruence.
Qed.

Lemma rule_literal_check rule p f :
  str_eqb rule (lit "/" ++ p ++ lit "/" ++ f) = true ->
  forallb (fun x => negb (isLineTerminator x)) p = true ->
  forallb isAsciiLetter f = true ->
  rule_literal rule p f.
Proof.
  intros E Hp Hf. split; [now apply str_eqb_eq|].
  split; [now apply single_line_forallb|].
  now apply forallb_forall.
Qed.

(** C1 in the scenario of the specification: the synthesis completes and
    the notice names "/out/note1.mp3". *)
Lemma C1_witness :
  truthy_opt (text note1_config) = true
  /\ promise_state
       (snd (@invocation example_host note1_config
               (Completed SynthesizingAudioCompleted) fresh_world)) 0
     = Fulfilled (VBool true)
  /\ notices
       (events_since fresh_world
          (snd (@invocation example_host note1_config
                  (Completed SynthesizingAudioCompleted) fresh_world)))
     = [{| span_text := lit "Synthesis succeeded. Saved to /out/note1.mp3";
           span_className := lit "ob-t2v-success" |}].
Proof.
  pose proof (C1_generateVoice_settles example_host note1_config
                (Completed SynthesizingAudioCompleted) fresh_world eq_refl)
    as (_ & H1 & H2 & _).
  cbv zeta in H1, H2.
  assert (E : promise_state
       (snd (@invocation example_host note1_config
               (Completed SynthesizingAudioCompleted) fresh_world)) 0
     = Fulfilled (VBool true)) by (apply H1; split; reflexivity).
  split; [reflexivity|]. split; [exact E|]. exact (H2 E).
Defined.

(** C2 on two calls of the scenario, the second before the first is
    answered: the answer to the first request, a failure, runs the
    cleanup step; no handle is live after it, and the caller's function
    is called once, with no argument. *)
Lemma C2_witness :
  let w := @run example_host [Call note1_config; Call note1_config]
             fresh_world in
  let w' := snd (deliver 0 (Failed (lit "timeout")) w) in
  consistent fresh_world
  /\ store_synthesizer (store w') = None
  /\ live_handles (trace w') = []
  /\ filter is_clear (events_since w w') = [EClearSynthesizer]
  /\ filter is_callback (before_clear (events_since w w')) = []
  /\ filter is_callback (after_clear (events_since w w')) = [ECallback 7 []].
Proof.
  cbv zeta.
  destruct (C2_generateVoice_cleanup example_host
              [Call note1_config; Call note1_config] fresh_world eq_refl)
    as (_ & _ & A & _).
  split; [reflexivity|].
  exact (A 0 (Failed (lit "timeout"))
           (@own_request example_host note1_config fresh_world) eq_refl).
Defined.

(** C3 under an SDK that does not throw: no synthesis, and the promise
    stays pending. *)
Lemma C3_witness :
  truthy_opt (text empty_config) = false
  /\ promise_state (snd (@generateVoice example_host empty_config fresh_world)) 0
     = Pending
  /\ filter is_speak
       (events_since fresh_world
          (snd (@generateVoice example_host empty_config fresh_world))) = [].
Proof.
  destruct (C3_generateVoice_empty_text example_host empty_config fresh_world
              eq_refl) as (_ & S & _ & _ & P & _).
  split; [reflexivity|]. split; [apply P; reflexivity|exact S].
Defined.


(** C5 on a document of one line: the text after the cursor. *)
Lemma C5_witness :
  getSelection example_editor = []
  /\ getSelectedText after (Some example_editor) = lit "world".
Proof.
  destruct (C5_getSelectedText_spec after example_editor)
    as (_ & _ & _ & _ & A & _).
  split; [reflexivity|]. rewrite (A eq_refl). reflexivity.
Defined.

(** C7 on the rule of the scenario, with a flag. *)
Lemma C7_witness :
  lit "a   b" ++ [TAB] ++ lit "c" <> []
  /\ rule_literal (lit "/[ \t]+/g") (lit "[ \t]+") (lit "g")
  /\ handleTextFormat (lit "a   b" ++ [TAB] ++ lit "c") (lit "/[ \t]+/g")
     = Normal (lit "a b c").
Proof.
  assert (T : lit "a   b" ++ [TAB] ++ lit "c" <> []) by discriminate.
  assert (R : rule_literal (lit "/[ \t]+/g") (lit "[ \t]+") (lit "g"))
    by (apply rule_literal_check; reflexivity).
  split; [exact T|]. split; [exact R|].
  rewrite (proj1 (C7_handleTextFormat_literal_rule _ _ _ _ T R)).
  reflexivity.
Defined.

(** C8 on 3 November 2026, 07:05:09. *)
Lemma C8_witness :
  valid_date example_date
  /\ (1000 <= getFullYear example_date <= 9999)%Z
  /\ getDefaultFiletime example_date = lit "20261103070509".
Proof.
  assert (V : valid_date example_date) by (unfold valid_date; simpl; lia).
  assert (Y : (1000 <= getFullYear example_date <= 9999)%Z) by (simpl; lia).
  split; [exact V|]. split; [exact Y|].
  rewrite (proj1 (C8_getDefaultFiletime_spec example_date V Y)).
  reflexivity.
Defined.

(** C9 on a voice of the plugin. *)
Lemma C9_witness :
  ~ In "("%char (lit "zh-CN-XiaoxiaoNeural ")
  /\ single_line (lit "Female")
  /\ getVoiceName (lit "zh-CN-XiaoxiaoNeural " ++ lit "(" ++ lit "Female"
                   ++ lit ")")
     = lit "zh-CN-XiaoxiaoNeural ".
Proof.
  assert (N : ~ In "("%char (lit "zh-CN-XiaoxiaoNeural "))
    by (apply not_in_existsb; reflexivity).
  assert (S : single_line (lit "Female"))
    by (apply single_line_forallb; reflexivity).
  split; [exact N|]. split; [exact S|].
  exact (proj1 (C9_getVoiceName_strips_suffix _ _ N S)).
Defined.

(** C10 on a rule that is a bare pattern. *)
Lemma C10_witness :
  lit "a-b-c" <> []
  /\ lit "-" <> []
  /\ ~ (exists p f, lit "-" = lit "/" ++ p ++ lit "/" ++ f)
  /\ handleTextFormat (lit "a-b-c") (lit "-") = Normal (lit "a b c").
Proof.
  assert (T : lit "a-b-c" <> []) by discriminate.
  assert (R : lit "-" <> []) by discriminate.
  assert (S : ~ (exists p f, lit "-" = lit "/" ++ p ++ lit "/" ++ f))
    by (intros (p & f & E); discriminate E).
  split; [exact T|]. split; [exact R|]. split; [exact S|].
  rewrite (proj1 (C10_handleTextFormat_verbatim_rule _ _ T R S)).
  reflexivity.
Defined.

(* ================================================================== *)
(** * Further properties of the string helpers *)
(* ================================================================== *)

(** ** [handleTextFormat] *)

Lemma replace_loop_no_match fuel re repl pre rest :
  exec_from (re_flags re) (re_pattern re) pre rest = None ->
  replace_loop fuel re repl pre rest = rest.
Proof. intros H. destruct fuel; cbn [replace_loop]; [reflexivity|]. now rewrite H. Qed.

Lemma matched_between_start r c r' caps :
  matched_between (start_state [] r)
                  {| consumed := c; remaining := r'; captures := caps |}
  = rev c.
Proof.
  unfold matched_between. simpl. now rewrite Nat.sub_0_r, firstn_all.
Qed.

Lemma rule_hit_line p f rest :
  single_line p -> single_line f -> ~ In "/"%char f -> line_stop rest ->
  rmatch flags_g (re_pattern re_rule) Some
    (start_state [] ("/"%char :: (p ++ "/"%char :: f) ++ rest))
  = Some {| consumed := (rev f ++ "/"%char :: rev p) ++ ["/"%char];
            remaining := rest; captures := [(1, p)] |}.
Proof.
  intros Hp Hf Hs Hr. rewrite rule_unfold.
  assert (Hrs : starts_with "/" rest = false).
  { destruct rest as [|x r]; [reflexivity|]. simpl in Hr. simpl.
    apply Ascii.eqb_neq. intros E. subst x. discriminate Hr. }
  rewrite rmatch_star_dot; [|reflexivity| |exact Hr].
  - apply (try_splits_last "/"); auto using needs_rule_tail.
    unfold rule_tail, set_capture. cbn [consumed remaining captures].
    rewrite (matched_between_app ["/"%char] _ _ (rev p)).
    rewrite rev_involutive.
    rewrite rmatch_Seq, rmatch_Chr_cons. simpl Ascii.eqb. cbv iota.
    rewrite rmatch_star_dot; [|reflexivity|assumption|exact Hr].
    rewrite try_splits_all. rewrite <- !app_assoc. reflexivity.
  - apply single_line_app. split; [assumption|].
    intros x [<-|Hx]; [reflexivity|auto].
Qed.

Lemma rule_extract_line p f rest :
  single_line p -> single_line f -> ~ In "/"%char f -> line_stop rest ->
  String_replace (lit "/" ++ p ++ lit "/" ++ f ++ rest) re_rule (lit "$1")
  = p ++ rest.
Proof.
  intros Hp Hf Hs Hr. unfold String_replace.
  change (global (re_flags re_rule)) with true. cbv iota.
  cbn [replace_loop].
  change (re_flags re_rule) with flags_g.
  replace (lit "/" ++ p ++ lit "/" ++ f ++ rest)
    with ("/"%char :: (p ++ "/"%char :: f) ++ rest)
    by (simpl; now rewrite <- app_assoc).
  unfold exec_from at 1; fold exec_from.
  rewrite rule_hit_line by assumption.
  cbn [skipped matched mend consumed remaining captures].
  change (re_groups re_rule) with 1. rewrite GetSubstitution_group1.
  cbn [mend captures capture_text find fst snd Nat.eqb app].
  rewrite matched_between_start, rev_app_distr. cbn [rev app].
  destruct ((rev f ++ "/"%char :: rev p) ++ ["/"%char]) eqn:E2.
  - destruct (rev f); discriminate E2.
  - now rewrite replace_loop_no_match by apply rule_exec_later.
Qed.

(** X1.  The flags written in a rule never reach the text: two rules with
    the same pattern between their slashes give the same result, whatever
    flags follow. *)
Theorem X1_handleTextFormat_flags_ignored (text r1 r2 p f1 f2 : str) :
  rule_literal r1 p f1 ->
  rule_literal r2 p f2 ->
  handleTextFormat text r1 = handleTextFormat text r2.
Proof.
  intros H1 H2.
  apply rule_literal_parts in H1. destruct H1 as (-> & Hp & Hf1 & Hs1).
  apply rule_literal_parts in H2. destruct H2 as (-> & _ & Hf2 & Hs2).
  unfold handleTextFormat. destruct text as [|c t]; [reflexivity|].
  rewrite !rule_extract by assumption. reflexivity.
Qed.

(** X2.  Of a rule of several lines only the first is taken as a literal:
    the pattern is what stands between the slashes of the first line,
    followed by the line terminator and all later lines as they are
    written. *)
Theorem X2_handleTextFormat_rule_of_lines (text p f rest : str) :
  text <> [] ->
  single_line p -> single_line f -> ~ In "/"%char f ->
  line_stop rest ->
  handleTextFormat text (lit "/" ++ p ++ lit "/" ++ f ++ rest)
  = match new_RegExp (p ++ rest) (lit "gi") with
    | Normal re => Normal (String_replace text re (lit " "))
    | ThrowSyntaxError => ThrowSyntaxError
    | Unmodelled => Unmodelled
    end.
Proof.
  intros Ht Hp Hf Hs Hr. unfold handleTextFormat.
  destruct text as [|c t]; [congruence|].
  rewrite rule_extract_line by assumption. reflexivity.
Qed.

Lemma exec_from_Empty fl pre rest :
  exec_from fl Empty pre rest
  = Some {| skipped := []; matched := [];
            mend := start_state pre rest |}.
Proof.
  destruct rest as [|x rest]; cbn [exec_from rmatch];
    unfold matched_between; now rewrite Nat.sub_diag.
Qed.

Lemma replace_loop_Empty fl t :
  forall fuel pre, length t < fuel ->
    replace_loop fuel {| re_pattern := Empty; re_groups := 0; re_flags := fl |}
      (lit " ") pre t
    = spaced t.
Proof.
  induction t as [|c t IH]; intros fuel pre Hf.
  - destruct fuel as [|fuel]; [lia|].
    cbn [replace_loop re_flags re_pattern]. rewrite exec_from_Empty. reflexivity.
  - destruct fuel as [|fuel]; [lia|].
    cbn [replace_loop re_flags re_pattern]. rewrite exec_from_Empty.
    cbn [skipped matched mend start_state remaining consumed app re_groups].
    cbn [GetSubstitution lit list_ascii_of_string Ascii.eqb Bool.eqb app].
    simpl. rewrite IH by (simpl in Hf; lia). reflexivity.
Qed.

(** X3.  A rule with nothing between its slashes does not leave the text
    alone: the empty pattern matches at every position, and the result has
    a space before every code unit of the text and one at its end. *)
Theorem X3_handleTextFormat_empty_pattern (text flags : str) :
  text <> [] ->
  (forall c, In c flags -> isAsciiLetter c = true) ->
  handleTextFormat text (lit "//" ++ flags) = Normal (spaced text).
Proof.
  intros Ht Hf.
  assert (Hr : rule_literal (lit "//" ++ flags) [] flags).
  { repeat split; auto. intros x []. }
  apply rule_literal_parts in Hr. destruct Hr as (_ & Hp & Hf' & Hs).
  unfold handleTextFormat. destruct text as [|c t]; [congruence|].
  change (lit "//" ++ flags) with (lit "/" ++ [] ++ lit "/" ++ flags).
  rewrite rule_extract by assumption.
  change (new_RegExp [] (lit "gi"))
    with (Normal {| re_pattern := Empty; re_groups := 0;
                    re_flags := {| global := true; ignoreCase := true;
                                   multiline := false; dotAll := false |} |}).
  unfold String_replace. cbn [re_flags global].
  rewrite replace_loop_Empty by lia. reflexivity.
Qed.

(** ** [getVoiceName] *)

Lemma parenthesized_span pre inside tail rest :
  single_line inside -> single_line tail -> ~ In ")"%char tail ->
  line_stop rest ->
  rmatch flags_g (re_pattern re_parenthesized) Some
    (start_state pre ("("%char :: (inside ++ ")"%char :: tail) ++ rest))
  = Some {| consumed := (")"%char :: rev inside ++ ["("%char]) ++ pre;
            remaining := tail ++ rest; captures := [] |}.
Proof.
  intros Hi Ht Hn Hr. unfold re_parenthesized, start_state. simpl re_pattern.
  rewrite rmatch_Seq, rmatch_Chr_cons. simpl Ascii.eqb. cbv iota.
  rewrite rmatch_Seq.
  assert (Hrs : starts_with ")" rest = false).
  { destruct rest as [|x r]; [reflexivity|]. simpl in Hr. simpl.
    apply Ascii.eqb_neq. intros E. subst x. discriminate Hr. }
  rewrite rmatch_star_dot; [|reflexivity| |exact Hr].
  - apply (try_splits_last ")"); [apply needs_Chr|exact Hn|exact Hrs|].
    rewrite rmatch_Chr_cons. simpl Ascii.eqb. cbv iota.
    simpl. rewrite <- app_assoc. reflexivity.
  - apply single_line_app. split; [exact Hi|].
    intros x [<-|Hx]; [reflexivity|auto].
Qed.

(** No match starts inside a line that has no closing parenthesis after
    the position. *)
Lemma parenthesized_open pre line rest :
  single_line line -> ~ In ")"%char line -> line_stop rest ->
  rmatch flags_g (re_pattern re_parenthesized) Some
    (start_state pre (line ++ rest)) = None
  \/ line = [].
Proof.
  intros Hl Hn Hr. destruct line as [|x l]; [now right|]. left.
  destruct (ascii_dec x "(") as [->|Hx]; [|now apply parenthesized_miss].
  unfold re_parenthesized, start_state. simpl re_pattern. simpl app.
  rewrite rmatch_Seq, rmatch_Chr_cons. simpl Ascii.eqb. cbv iota.
  rewrite rmatch_Seq.
  apply single_line_cons in Hl. destruct Hl as [_ Hl].
  rewrite rmatch_star_dot; [|reflexivity|exact Hl|exact Hr].
  apply (try_splits_none ")"); [apply needs_Chr| |].
  - intros H. apply Hn. now right.
  - destruct rest as [|x r]; [reflexivity|]. simpl in Hr. simpl.
    apply Ascii.eqb_neq. intros E. subst x. discriminate Hr.
Qed.

Lemma parenthesized_exec_open line :
  forall pre,
    single_line line -> ~ In ")"%char line ->
    exec_from flags_g (re_pattern re_parenthesized) pre line = None.
Proof.
  intros pre Hl Hn. apply exec_from_none. intros u1 u2 E.
  subst line. apply single_line_app in Hl. destruct Hl as [_ Hl].
  assert (Hn2 : ~ In ")"%char u2) by (intros H; apply Hn, in_or_app; now right).
  destruct (parenthesized_open (rev u1 ++ pre) u2 [] Hl Hn2 I) as [H| ->].
  - now rewrite app_nil_r in H.
  - apply parenthesized_miss_nil.
Qed.

Lemma getVoiceName_span name inside tail :
  ~ In "("%char name -> single_line inside -> single_line tail ->
  ~ In ")"%char tail ->
  getVoiceName (name ++ lit "(" ++ inside ++ lit ")" ++ tail) = name ++ tail.
Proof.
  intros Hname Hi Ht Hn. unfold getVoiceName, String_replace.
  change (global (re_flags re_parenthesized)) with true. cbv iota.
  cbn [replace_loop].
  change (re_flags re_parenthesized) with flags_g.
  rewrite exec_from_skip.
  - replace (lit "(" ++ inside ++ lit ")" ++ tail)
      with ("("%char :: (inside ++ ")"%char :: tail) ++ [])
      by (simpl; now rewrite app_nil_r).
    unfold exec_from at 1; fold exec_from.
    rewrite parenthesized_span by (assumption || exact I).
    unfold start_state at 1. rewrite matched_between_app.
    cbn [shift skipped matched mend consumed remaining].
    replace (rev (")"%char :: rev inside ++ ["("%char]))
      with ("("%char :: inside ++ [")"%char])
      by (simpl; rewrite rev_app_distr, rev_involutive; reflexivity).
    cbn [GetSubstitution]. rewrite app_nil_r.
    rewrite replace_loop_no_match; [now rewrite app_nil_r|].
    rewrite (app_nil_r tail).
    apply parenthesized_exec_open; assumption.
  - intros u1 x u2 E. apply parenthesized_miss.
    intros ->. apply Hname. rewrite E. apply in_or_app. right. now left.
Qed.

(** A line on which no closing parenthesis follows an opening one has no
    match. *)
Lemma getVoiceName_no_pair name tail :
  ~ In "("%char name -> single_line tail -> ~ In ")"%char tail ->
  getVoiceName (name ++ tail) = name ++ tail.
Proof.
  intros Hname Ht Hn. unfold getVoiceName, String_replace.
  change (global (re_flags re_parenthesized)) with true. cbv iota.
  cbn [replace_loop].
  change (re_flags re_parenthesized) with flags_g.
  rewrite exec_from_skip.
  - rewrite parenthesized_exec_open by assumption. reflexivity.
  - intros u1 x u2 E. apply parenthesized_miss.
    intros ->. apply Hname. rewrite E. apply in_or_app. right. now left.
Qed.

Lemma first_occurrence (c : ascii) (s : str) :
  ~ In c s \/ exists a b, s = a ++ c :: b /\ ~ In c a.
Proof.
  induction s as [|x s IH].
  - left. intros [].
  - destruct (ascii_dec x c) as [->|Hx].
    + right. exists [], s. split; [reflexivity|intros []].
    + destruct IH as [Hn | (a & b & -> & Ha)].
      * left. intros [H|H]; auto.
      * right. exists (x :: a), b. split; [reflexivity|].
        intros [H|H]; auto.
Qed.

(** X4.  On a voice identifier of one line, [getVoiceName] removes
    everything from the first opening parenthesis to the last closing one,
    the text between two parenthesized parts included, and keeps what
    follows; applied to its own result it changes nothing. *)
Theorem X4_getVoiceName_span_idempotent (voice : str) :
  single_line voice ->
  (forall name inside tail,
      voice = name ++ lit "(" ++ inside ++ lit ")" ++ tail ->
      ~ In "("%char name -> ~ In ")"%char tail ->
      getVoiceName voice = name ++ tail)
  /\ getVoiceName (getVoiceName voice) = getVoiceName voice.
Proof.
  intros Hv. split.
  - intros name inside tail -> Hname Htail.
    apply single_line_app in Hv. destruct Hv as [_ Hv].
    change (lit "(" ++ inside ++ lit ")" ++ tail)
      with ("("%char :: inside ++ ")"%char :: tail) in Hv.
    apply single_line_cons in Hv. destruct Hv as [_ Hv].
    apply single_line_app in Hv. destruct Hv as [Hi Hv].
    apply single_line_cons in Hv. destruct Hv as [_ Ht].
    now apply getVoiceName_span.
  - destruct (first_occurrence "(" voice) as [Hn | (name & r & -> & Hname)].
    + rewrite (getVoiceName_unchanged voice Hn).
      exact (getVoiceName_unchanged voice Hn).
    + apply single_line_app in Hv. destruct Hv as [_ Hv].
      apply single_line_cons in Hv. destruct Hv as [_ Hr].
      destruct (last_occurrence ")" r) as [Hn | (inside & tail & -> & Htail)].
      * assert (E : getVoiceName (name ++ "("%char :: r) = name ++ "("%char :: r).
        { unfold getVoiceName, String_replace.
          change (global (re_flags re_parenthesized)) with true. cbv iota.
          cbn [replace_loop].
          change (re_flags re_parenthesized) with flags_g.
          rewrite exec_from_skip.
          - rewrite parenthesized_exec_open; [reflexivity| |].
            + intros x [<-|Hx]; [reflexivity|auto].
            + intros [H|H]; [discriminate H|auto].
          - intros u1 x u2 E. apply parenthesized_miss.
            intros ->. apply Hname. rewrite E. apply in_or_app. right. now left. }
        now rewrite !E.
      * apply single_line_app in Hr. destruct Hr as [Hi Hr].
        apply single_line_cons in Hr. destruct Hr as [_ Ht].
        change (name ++ "("%char :: inside ++ ")"%char :: tail)
          with (name ++ lit "(" ++ inside ++ lit ")" ++ tail).
        rewrite getVoiceName_span by assumption.
        now apply getVoiceName_no_pair.
Qed.

(** ** [getSelectedText] *)

Lemma trimStart_blank s : blank s -> trimStart s = [].
Proof.
  induction 1 as [|c s Hc _ IH]; [reflexivity|]. simpl. now rewrite Hc.
Qed.

Lemma trim_blank s : blank s -> trim s = [].
Proof. intros H. unfold trim. now rewrite trimStart_blank. Qed.

(** X5.  A selection that only holds blanks and line breaks still takes
    precedence over the range of the scope: the result is empty for every
    scope, whatever text stands before or after the cursor. *)
Theorem X5_getSelectedText_blank_selection (scope : ReadScope)
    (editor : Editor) :
  getSelection editor <> [] ->
  blank (getSelection editor) ->
  getSelectedText scope (Some editor) = [].
Proof.
  intros Hsel Hb. unfold getSelectedText.
  destruct (getSelection editor) as [|c s] eqn:E; [congruence|].
  destruct scope; cbn [truthy]; now apply trim_blank.
Qed.

(** X6.  The later [getSelectedText], which knows the scope "off", agrees
    with the earlier version of the function on the two scopes that the
    earlier one has. *)
Theorem X6_getSelectedText_agrees_with_earlier (s : Earlier.BeforeOrAfter)
    (editor : option Editor) :
  Utils.getSelectedText (Earlier.later_scope s) editor
  = Earlier.getSelectedText s editor.
Proof.
  destruct editor as [e|]; [|reflexivity].
  destruct s; reflexivity.
Qed.

(** ** [getDefaultFiletime] *)

Lemma getDefaultFiletime_time (d : Date) :
  valid_date d ->
  getDefaultFiletime d = Number_toString (getFullYear d) ++ time_digits d.
Proof.
  intros (Hm & Hd & Hh & Hmi & Hs).
  unfold getDefaultFiletime, time_digits. cbv zeta.
  rewrite !formatTimeNumber_two by lia. reflexivity.
Qed.

Lemma digit_inj a b :
  (0 <= a <= 9)%Z -> (0 <= b <= 9)%Z -> digit a = digit b -> a = b.
Proof.
  intros Ha Hb E. unfold digit in E.
  apply (f_equal nat_of_ascii) in E.
  rewrite !nat_ascii_embedding in E by lia. lia.
Qed.

Lemma two_digits_inj a b :
  (0 <= a <= 99)%Z -> (0 <= b <= 99)%Z -> two_digits a = two_digits b -> a = b.
Proof.
  intros Ha Hb E. unfold two_digits in E.
  injection E as E1 E2.
  apply digit_inj in E1; [|Z.div_mod_to_equations; lia..].
  apply digit_inj in E2; [|Z.div_mod_to_equations; lia..].
  Z.div_mod_to_equations; lia.
Qed.

Lemma four_digits_inj a b :
  (1000 <= a <= 9999)%Z -> (1000 <= b <= 9999)%Z ->
  four_digits a = four_digits b -> a = b.
Proof.
  intros Ha Hb E. unfold four_digits in E.
  injection E as E1 E2 E3 E4.
  apply digit_inj in E1; [|Z.div_mod_to_equations; lia..].
  apply digit_inj in E2; [|Z.div_mod_to_equations; lia..].
  apply digit_inj in E3; [|Z.div_mod_to_equations; lia..].
  apply digit_inj in E4; [|Z.div_mod_to_equations; lia..].
  Z.div_mod_to_equations; lia.
Qed.

(** X7.  Two valid dates of years with four digits that differ in any
    field, down to the second, get different file times. *)
Theorem X7_getDefaultFiletime_injective (d1 d2 : Date) :
  valid_date d1 -> valid_date d2 ->
  (1000 <= getFullYear d1 <= 9999)%Z ->
  (1000 <= getFullYear d2 <= 9999)%Z ->
  getDefaultFiletime d1 = getDefaultFiletime d2 ->
  d1 = d2.
Proof.
  intros V1 V2 Y1 Y2 E.
  rewrite !getDefaultFiletime_time in E by assumption.
  rewrite !Number_toString_four in E by assumption.
  destruct V1 as (Hm1 & Hd1 & Hh1 & Hmi1 & Hs1).
  destruct V2 as (Hm2 & Hd2 & Hh2 & Hmi2 & Hs2).
  destruct d1 as [y1 m1 a1 h1 i1 s1], d2 as [y2 m2 a2 h2 i2 s2].
  unfold time_digits in E.
  cbn [getFullYear getMonth getDate getHours getMinutes getSeconds] in *.
  unfold four_digits, two_digits in E.
  cbn [app] in E.
  injection E as Ey1 Ey2 Ey3 Ey4 Em1 Em2 Ed1 Ed2 Eh1 Eh2 Ei1 Ei2 Es1 Es2.
  assert (Ey : y1 = y2).
  { apply four_digits_inj; auto. unfold four_digits. congruence. }
  assert (Em : (m1 + 1 = m2 + 1)%Z).
  { apply two_digits_inj; [lia|lia|]. unfold two_digits. congruence. }
  assert (Ed : a1 = a2).
  { apply two_digits_inj; [lia|lia|]. unfold two_digits. congruence. }
  assert (Eh : h1 = h2).
  { apply two_digits_inj; [lia|lia|]. unfold two_digits. congruence. }
  assert (Ei : i1 = i2).
  { apply two_digits_inj; [lia|lia|]. unfold two_digits. congruence. }
  assert (Es : s1 = s2).
  { apply two_digits_inj; [lia|lia|]. unfold two_digits. congruence. }
  f_equal; lia.
Qed.

Lemma digits_fuel_short fuel :
  forall n k, (0 <= n < 10 ^ Z.of_nat (S k))%Z ->
    length (digits_fuel fuel n) <= S k.
Proof.
  induction fuel as [|f IH]; intros n k Hn; [simpl; lia|].
  cbn [digits_fuel]. destruct (n <? 10)%Z eqn:E; [simpl; lia|].
  apply Z.ltb_ge in E. rewrite length_app. cbn [length].
  destruct k as [|k]; [simpl in Hn; lia|].
  enough (length (digits_fuel f (n / 10)) <= S k) by lia.
  apply IH. rewrite Nat2Z.inj_succ, Z.pow_succ_r in Hn by lia.
  split; [apply Z.div_pos; lia|].
  apply Z.div_lt_upper_bound; lia.
Qed.

Lemma digits_fuel_long k :
  forall fuel n, (10 ^ Z.of_nat k <= n)%Z -> k < fuel ->
    k < length (digits_fuel fuel n).
Proof.
  induction k as [|k IH]; intros fuel n Hn Hf.
  - destruct fuel as [|f]; [lia|]. cbn [digits_fuel].
    destruct (n <? 10)%Z; [simpl; lia|]. rewrite length_app. simpl. lia.
  - destruct fuel as [|f]; [lia|]. cbn [digits_fuel].
    rewrite Nat2Z.inj_succ, Z.pow_succ_r in Hn by lia.
    assert (0 < 10 ^ Z.of_nat k)%Z by (apply Z.pow_pos_nonneg; lia).
    replace (n <? 10)%Z with false by (symmetry; apply Z.ltb_ge; lia).
    rewrite length_app. cbn [length].
    enough (k < length (digits_fuel f (n / 10))) by lia.
    apply IH; [|lia]. apply Z.div_le_lower_bound; lia.
Qed.

Lemma time_digits_length d : length (time_digits d) = 10.
Proof. reflexivity. Qed.

Lemma time_digits_digits d :
  valid_date d -> forallb isDigit (time_digits d) = true.
Proof.
  intros (Hm & Hd & Hh & Hmi & Hs). unfold time_digits.
  rewrite !forallb_app, !two_digits_digits by lia. reflexivity.
Qed.

(** X8.  For a valid date the file time is fourteen digits exactly when the
    year has four digits; the month, day, hour, minutes and seconds always
    fill the last ten places, and the year is written as it is, without
    padding and with its sign. *)
Theorem X8_getDefaultFiletime_fourteen_digits (d : Date) :
  valid_date d ->
  (length (getDefaultFiletime d) = 14
   /\ forallb isDigit (getDefaultFiletime d) = true
   <-> (1000 <= getFullYear d <= 9999)%Z)
  /\ getDefaultFiletime d = Number_toString (getFullYear d) ++ time_digits d
  /\ length (time_digits d) = 10.
Proof.
  intros Hv. pose proof (getDefaultFiletime_time d Hv) as E.
  split; [|split; [exact E|reflexivity]].
  rewrite E, length_app, time_digits_length, forallb_app.
  split.
  - intros [HL HD]. apply andb_prop in HD. destruct HD as [HD _].
    set (y := getFullYear d) in *.
    destruct (Z.ltb_spec y 0) as [Hneg|Hpos].
    { unfold Number_toString in HD.
      replace (y <? 0)%Z with true in HD by (symmetry; apply Z.ltb_lt; lia).
      discriminate HD. }
    destruct (Z.ltb_spec y 1000) as [Hlo|Hlo].
    { exfalso. unfold Number_toString in HL.
      replace (y <? 0)%Z with false in HL by (symmetry; apply Z.ltb_ge; lia).
      pose proof (digits_fuel_short (S (Z.to_nat (Z.log2 y))) y 2) as B.
      change (10 ^ Z.of_nat 3)%Z with 1000%Z in B. lia. }
    destruct (Z.ltb_spec 9999 y) as [Hhi|Hhi]; [|lia].
    exfalso. unfold Number_toString in HL.
    replace (y <? 0)%Z with false in HL by (symmetry; apply Z.ltb_ge; lia).
    pose proof (digits_fuel_long 4 (S (Z.to_nat (Z.log2 y))) y) as B.
    change (10 ^ Z.of_nat 4)%Z with 10000%Z in B.
    destruct (log2_fuel y 13) as (f & Ef); [simpl; lia|].
    lia.
  - intros Hy. rewrite Number_toString_four by assumption.
    rewrite four_digits_digits, time_digits_digits by assumption.
    split; reflexivity.
Qed.

Lemma code_digit z : (0 <= z <= 9)%Z -> code (digit z) = 48 + Z.to_nat z.
Proof.
  intros H. unfold code, digit. apply nat_ascii_embedding. lia.
Qed.

Lemma str_ltb_app a1 :
  forall a2 b1 b2, length a1 = length a2 ->
    str_ltb (a1 ++ b1) (a2 ++ b2)
    = if list_eq_dec ascii_dec a1 a2 then str_ltb b1 b2 else str_ltb a1 a2.
Proof.
  induction a1 as [|x a1 IH]; intros [|y a2] b1 b2 L; try discriminate L.
  - simpl. destruct (list_eq_dec ascii_dec [] []); [reflexivity|congruence].
  - simpl in L. injection L as L. cbn [app str_ltb].
    rewrite (IH a2 b1 b2 L).
    destruct (Nat.ltb_spec (code x) (code y)) as [Hxy|Hxy].
    + destruct (list_eq_dec ascii_dec (x :: a1) (y :: a2)) as [E|_];
        [|reflexivity].
      injection E as -> _. lia.
    + destruct (Nat.ltb_spec (code y) (code x)) as [Hyx|Hyx].
      * destruct (list_eq_dec ascii_dec (x :: a1) (y :: a2)) as [E|_];
          [|reflexivity].
        injection E as -> _. lia.
      * assert (E : x = y).
        { unfold code in *. rewrite <- (ascii_nat_embedding x),
            <- (ascii_nat_embedding y). f_equal. lia. }
        subst y.
        destruct (list_eq_dec ascii_dec a1 a2) as [E|N];
          destruct (list_eq_dec ascii_dec (x :: a1) (x :: a2)) as [E'|N'];
          try reflexivity; congruence.
Qed.

Lemma str_ltb_digit a b :
  (0 <= a <= 9)%Z -> (0 <= b <= 9)%Z ->
  forall s t,
    str_ltb (digit a :: s) (digit b :: t)
    = if (a <? b)%Z then true else if (b <? a)%Z then false else str_ltb s t.
Proof.
  intros Ha Hb s t. cbn [str_ltb]. rewrite !code_digit by assumption.
  destruct (Nat.ltb_spec (48 + Z.to_nat a) (48 + Z.to_nat b));
    destruct (Nat.ltb_spec (48 + Z.to_nat b) (48 + Z.to_nat a));
    destruct (Z.ltb_spec a b); destruct (Z.ltb_spec b a);
    try reflexivity; lia.
Qed.

Lemma str_ltb_two_digits a b :
  (0 <= a <= 99)%Z -> (0 <= b <= 99)%Z ->
  str_ltb (two_digits a) (two_digits b) = (a <? b)%Z.
Proof.
  intros Ha Hb. unfold two_digits.
  rewrite !str_ltb_digit by (Z.div_mod_to_equations; lia).
  cbn [str_ltb].
  destruct (Z.ltb_spec (a / 10) (b / 10)); destruct (Z.ltb_spec (b / 10) (a / 10));
    destruct (Z.ltb_spec (a mod 10) (b mod 10));
    destruct (Z.ltb_spec (b mod 10) (a mod 10));
    destruct (Z.ltb_spec a b); try reflexivity;
    Z.div_mod_to_equations; lia.
Qed.

Lemma str_ltb_four_digits a b :
  (1000 <= a <= 9999)%Z -> (1000 <= b <= 9999)%Z ->
  str_ltb (four_digits a) (four_digits b) = (a <? b)%Z.
Proof.
  intros Ha Hb. unfold four_digits.
  rewrite !str_ltb_digit by (Z.div_mod_to_equations; lia).
  cbn [str_ltb].
  destruct (Z.ltb_spec (a / 1000) (b / 1000));
    destruct (Z.ltb_spec (b / 1000) (a / 1000));
    destruct (Z.ltb_spec (a / 100 mod 10) (b / 100 mod 10));
    destruct (Z.ltb_spec (b / 100 mod 10) (a / 100 mod 10));
    destruct (Z.ltb_spec (a / 10 mod 10) (b / 10 mod 10));
    destruct (Z.ltb_spec (b / 10 mod 10) (a / 10 mod 10));
    destruct (Z.ltb_spec (a mod 10) (b mod 10));
    destruct (Z.ltb_spec (b mod 10) (a mod 10));
    destruct (Z.ltb_spec a b); try reflexivity;
    Z.div_mod_to_equations; lia.
Qed.

(** X24.  The file times of valid dates of years with four digits sort as
    the dates do: one file time comes before another, in the order of
    strings, exactly when its date is the earlier one. *)
Theorem X24_getDefaultFiletime_sorts_by_time (d1 d2 : Date) :
  valid_date d1 -> valid_date d2 ->
  (1000 <= getFullYear d1 <= 9999)%Z ->
  (1000 <= getFullYear d2 <= 9999)%Z ->
  str_ltb (getDefaultFiletime d1) (getDefaultFiletime d2) = true
  <-> earlier d1 d2.
Proof.
  intros V1 V2 Y1 Y2.
  rewrite !getDefaultFiletime_time by assumption.
  rewrite !Number_toString_four by assumption.
  destruct V1 as (Hm1 & Hd1 & Hh1 & Hmi1 & Hs1).
  destruct V2 as (Hm2 & Hd2 & Hh2 & Hmi2 & Hs2).
  unfold time_digits, earlier.
  rewrite <- (app_nil_r (two_digits (getSeconds d1))).
  rewrite <- (app_nil_r (two_digits (getSeconds d2))).
  rewrite !str_ltb_app by reflexivity.
  rewrite str_ltb_four_digits by assumption.
  rewrite !str_ltb_two_digits by lia.
  cbn [str_ltb].
  destruct (list_eq_dec ascii_dec (four_digits _) (four_digits _)) as [Ey|Ny];
    [apply four_digits_inj in Ey; [|assumption..]
    |assert (getFullYear d1 <> getFullYear d2) by (intros E; apply Ny; now rewrite E)].
  2: { rewrite Z.ltb_lt. lia. }
  destruct (list_eq_dec ascii_dec (two_digits (getMonth d1 + 1)) _) as [Em|Nm];
    [apply two_digits_inj in Em; [|lia..]
    |assert (getMonth d1 <> getMonth d2) by (intros E; apply Nm; now rewrite E)].
  2: { rewrite Z.ltb_lt. lia. }
  destruct (list_eq_dec ascii_dec (two_digits (getDate d1)) _) as [Ed|Nd];
    [apply two_digits_inj in Ed; [|lia..]
    |assert (getDate d1 <> getDate d2) by (intros E; apply Nd; now rewrite E)].
  2: { rewrite Z.ltb_lt. lia. }
  destruct (list_eq_dec ascii_dec (two_digits (getHours d1)) _) as [Eh|Nh];
    [apply two_digits_inj in Eh; [|lia..]
    |assert (getHours d1 <> getHours d2) by (intros E; apply Nh; now rewrite E)].
  2: { rewrite Z.ltb_lt. lia. }
  destruct (list_eq_dec ascii_dec (two_digits (getMinutes d1)) _) as [Ei|Ni];
    [apply two_digits_inj in Ei; [|lia..]
    |assert (getMinutes d1 <> getMinutes d2) by (intros E; apply Ni; now rewrite E)].
  2: { rewrite Z.ltb_lt. lia. }
  destruct (list_eq_dec ascii_dec (two_digits (getSeconds d1)) _) as [Es|Ns];
    [apply two_digits_inj in Es; [|lia..]
    |assert (getSeconds d1 <> getSeconds d2) by (intros E; apply Ns; now rewrite E)].
  - split; [discriminate|lia].
  - rewrite Z.ltb_lt. lia.
Qed.

(** ** [setLocalData] and [getLocalData] *)

Lemma str_eqb_refl a : str_eqb a a = true.
Proof. now apply str_eqb_eq. Qed.

Lemma str_eqb_neq a b : a <> b -> str_eqb a b = false.
Proof.
  intros H. destruct (str_eqb a b) eqn:E; [|reflexivity].
  apply str_eqb_eq in E. contradiction.
Qed.

(** X9.  What [setLocalData] writes under a key is what [getLocalData]
    reads under it, the empty string included, and every other key reads
    as before; a key that was never written reads as the empty string, as
    a key holding the empty string does. *)
Theorem X9_getLocalData_setLocalData (key value : str) (s : LocalData.LocalStorage) :
  LocalData.getLocalData key (LocalData.setLocalData key value s) = value
  /\ (forall other, other <> key ->
        LocalData.getLocalData other (LocalData.setLocalData key value s)
        = LocalData.getLocalData other s)
  /\ (LocalData.getItem key s = None -> LocalData.getLocalData key s = [])
  /\ (forall value',
        LocalData.getLocalData key
          (LocalData.setLocalData key value'
             (LocalData.setLocalData key value s))
        = value').
Proof.
  unfold LocalData.getLocalData, LocalData.setLocalData, LocalData.getItem,
    LocalData.setItem.
  repeat split.
  - rewrite str_eqb_refl. destruct value; reflexivity.
  - intros other Ho. now rewrite str_eqb_neq.
  - intros ->. reflexivity.
  - intros value'. rewrite str_eqb_refl. destruct value'; reflexivity.
Qed.

(** ** [getVoices] *)

(** X10.  [getVoices] answers with the voices of the first entry of the
    table for the region, and with no other entry's; it answers [null]
    when the table has no entry for the region or when that first entry
    holds no voices. *)
Theorem X10_getVoices_first_entry {V} (V_truthy : V -> bool)
    (LANGUAGES : list (Voices.Language V)) (r : str) :
  (forall v, Voices.getVoices V_truthy LANGUAGES r = Some v ->
     exists lang, first_for r LANGUAGES lang /\ Voices.voices lang = v
                  /\ V_truthy v = true)
  /\ (forall lang, first_for r LANGUAGES lang ->
        Voices.getVoices V_truthy LANGUAGES r
        = if V_truthy (Voices.voices lang) then Some (Voices.voices lang)
          else None)
  /\ ((forall lang, In lang LANGUAGES -> Voices.region lang <> r) ->
      Voices.getVoices V_truthy LANGUAGES r = None).
Proof.
  assert (F : forall lang, first_for r LANGUAGES lang ->
            find (fun l => str_eqb (Voices.region l) r) LANGUAGES = Some lang).
  { intros lang (a & b & -> & Hr & Ha).
    induction a as [|x a IH]; simpl.
    - subst r. now rewrite str_eqb_refl.
    - rewrite str_eqb_neq by (apply Ha; now left).
      apply IH. intros l Hl. apply Ha. now right. }
  assert (G : forall lang,
            find (fun l => str_eqb (Voices.region l) r) LANGUAGES = Some lang ->
            first_for r LANGUAGES lang).
  { clear F. induction LANGUAGES as [|x t IH]; intros lang E; [discriminate E|].
    simpl in E. destruct (str_eqb (Voices.region x) r) eqn:Ex.
    - inversion E; subst. exists [], t. apply str_eqb_eq in Ex.
      split; [reflexivity|]. split; [exact Ex|]. intros l [].
    - destruct (IH lang E) as (a & b & -> & Hr & Ha).
      exists (x :: a), b. split; [reflexivity|]. split; [exact Hr|].
      intros l [<-|Hl]; [|auto]. intros Hx. apply str_eqb_eq in Hx. congruence. }
  unfold Voices.getVoices. repeat split.
  - intros v E.
    destruct (find _ LANGUAGES) as [lang|] eqn:Ef; [|discriminate E].
    destruct (V_truthy (Voices.voices lang)) eqn:Et; [|discriminate E].
    inversion E; subst. exists lang. auto.
  - intros lang Hl. now rewrite (F lang Hl).
  - intros Hn. destruct (find _ LANGUAGES) as [lang|] eqn:Ef; [|reflexivity].
    apply find_some in Ef. destruct Ef as [Hin Hr].
    apply str_eqb_eq in Hr. exfalso. exact (Hn lang Hin Hr).
Qed.

(* ================================================================== *)
(** * Further properties of the lifecycle *)
(* ================================================================== *)


(** X12.  An invocation shows at most one notice, and one exactly on a
    terminal path: of the class "ob-t2v-success" when its promise is
    fulfilled with [true], of the class "ob-t2v-error" when it is rejected
    with [false]. *)
Theorem X12_generateVoice_one_notice (H : Host) (config : Config) (o : Outcome)
    (w : World) :
  let p := length (promises w) in
  let w' := snd (invocation config o w) in
  let ev := events_since w w' in
  (notices ev = [] /\ ~ terminal config ev /\ promise_state w' p = Pending)
  \/ (exists m,
        notices ev
        = [{| span_text := m; span_className := lit "ob-t2v-success" |}]
        /\ terminal config ev
        /\ promise_state w' p = Fulfilled (VBool true))
  \/ (exists m,
        notices ev
        = [{| span_text := m; span_className := lit "ob-t2v-error" |}]
        /\ terminal config ev
        /\ promise_state w' p = Rejected (VBool false)).
Proof.
  cbv zeta. destruct w as [[ac sy pl] n ps pd tr]. unfold terminal.
  destruct (truthy_opt (text config)) eqn:Ht.
  all: lifecycle_run (invocation config o
                    {| store := {| store_audioConfig := ac;
                                   store_synthesizer := sy;
                                   store_playing := pl |};
                       next_id := n; promises := ps; pending := pd;
                       trace := tr |}).
  all: first
    [ left; split; [reflexivity|]; split; [|reflexivity];
      intros [E|E]; congruence
    | right; left; eexists; split; [reflexivity|]; split;
      [first [left; reflexivity | right; discriminate]|reflexivity]
    | right; right; eexists; split; [reflexivity|]; split;
      [first [left; reflexivity | right; discriminate]|reflexivity] ].
Qed.

(** X13.  A synthesis is started at most once per call, exactly when there
    is a text and the setup does not throw, and always on the synthesizer
    that this call has just constructed and registered: the construction,
    the registration and the start follow each other directly, with the
    SSML document of the call. *)
Theorem X13_generateVoice_speaks_on_own_handle (H : Host) (config : Config)
    (o : Outcome) (w : World) :
  let ev := events_since w (snd (invocation config o w)) in
  let n := next_id w in
  (filter is_speak ev = []
   \/ filter is_speak ev = [ESpeakSsml n (ssmlContent config)]
      /\ firstn 3 (from_new ev)
         = [ENewSynthesizer n; ESetSpeechSynthesizer n;
            ESpeakSsml n (ssmlContent config)])
  /\ (filter is_speak ev <> []
      <-> truthy_opt (text config) = true /\ thrown ev = None)
  /\ (filter is_new ev = [] \/ filter is_new ev = [ENewSynthesizer n]).
Proof.
  cbv zeta. destruct w as [[ac sy pl] n ps pd tr]. cbn [next_id].
  destruct (truthy_opt (text config)) eqn:Ht.
  all: lifecycle_run (invocation config o
                    {| store := {| store_audioConfig := ac;
                                   store_synthesizer := sy;
                                   store_playing := pl |};
                       next_id := n; promises := ps; pending := pd;
                       trace := tr |}).
  all: lifecycle_read.
  all: repeat split; auto; try congruence; try tauto;
    try (intros [E1 E2]; congruence).
Qed.

(** X14.  Without a text, a call whose setup does not throw pauses the
    playback, which releases the handle registered before the call, if
    there is one, clears the audio configuration, constructs a synthesizer
    and registers it, and that is all: no notice, no call of the caller's
    function, no release of its own handle; that handle stays live and
    stays in the store, built from the key, the region and the voice of
    the call, the empty string standing for a missing one. *)
Theorem X14_generateVoice_no_text_keeps_handle (H : Host) (config : Config)
    (o : Outcome) (w : World) :
  let w' := snd (invocation config o w) in
  let ev := events_since w w' in
  truthy_opt (text config) = false ->
  thrown ev = None ->
  ev = EPause :: release_events (store_synthesizer (store w))
       ++ EClearAudioConfig :: audio_events (type config)
       ++ [ENewSynthesizer (next_id w); ESetSpeechSynthesizer (next_id w)]
  /\ live_handles_from [] ev = [next_id w]
  /\ store_synthesizer (store w') = Some (own_synthesizer config w).
Proof.
  cbv zeta. destruct w as [[ac sy pl] n ps pd tr]. intros Ht.
  unfold own_synthesizer. cbn [next_id store store_synthesizer].
  lifecycle_run (invocation config o
                    {| store := {| store_audioConfig := ac;
                                   store_synthesizer := sy;
                                   store_playing := pl |};
                       next_id := n; promises := ps; pending := pd;
                       trace := tr |}).
  all: lifecycle_read.
  all: try (intros E; discriminate E).
  all: intros _; repeat split.
Qed.

(** X15.  In mode "save" a call never puts an audio configuration in the
    shared store, and the store holds none after it; in mode "play" the
    only one it puts there is the speaker output, once, when the two calls
    before it do not throw. *)
Theorem X15_generateVoice_shared_audio_config (H : Host) (config : Config)
    (o : Outcome) (w : World) :
  let w' := snd (invocation config o w) in
  let ev := events_since w w' in
  (type config = save ->
     filter is_setAudio ev = [] /\ store_audioConfig (store w') = None)
  /\ (type config = play ->
        (filter is_setAudio ev = []
         /\ store_audioConfig (store w') = None /\ thrown ev <> None)
        \/ (filter is_setAudio ev = [ESetAudioConfig fromSpeakerOutput]
            /\ store_audioConfig (store w') = Some fromSpeakerOutput))
  /\ (type config = play -> thrown ev = None ->
        filter is_setAudio ev = [ESetAudioConfig fromSpeakerOutput]).
Proof.
  cbv zeta. destruct w as [[ac sy pl] n ps pd tr].
  destruct (truthy_opt (text config)) eqn:Ht.
  all: lifecycle_run (invocation config o
                    {| store := {| store_audioConfig := ac;
                                   store_synthesizer := sy;
                                   store_playing := pl |};
                       next_id := n; promises := ps; pending := pd;
                       trace := tr |}).
  all: lifecycle_read.
  all: repeat split; try congruence; auto.
  all: try (intros _; right; split; reflexivity).
  all: intros _; left; repeat split; congruence.
Qed.

(** X16.  An invocation settles no promise but its own: every promise that
    existed before the call is in the state it was in. *)
Theorem X16_generateVoice_other_promises (H : Host) (config : Config) (o : Outcome)
    (w : World) (q : nat) :
  let w' := snd (invocation config o w) in
  q < length (promises w) ->
  promise_state w' q = promise_state w q
  /\ length (promises w') = S (length (promises w)).
Proof.
  cbv zeta. destruct w as [[ac sy pl] n ps pd tr].
  cbn [promises]. intros Hq.
  assert (E : forall s, nth q (ps ++ [s]) Pending = nth q ps Pending).
  { intros s. now apply app_nth1. }
  unfold promise_state at 2. cbn [promises].
  destruct (truthy_opt (text config)) eqn:Ht.
  all: lifecycle_run (invocation config o
                    {| store := {| store_audioConfig := ac;
                                   store_synthesizer := sy;
                                   store_playing := pl |};
                       next_id := n; promises := ps; pending := pd;
                       trace := tr |}).
  all: rewrite ?E, ?length_app; cbn [length]; split; [reflexivity|lia].
Qed.

(** With a text and without an exception of the setup, a call leaves its
    promise pending, its synthesizer registered and its request with the
    SDK. *)
Lemma generateVoice_started (H : Host) (config : Config) (w : World) :
  truthy_opt (text config) = true ->
  thrown (events_since w (snd (generateVoice config w))) = None ->
  snd (generateVoice config w) = started config w.
Proof.
  destruct w as [[ac sy pl] n ps pd tr]. intros Ht.
  unfold started, own_request, own_synthesizer.
  lifecycle_run (generateVoice config
                    {| store := {| store_audioConfig := ac;
                                   store_synthesizer := sy;
                                   store_playing := pl |};
                       next_id := n; promises := ps; pending := pd;
                       trace := tr |}).
  all: lifecycle_read.
  all: try (intros E; discriminate E).
  all: intros _; rewrite <- ?app_assoc; reflexivity.
Qed.

(** X17.  The cleanup of an answer releases the synthesizer that is
    registered in the store when the answer arrives, whichever call has
    constructed it, and nothing when none is registered (the store's
    [clearsynthesizer] being what the specification says of it); the
    answer constructs no synthesizer, takes the answered request from
    those under way, settles the promise of that request when it is
    pending, and leaves every other promise as it is. *)
Theorem X17_answer_releases_registered (k : nat) (o : Outcome) (w : World)
    (req : Request) :
  nth_error (pending w) k = Some req ->
  let w' := snd (deliver k o w) in
  let ev := events_since w w' in
  filter is_close ev
  = match store_synthesizer (store w) with
    | Some s => [ECloseSynthesizer (synth_id s)]
    | None => []
    end
  /\ filter is_new ev = []
  /\ store_synthesizer (store w') = None
  /\ pending w' = firstn k (pending w) ++ skipn (S k) (pending w)
  /\ (promise_state w (req_promise req) = Pending ->
      req_promise req < length (promises w) ->
      promise_state w' (req_promise req) <> Pending)
  /\ (forall q, q <> req_promise req ->
        promise_state w' q = promise_state w q).
Proof.
  intros Hnth.
  destruct (deliver_facts k o w req Hnth) as (_ & C & N & S & P & A & B & _).
  repeat split; assumption.
Qed.

(** X18.  When a second call starts a synthesis while the request of a
    first call is still with the SDK, the start of the second call
    releases the synthesizer of the first ([./store] being what the
    specification says of it); the answer to the first request then
    releases the synthesizer of the second call, whose request is still
    under way, and settles the promise of the first only; the answer to
    the second request finds nothing to release and settles the promise
    of the second; none of the two synthesizers is live at the end. *)
Theorem X18_generateVoice_overlapping_calls (H : Host) (c1 c2 : Config)
    (o1 o2 : Outcome) (w : World) :
  let w1 := snd (generateVoice c1 w) in
  let w2 := snd (generateVoice c2 w1) in
  let w3 := snd (deliver (length (pending w)) o1 w2) in
  let w4 := snd (deliver (length (pending w)) o2 w3) in
  truthy_opt (text c1) = true ->
  truthy_opt (text c2) = true ->
  thrown (events_since w w1) = None ->
  thrown (events_since w1 w2) = None ->
  filter is_close (events_since w1 w2) = [ECloseSynthesizer (next_id w)]
  /\ filter is_close (events_since w2 w3) = [ECloseSynthesizer (S (next_id w))]
  /\ promise_state w3 (length (promises w)) <> Pending
  /\ promise_state w3 (S (length (promises w))) = Pending
  /\ pending w3 = pending w ++ [own_request c2 w1]
  /\ req_synthesizer (own_request c2 w1) = S (next_id w)
  /\ filter is_close (events_since w3 w4) = []
  /\ promise_state w4 (S (length (promises w))) <> Pending
  /\ live_handles_from [] (events_since w w4) = [].
Proof.
  cbv zeta. intros T1 T2 E1 E2.
  rewrite (generateVoice_started H c1 w T1 E1) in *.
  rewrite (generateVoice_started H c2 _ T2 E2) in *.
  clear E1 E2.
  set (w1 := started c1 w). set (w2 := started c2 w1).
  assert (P2 : pending w2 = pending w ++ [own_request c1 w; own_request c2 w1]).
  { unfold w2, w1, started. cbn [pending]. now rewrite <- app_assoc. }
  assert (Q2 : promises w2 = promises w ++ [Pending; Pending]).
  { unfold w2, w1, started. cbn [promises]. now rewrite <- app_assoc. }
  assert (L1 : length (promises w1) = S (length (promises w))).
  { unfold w1, started. cbn [promises]. rewrite length_app. simpl. lia. }
  assert (N1 : nth_error (pending w2) (length (pending w))
               = Some (own_request c1 w)).
  { rewrite P2. apply nth_error_length_cons. }
  destruct (deliver_facts (length (pending w)) o1 w2 _ N1)
    as (T3 & C3 & W3 & S3 & P3 & A3 & B3 & LQ3 & _).
  set (w3 := snd (deliver (length (pending w)) o1 w2)) in *.
  rewrite P2, firstn_length_prefix, skipn_S_length in P3.
  assert (N3 : nth_error (pending w3) (length (pending w))
               = Some (own_request c2 w1)).
  { rewrite P3. apply nth_error_length_app. }
  destruct (deliver_facts (length (pending w)) o2 w3 _ N3)
    as (T4 & C4 & W4 & S4 & P4 & A4 & B4 & _).
  set (w4 := snd (deliver (length (pending w)) o2 w3)) in *.
  rewrite S3 in C4.
  assert (Q3 : promise_state w3 (S (length (promises w))) = Pending).
  { rewrite B3 by (cbn [own_request req_promise]; lia).
    unfold promise_state. rewrite Q2.
    change (promises w ++ [Pending; Pending])
      with (promises w ++ Pending :: [Pending]).
    rewrite app_nth2 by lia.
    replace (S (length (promises w)) - length (promises w)) with 1 by lia.
    reflexivity. }
  rewrite Q2, length_app in LQ3. cbn [length] in LQ3.
  assert (Tr2 : trace w2 = trace w1
        ++ EPause :: ECloseSynthesizer (next_id w) :: EClearAudioConfig
           :: audio_events (type c2)
           ++ [ENewSynthesizer (S (next_id w));
               ESetSpeechSynthesizer (S (next_id w));
               ESpeakSsml (S (next_id w)) (ssmlContent c2)]).
  { reflexivity. }
  assert (Tr1 : trace w1 = trace w
        ++ EPause :: release_events (store_synthesizer (store w))
           ++ EClearAudioConfig :: audio_events (type c1)
           ++ [ENewSynthesizer (next_id w); ESetSpeechSynthesizer (next_id w);
               ESpeakSsml (next_id w) (ssmlContent c1)]).
  { reflexivity. }
  repeat split.
  - rewrite (events_since_app w1 _ w2 Tr2).
    destruct (type c2); reflexivity.
  - exact C3.
  - apply A3.
    + cbn [own_request req_promise]. unfold promise_state. rewrite Q2.
      apply nth_middle.
    + cbn [own_request req_promise]. rewrite Q2, length_app. simpl. lia.
  - exact Q3.
  - exact P3.
  - exact C4.
  - replace (S (length (promises w))) with (req_promise (own_request c2 w1))
      by (cbn [own_request req_promise]; exact L1).
    apply A4.
    + cbn [own_request req_promise]. rewrite L1. exact Q3.
    + cbn [own_request req_promise]. rewrite L1, LQ3. lia.
  - rewrite (events_since_app w _ w4
               ltac:(rewrite T4, T3, Tr2, Tr1, <- !app_assoc; reflexivity)).
    rewrite !live_handles_from_app.
    rewrite (live_handles_from_no_handle _ (events_since w3 w4) W4 C4).
    rewrite (live_handles_from_closes _ (events_since w2 w3) W3), C3.
    cbn [store w2 started store_synthesizer synth_id own_synthesizer w1 next_id].
    destruct (store_synthesizer (store w)), (type c1), (type c2);
      repeat (cbn [release_events audio_events app live_handles_from filter
                   negb];
              rewrite ?Nat.eqb_refl);
      reflexivity.
Qed.

(* ================================================================== *)
(** * Properties of the rows of the settings tab *)
(* ================================================================== *)

Module SettingsFacts.
Import Settings.

Lemma masked_not_plain row : masked row -> ~ plain row.
Proof. intros [H _] [H' _]. rewrite H in H'. discriminate H'. Qed.

Lemma keyHide_assign (b : bool) s c :
  keyHide {| settings := assign (lit "keyHide") (VBoolean b) s; calls := c |}
  = b.
Proof. reflexivity. Qed.

Lemma generateSettings_in_sync plugin config :
  password_field config -> in_sync plugin (generateSettings plugin config).
Proof.
  intros [Hp Ht]. unfold generateSettings, in_sync. rewrite Hp.
  destruct Ht as [-> | ->]; unfold masked, plain;
    cbn [handleIconSwitch handleInputTypeSwitch setClass with_control
         input_type button_icon];
    destruct (keyHide plugin); split; reflexivity.
Qed.

Lemma onClick_saved config plugin row :
  isPassword config = true ->
  let st := onClick config true (plugin, row) in
  keyHide (fst st) = negb (keyHide plugin)
  /\ in_sync (fst st) (snd st)
  /\ calls (fst st) = calls plugin ++ [saveSettings_call]
  /\ control (snd st) = control row
  /\ (forall k, k <> lit "keyHide" ->
        settings (fst st) k = settings plugin k).
Proof.
  intros Hp. cbv zeta. unfold onClick. rewrite Hp. cbn [fst snd].
  rewrite keyHide_assign.
  repeat split.
  - unfold in_sync. rewrite keyHide_assign.
    unfold handleInputTypeSwitch, handleIconSwitch, masked, plain.
    cbn [input_type button_icon]. rewrite keyHide_assign.
    destruct (negb (keyHide plugin)); split; reflexivity.
  - intros k Hk. cbn [settings]. unfold assign.
    destruct (str_eqb k (lit "keyHide")) eqn:E; [|reflexivity].
    apply str_eqb_eq in E. contradiction.
Qed.

(** X19.  A password field is built with what the flag [keyHide] says: the
    input type "password" and the icon "eye" when it is set, the type
    "text" and the icon "eye-off" otherwise.  Every click on its button
    whose save succeeds flips the flag, asks once for the settings to be
    saved and sets the type and the icon by the new flag, so that after
    any number of clicks the field and the flag agree, and an even number
    of clicks brings the flag back. *)
Theorem X19_password_field_follows_keyHide (plugin : Plugin)
    (config : SettingConfig) (n : nat) :
  password_field config ->
  let st := clicks config n (plugin, generateSettings plugin config) in
  in_sync plugin (generateSettings plugin config)
  /\ in_sync (fst st) (snd st)
  /\ keyHide (fst st)
     = (if Nat.even n then keyHide plugin else negb (keyHide plugin))
  /\ calls (fst st) = calls plugin ++ repeat saveSettings_call n.
Proof.
  intros Hc. cbv zeta.
  pose proof (generateSettings_in_sync plugin config Hc) as H0.
  destruct Hc as [Hp _].
  split; [exact H0|].
  generalize dependent (generateSettings plugin config).
  revert plugin. induction n as [|n IH]; intros plugin row H0.
  - cbn [clicks fst snd Nat.even repeat]. rewrite app_nil_r. auto.
  - cbn [clicks].
    destruct (onClick_saved config plugin row Hp) as (K & S & C & _).
    destruct (onClick config true (plugin, row)) as [p1 r1] eqn:E.
    cbn [fst snd] in K, S, C.
    destruct (IH p1 r1 S) as (S' & K' & C').
    split; [exact S'|]. split.
    + rewrite K', K. rewrite Nat.even_succ, <- Nat.negb_even.
      destruct (Nat.even n); [reflexivity|apply negb_involutive].
    + rewrite C', C, <- app_assoc. reflexivity.
Qed.

(** X20.  The flag [keyHide] is shared and the fields are not told: of two
    password fields built from the same settings, a click on the button of
    the first leaves the second as it was, with the type and the icon of
    the old flag; a click on the button of the second then changes neither
    its type nor its icon, and it is the first field that no longer agrees
    with the flag. *)
Theorem X20_password_fields_out_of_sync (plugin : Plugin)
    (ca cb : SettingConfig) :
  password_field ca -> password_field cb ->
  let a := generateSettings plugin ca in
  let b := generateSettings plugin cb in
  let st1 := onClick ca true (plugin, a) in
  let st2 := onClick cb true (fst st1, b) in
  in_sync (fst st1) (snd st1)
  /\ ~ in_sync (fst st1) b
  /\ input_type (snd st2) = input_type b
  /\ button_icon (snd st2) = button_icon b
  /\ ~ in_sync (fst st2) (snd st1)
  /\ keyHide (fst st2) = keyHide plugin.
Proof.
  intros Hca Hcb. cbv zeta.
  pose proof (generateSettings_in_sync plugin ca Hca) as Ha.
  pose proof (generateSettings_in_sync plugin cb Hcb) as Hb.
  destruct Hca as [Hpa _], Hcb as [Hpb _].
  generalize dependent (generateSettings plugin ca).
  generalize dependent (generateSettings plugin cb).
  intros b Hb a Ha.
  destruct (onClick_saved ca plugin a Hpa) as (K1 & S1 & _).
  destruct (onClick ca true (plugin, a)) as [p1 a1] eqn:E1.
  cbn [fst snd] in *.
  destruct (onClick_saved cb p1 b Hpb) as (K2 & S2 & _).
  destruct (onClick cb true (p1, b)) as [p2 b2] eqn:E2.
  cbn [fst snd] in *.
  rewrite K1 in K2. rewrite negb_involutive in K2.
  unfold in_sync in *. rewrite K2 in *. rewrite K1 in *.
  destruct (keyHide plugin); cbn [negb] in *.
  - split; [exact S1|]. split; [exact (masked_not_plain _ Hb)|].
    split; [destruct S2 as [S2 _], Hb as [Hb _]; congruence|].
    split; [destruct S2 as [_ S2], Hb as [_ Hb]; congruence|].
    split; [|reflexivity]. intros H. exact (masked_not_plain _ H S1).
  - split; [exact S1|]. split; [intros H; exact (masked_not_plain _ H Hb)|].
    split; [destruct S2 as [S2 _], Hb as [Hb _]; congruence|].
    split; [destruct S2 as [_ S2], Hb as [_ Hb]; congruence|].
    split; [|reflexivity]. exact (masked_not_plain _ S1).
Qed.

(** X21.  When saving fails on a click, the flag [keyHide] has already been
    flipped and the field is not updated: it keeps the type and the icon
    of the old flag. *)
Theorem X21_password_field_save_rejected (plugin : Plugin)
    (config : SettingConfig) :
  password_field config ->
  let row := generateSettings plugin config in
  let st := onClick config false (plugin, row) in
  snd st = row
  /\ keyHide (fst st) = negb (keyHide plugin)
  /\ calls (fst st) = calls plugin ++ [saveSettings_call]
  /\ ~ in_sync (fst st) row.
Proof.
  intros Hc. cbv zeta.
  pose proof (generateSettings_in_sync plugin config Hc) as Hs.
  generalize dependent (generateSettings plugin config). intros row Hs.
  unfold onClick. cbn [fst snd].
  rewrite keyHide_assign. repeat split.
  unfold in_sync in *. rewrite keyHide_assign.
  destruct (keyHide plugin); cbn [negb]; intros H.
  - exact (masked_not_plain _ Hs H).
  - exact (masked_not_plain _ H Hs).
Qed.

(** X22.  A change of the control of a row writes the new value under the
    key of the descriptor and under no other key, and asks once for the
    settings to be saved; the [callback] of the descriptor is called, with
    the value and before the save, only for the kinds "text" and
    "textArea".  Building the row again shows the value written, except
    for a slider: it shows the setting [speed], whatever key it writes. *)
Theorem X22_onChange_writes_key (plugin : Plugin) (config : SettingConfig)
    (value : Value) :
  type config <> other ->
  let plugin' := onChange config value plugin in
  let called :=
    match type config, inputConfig config with
    | (text | textArea), Some i =>
      if callback i then [callback_call value] else []
    | _, _ => []
    end in
  settings plugin' (key config) = value
  /\ (forall k, k <> key config -> settings plugin' k = settings plugin k)
  /\ calls plugin' = calls plugin ++ called ++ [saveSettings_call]
  /\ shown (generateSettings plugin' config)
     = Some (match type config with
             | slider => settings plugin' (lit "speed")
             | _ => value
             end)
  /\ (type config = slider -> key config <> lit "speed" ->
      shown (generateSettings plugin' config)
      = shown (generateSettings plugin config)).
Proof.
  intros Ht. cbv zeta.
  assert (A : forall s, assign (key config) value s (key config) = value).
  { intros s. unfold assign. now rewrite str_eqb_refl. }
  assert (B : forall s k, k <> key config ->
                assign (key config) value s k = s k).
  { intros s k Hk. unfold assign. now rewrite str_eqb_neq. }
  unfold onChange, generateSettings, shown.
  destruct (type config) eqn:E; try congruence;
    destruct (inputConfig config) as [[ph [|]]|];
    destruct (isPassword config);
    cbn [handleSettingSave settings calls with_control setClass
         handleIconSwitch handleInputTypeSwitch control callback];
    rewrite ?A, <- ?app_assoc; repeat split; auto; try discriminate.
  all: intros _ Hk; rewrite B by congruence; reflexivity.
Qed.

(** X23.  A row has a button, and the function sets the attribute [type] of
    its input, exactly for a descriptor of kind "text" or "textArea" that
    is a password field: [isPassword] does nothing for the other kinds.
    Only a row of kind "textArea" gets a class, and a descriptor of a kind
    without a case gets a row without a control. *)
Theorem X23_generateSettings_row (plugin : Plugin) (config : SettingConfig) :
  let row := generateSettings plugin config in
  (button_icon row <> None <-> password_field config)
  /\ (input_type row <> None <-> password_field config)
  /\ (row_class row <> None <-> type config = textArea)
  /\ (control row = None <-> type config = other)
  /\ row_name row = name config
  /\ row_desc row = desc config.
Proof.
  cbv zeta. unfold generateSettings, password_field.
  destruct (type config) eqn:E; destruct (isPassword config);
    cbn [handleIconSwitch handleInputTypeSwitch setClass with_control
         button_icon input_type row_class control row_name row_desc];
    repeat split; try congruence; try tauto; try discriminate;
    try (intros [? [?|?]]; congruence); auto.
Qed.

(** ** The theorems about the rows at concrete inputs *)

Lemma password_field_key_field : password_field key_field.
Proof. split; [reflexivity|left; reflexivity]. Qed.

Lemma password_field_region_field : password_field region_field.
Proof. split; [reflexivity|left; reflexivity]. Qed.

(** Three clicks on the button of the key field. *)
Lemma X19_witness :
  password_field key_field
  /\ masked (generateSettings example_plugin key_field)
  /\ plain (snd (clicks key_field 3
                   (example_plugin, generateSettings example_plugin key_field))).
Proof.
  destruct (X19_password_field_follows_keyHide example_plugin key_field 3
              password_field_key_field) as (A & B & _).
  split; [exact password_field_key_field|]. split; [exact A|exact B].
Defined.

(** The region field after a click on the button of the key field. *)
Lemma X20_witness :
  password_field key_field /\ password_field region_field
  /\ ~ in_sync
        (fst (onClick key_field true
                (example_plugin, generateSettings example_plugin key_field)))
        (generateSettings example_plugin region_field).
Proof.
  destruct (X20_password_fields_out_of_sync example_plugin key_field
              region_field password_field_key_field
              password_field_region_field) as (_ & A & _).
  split; [exact password_field_key_field|].
  split; [exact password_field_region_field|exact A].
Defined.

(** A click on the button of the key field that is not saved. *)
Lemma X21_witness :
  keyHide (fst (onClick key_field false
                  (example_plugin, generateSettings example_plugin key_field)))
  = false
  /\ masked (snd (onClick key_field false
                    (example_plugin,
                     generateSettings example_plugin key_field))).
Proof.
  destruct (X21_password_field_save_rejected example_plugin key_field
              password_field_key_field) as (A & B & _).
  split; [exact B|]. rewrite A. split; reflexivity.
Defined.

(** Typing a key: the callback, then the save. *)
Lemma X22_witness :
  calls (onChange key_field (VString (lit "secret")) example_plugin)
  = [callback_call (VString (lit "secret")); saveSettings_call]
  /\ settings (onChange key_field (VString (lit "secret")) example_plugin)
       (lit "key")
     = VString (lit "secret").
Proof.
  destruct (X22_onChange_writes_key example_plugin key_field
              (VString (lit "secret")) ltac:(discriminate))
    as (A & _ & B & _).
  split; [exact B|exact A].
Defined.

End SettingsFacts.

(* ================================================================== *)
(** * The further theorems at concrete inputs *)
(* ================================================================== *)

(** The rule without the flag "i" still matches in any case. *)
Lemma X1_witness :
  rule_literal (lit "/abc/") (lit "abc") []
  /\ rule_literal (lit "/abc/gi") (lit "abc") (lit "gi")
  /\ handleTextFormat (lit "xABCx") (lit "/abc/") = Normal (lit "x x").
Proof.
  assert (R1 : rule_literal (lit "/abc/") (lit "abc") [])
    by (apply rule_literal_check; reflexivity).
  assert (R2 : rule_literal (lit "/abc/gi") (lit "abc") (lit "gi"))
    by (apply rule_literal_check; reflexivity).
  split; [exact R1|]. split; [exact R2|].
  rewrite (X1_handleTextFormat_flags_ignored (lit "xABCx") _ _ _ _ _ R1 R2).
  reflexivity.
Defined.

(** A rule of two lines: the second line stays in the pattern. *)
Lemma X2_witness :
  handleTextFormat (lit "a" ++ [LF] ++ lit "b")
                   (lit "/a/g" ++ [LF] ++ lit "b")
  = Normal (lit " ").
Proof.
  exact (X2_handleTextFormat_rule_of_lines (lit "a" ++ [LF] ++ lit "b")
           (lit "a") (lit "g") ([LF] ++ lit "b")
           ltac:(discriminate)
           (single_line_forallb (lit "a") eq_refl)
           (single_line_forallb (lit "g") eq_refl)
           (not_in_existsb "/"%char (lit "g") eq_refl) eq_refl).
Defined.

(** The rule of two slashes on a text of two letters. *)
Lemma X3_witness :
  handleTextFormat (lit "ab") (lit "//") = Normal (lit " a b ").
Proof.
  apply (X3_handleTextFormat_empty_pattern (lit "ab") []).
  - discriminate.
  - intros c [].
Defined.

(** A voice with two parenthesized parts. *)
Lemma X4_witness :
  single_line (lit "Jenny (Female) en (US) x")
  /\ getVoiceName (lit "Jenny (Female) en (US) x") = lit "Jenny  x"
  /\ getVoiceName (lit "Jenny  x") = lit "Jenny  x".
Proof.
  assert (S : single_line (lit "Jenny (Female) en (US) x"))
    by (apply single_line_forallb; reflexivity).
  destruct (X4_getVoiceName_span_idempotent _ S) as [A B].
  split; [exact S|]. split.
  - apply (A (lit "Jenny ") (lit "Female) en (US") (lit " x")).
    + reflexivity.
    + apply not_in_existsb; reflexivity.
    + apply not_in_existsb; reflexivity.
  - exact B.
Defined.

(** An editor with a selection of two blanks before the cursor. *)
Lemma X5_witness :
  getSelectedText before
    (Some {| getSelection := lit "  ";
             getCursor := getCursor example_editor;
             lastLine := lastLine example_editor;
             getLine := getLine example_editor;
             wordAt := wordAt example_editor;
             getRange := getRange example_editor |})
  = [].
Proof.
  apply X5_getSelectedText_blank_selection.
  - discriminate.
  - repeat constructor.
Defined.

(** Two dates one second apart. *)
Lemma X7_witness :
  getDefaultFiletime example_date
  <> getDefaultFiletime
       {| getFullYear := 2026; getMonth := 10; getDate := 3; getHours := 7;
          getMinutes := 5; getSeconds := 10 |}.
Proof.
  intros E.
  apply X7_getDefaultFiletime_injective in E.
  - discriminate E.
  - unfold valid_date; simpl; lia.
  - unfold valid_date; simpl; lia.
  - simpl; lia.
  - simpl; lia.
Defined.

(** The file time of 3 November 2026, 07:05:09. *)
Lemma X8_witness :
  valid_date example_date
  /\ length (getDefaultFiletime example_date) = 14
  /\ getDefaultFiletime example_date
     = Number_toString 2026 ++ time_digits example_date.
Proof.
  assert (V : valid_date example_date) by (unfold valid_date; simpl; lia).
  destruct (X8_getDefaultFiletime_fourteen_digits example_date V) as (A & B & _).
  split; [exact V|]. split; [|exact B].
  apply (proj2 A). simpl. lia.
Defined.

(** The promise of an earlier call when the next call is made. *)
Lemma X16_witness :
  promise_state
    (snd (@invocation example_host note1_config (Failed [])
            (snd (@generateVoice example_host empty_config fresh_world)))) 0
  = Pending.
Proof.
  apply (X16_generateVoice_other_promises example_host note1_config (Failed [])
           (snd (@generateVoice example_host empty_config fresh_world)) 0).
  simpl. lia.
Defined.

(** A call to play an absent text, from a fresh state. *)
Lemma X14_witness :
  live_handles_from []
    (events_since fresh_world
       (snd (@invocation example_host no_text_config (Failed []) fresh_world)))
  = [0].
Proof.
  apply (X14_generateVoice_no_text_keeps_handle example_host no_text_config
           (Failed []) fresh_world); reflexivity.
Defined.

(** The answer to the request of the scenario releases handle 0. *)
Lemma X17_witness :
  filter is_close
    (events_since (snd (@generateVoice example_host note1_config fresh_world))
       (snd (deliver 0 (Completed SynthesizingAudioCompleted)
               (snd (@generateVoice example_host note1_config fresh_world)))))
  = [ECloseSynthesizer 0].
Proof.
  exact (proj1 (X17_answer_releases_registered 0
                  (Completed SynthesizingAudioCompleted)
                  (snd (@generateVoice example_host note1_config fresh_world))
                  (@own_request example_host note1_config fresh_world)
                  eq_refl)).
Defined.

(** Two calls of the scenario, the second before the first is answered. *)
Lemma X18_witness :
  let w1 := snd (@generateVoice example_host note1_config fresh_world) in
  let w2 := snd (@generateVoice example_host note1_config w1) in
  let w3 := snd (deliver 0 (Completed SynthesizingAudioCompleted) w2) in
  let w4 := snd (deliver 0 (Completed SynthesizingAudioCompleted) w3) in
  filter is_close (events_since w1 w2) = [ECloseSynthesizer 0]
  /\ filter is_close (events_since w2 w3) = [ECloseSynthesizer 1]
  /\ live_handles_from [] (events_since fresh_world w4) = [].
Proof.
  cbv zeta.
  destruct (X18_generateVoice_overlapping_calls example_host note1_config
              note1_config (Completed SynthesizingAudioCompleted)
              (Completed SynthesizingAudioCompleted) fresh_world
              eq_refl eq_refl eq_refl eq_refl)
    as (A0 & A & _ & _ & _ & _ & _ & _ & B).
  split; [exact A0|]. split; [exact A|exact B].
Defined.

(** Two dates one second apart, by their file times. *)
Lemma X24_witness :
  str_ltb (getDefaultFiletime example_date)
    (getDefaultFiletime
       {| getFullYear := 2026; getMonth := 10; getDate := 3; getHours := 7;
          getMinutes := 5; getSeconds := 10 |})
  = true.
Proof.
  apply X24_getDefaultFiletime_sorts_by_time.
  - unfold valid_date; simpl; lia.
  - unfold valid_date; simpl; lia.
  - simpl; lia.
  - simpl; lia.
  - unfold earlier; simpl; lia.
Defined.
